(** * npblob: the TypeScript codec ([src/typescript/src/index.ts])

    A shallow embedding of the blob codec and of its streaming decoder.

    Conventions of the embedding.
    - A JavaScript number that holds a length, an index or a byte is a [Z];
      the code only ever manipulates integers there, and they stay far below
      2^53, so the arithmetic of doubles is exact on them.
    - A [Uint8Array] is the list of its elements; an element is a [Z] and
      every store into one is written with its wrap-around ([mod 256]).
    - A thrown exception is the left summand of a result; a function that
      mutates its argument returns the new value of the argument as well,
      also when it throws. *)

From Stdlib Require Import ZArith Lia Bool.
From stdpp Require Import base tactics option list.

Local Open Scope Z_scope.

(** ** Exceptions *)

(** [IncompleteChunksError] is the class declared in the source; the others
    are the built-in errors the code or the runtime raises ([throw new
    Error()], a destructuring of [undefined], an allocation of negative
    length, a failed [JSON.parse]). *)
Inductive exn : Set :=
| IncompleteChunksError
| Error
| TypeError
| RangeError
| SyntaxError.

Definition exn_eqb (a b : exn) : bool :=
  match a, b with
  | IncompleteChunksError, IncompleteChunksError
  | Error, Error | TypeError, TypeError
  | RangeError, RangeError | SyntaxError, SyntaxError => true
  | _, _ => false
  end.

Definition res (A : Type) : Type := exn + A.

Definition rbind {A B : Type} (m : res A) (k : A -> res B) : res B :=
  match m with
  | inl e => inl e
  | inr a => k a
  end.

Notation "'do' x <~ m ; k" := (rbind m (fun x => k))
  (at level 10, x name, m at level 100, k at level 200).

(** ** Byte arrays *)

Abbreviation Uint8Array := (list Z) (only parsing).

Definition is_byte (b : Z) : Prop := 0 <= b < 256.

Definition byteLength (a : Uint8Array) : Z := Z.of_nat (length a).

(** [new Uint8Array(n)]: zero filled; a negative length is a [RangeError]. *)
Definition Uint8Array_new (n : Z) : res Uint8Array :=
  if n <? 0 then inl RangeError else inr (replicate (Z.to_nat n) 0).

(** [target.set(src, offset)]: raises when [src] does not fit. *)
Definition Uint8Array_set (target src : Uint8Array) (offset : nat)
  : res Uint8Array :=
  if (offset + length src <=? length target)%nat
  then inr (take offset target ++ src ++ drop (offset + length src) target)
  else inl RangeError.

(** [a.slice(from)] and [a.slice(0, to)] for non-negative bounds. *)
Definition slice_to (a : Uint8Array) (to : Z) : Uint8Array :=
  take (Z.to_nat to) a.
Definition slice_from (a : Uint8Array) (from : Z) : Uint8Array :=
  drop (Z.to_nat from) a.

(** Number of bytes buffered in a chunk queue. *)
Definition total (chunks : list Uint8Array) : Z :=
  Z.of_nat (length (concat chunks)).

(** ** [splitChunks]: take [len] bytes from the front of the queue *)

(** The variables of the first loop, with the (possibly mutated) queue. *)
Record split_vars : Type := SplitVars {
  poppedChunks : list Uint8Array;
  accumelatedLength : Z;
  splitChunksAt : nat;
  chunks_now : list Uint8Array
}.

(** [for (let i = 0; i < chunksSize; ++i)]: [todo] is [chunks[i..]]. *)
Fixpoint splitChunks_for (todo : list Uint8Array) (i : nat) (len : Z)
    (st : split_vars) : split_vars :=
  match todo with
  | [] => st
  | chunk :: todo' =>
      let chunkLength := byteLength chunk in
      if accumelatedLength st + chunkLength <=? len then
        splitChunks_for todo' (S i) len
          {| poppedChunks := poppedChunks st ++ [chunk];
             accumelatedLength := accumelatedLength st + chunkLength;
             splitChunksAt := S i;
             chunks_now := chunks_now st |}
      else
        let splitChunkAt := len - accumelatedLength st in
        if 0 <? splitChunkAt then
          {| poppedChunks := poppedChunks st ++ [slice_to chunk splitChunkAt];
             accumelatedLength := len;
             splitChunksAt := splitChunksAt st;
             chunks_now := <[i := slice_from chunk splitChunkAt]> (chunks_now st) |}
        else st
  end.

(** The second loop: copy the popped chunks into [result]. *)
Fixpoint splitChunks_copy (popped : list Uint8Array) (offset : nat)
    (result : Uint8Array) : res Uint8Array :=
  match popped with
  | [] => inr result
  | chunk :: rest =>
      do r <~ Uint8Array_set result chunk offset;
      splitChunks_copy rest (offset + length chunk)%nat r
  end.

(** The queue is modified in place: the second component is the queue as the
    call leaves it, whether it returns or throws. *)
Definition splitChunks (chunks : list Uint8Array) (len : Z)
  : res Uint8Array * list Uint8Array :=
  let st := splitChunks_for chunks 0 len
              {| poppedChunks := []; accumelatedLength := 0;
                 splitChunksAt := 0; chunks_now := chunks |} in
  if accumelatedLength st <? len then
    (inl IncompleteChunksError, chunks_now st)
  else
    let spliced :=
      if (0 <? splitChunksAt st)%nat
      then drop (splitChunksAt st) (chunks_now st)
      else chunks_now st in
    (do result <~ Uint8Array_new len;
     splitChunks_copy (poppedChunks st) 0 result,
     spliced).

(** [n] successive attempts on the same queue object: the outcomes, and the
    queue after the last one. *)
Fixpoint splitChunks_retry (n : nat) (chunks : list Uint8Array) (L : Z)
  : list (res Uint8Array) * list Uint8Array :=
  match n with
  | O => ([], chunks)
  | S n' =>
      let '(r, chunks') := splitChunks chunks L in
      let '(rs, final) := splitChunks_retry n' chunks' L in
      (r :: rs, final)
  end.

(** ** Numbers in memory *)

(** The two byte orders, written ["<"] and [">"] in the source. *)
Inductive endianness : Set :=
| LittleEndian
| BigEndian.

Definition endianness_eqb (a b : endianness) : bool :=
  match a, b with
  | LittleEndian, LittleEndian | BigEndian, BigEndian => true
  | _, _ => false
  end.

(** The [width] low bytes of [v], least significant first; this is also the
    wrap-around of a store of [v] into an unsigned element of that width. *)
Fixpoint le_bytes (width : nat) (v : Z) : list Z :=
  match width with
  | O => []
  | S w => v mod 256 :: le_bytes w (v / 256)
  end.

Fixpoint le_value (bs : list Z) : Z :=
  match bs with
  | [] => 0
  | b :: bs' => b + 256 * le_value bs'
  end.

Definition uint_bytes (e : endianness) (width : nat) (v : Z) : list Z :=
  match e with
  | LittleEndian => le_bytes width v
  | BigEndian => rev (le_bytes width v)
  end.

Definition uint_value (e : endianness) (bs : list Z) : Z :=
  match e with
  | LittleEndian => le_value bs
  | BigEndian => le_value (rev bs)
  end.

(** The first [n] groups of [w] bytes of a buffer. *)
Fixpoint groups (n w : nat) (bs : list Z) : list (list Z) :=
  match n with
  | O => []
  | S n' => take w bs :: groups n' w (drop w bs)
  end.

(** ** Typed arrays *)

Inductive ArrayKind : Set :=
| Uint8 | Uint16 | Uint32
| Int8 | Int16 | Int32
| Float32 | Float64.

Definition BYTES_PER_ELEMENT (k : ArrayKind) : Z :=
  match k with
  | Uint8 | Int8 => 1
  | Uint16 | Int16 => 2
  | Uint32 | Int32 | Float32 => 4
  | Float64 => 8
  end.

(** A typed array is a view of a given kind over its whole buffer: every
    typed array the codec makes, and every one the tests give it, is of that
    form. The buffer holds the elements in the byte order of the platform. *)
Record TypedArray : Type := {
  kind : ArrayKind;
  buffer : Uint8Array
}.

Definition data_byteLength (a : TypedArray) : Z := byteLength (buffer a).

Definition data_length (a : TypedArray) : Z :=
  byteLength (buffer a) / BYTES_PER_ELEMENT (kind a).

(** [new K(buffer)]: the length of the buffer must be a multiple of the
    element size. *)
Definition TypedArray_over (k : ArrayKind) (buf : Uint8Array) : res TypedArray :=
  if byteLength buf mod BYTES_PER_ELEMENT k =? 0
  then inr {| kind := k; buffer := buf |}
  else inl RangeError.

(** [Math.max(...xs)]; [None] is [-Infinity], its value on no argument. *)
Definition Math_max (xs : list Z) : option Z :=
  match xs with
  | [] => None
  | x :: xs' => Some (fold_left Z.max xs' x)
  end.

(** [m < bound] for such a maximum. *)
Definition max_lt (m : option Z) (bound : Z) : bool :=
  match m with
  | None => true
  | Some x => x <? bound
  end.

(** ** Half precision *)

(** The four shapes of the value [castFloat16] computes, one for each branch
    of its conditional expression, with the sign it multiplies in. *)
Inductive half_value : Set :=
| HalfNaN
| HalfInfinity (negative : bool)
| HalfNormal (negative : bool) (exponent fraction : Z)
    (* 2^(exponent - 15) * (1 + fraction / 0x400) *)
| HalfSubnormal (negative : bool) (fraction : Z).
    (* 6.103515625e-5 * (fraction / 0x400) *)

Definition castFloat16 (int16 : Z) : half_value :=
  let exponent := Z.shiftr (Z.land int16 0x7c00) 10 in
  let fraction := Z.land int16 0x03ff in
  let negative := negb (Z.shiftr int16 15 =? 0) in
  if negb (exponent =? 0) then
    if exponent =? 0x1f then
      if negb (fraction =? 0) then HalfNaN else HalfInfinity negative
    else HalfNormal negative exponent fraction
  else HalfSubnormal negative fraction.

(** The binary32 bit pattern a [Float32Array] holds after such a value is
    stored into it: every one of them is a binary32 number, so the store does
    not round. The [NaN] is the quiet one of JavaScript. *)
Definition float32_bits (v : half_value) : Z :=
  let sign (negative : bool) := if negative then Z.shiftl 1 31 else 0 in
  match v with
  | HalfNaN => 0x7fc00000
  | HalfInfinity n => Z.lor (sign n) 0x7f800000
  | HalfNormal n e f =>
      Z.lor (sign n) (Z.lor (Z.shiftl (e - 15 + 127) 23) (Z.shiftl f 13))
  | HalfSubnormal n f =>
      if f =? 0 then sign n
      else
        let k := Z.log2 f in
        Z.lor (sign n)
          (Z.lor (Z.shiftl (k - 24 + 127) 23) (Z.shiftl (f - 2 ^ k) (23 - k)))
  end.

(** ** Records *)

(** The type [DType] of the source: the keys of [DTypeMap]. *)
Inductive DType : Set :=
| uint8 | uint16 | uint32
| int8 | int16 | int32
| float16 | float32 | float64.

Definition DType_eqb (a b : DType) : bool :=
  match a, b with
  | uint8, uint8 | uint16, uint16 | uint32, uint32
  | int8, int8 | int16, int16 | int32, int32
  | float16, float16 | float32, float32 | float64, float64 => true
  | _, _ => false
  end.

Record NDArray : Type := {
  shape : list Z;
  dType : DType;
  data : TypedArray
}.

(** What the decoding table holds in its first column: a typed array
    constructor, or the function [parseFloat16ArrayBuffer]. *)
Inductive ArrayType : Set :=
| Constructor (k : ArrayKind)
| ParseFloat16.

Definition __DTYPE_FLAGS_DECODING (code : Z) : option (ArrayType * Z * DType) :=
  match code with
  | 1 => Some (Constructor Uint8, 1, uint8)
  | 2 => Some (Constructor Uint16, 2, uint16)
  | 3 => Some (Constructor Uint32, 4, uint32)
  | 5 => Some (Constructor Int8, 1, int8)
  | 6 => Some (Constructor Int16, 2, int16)
  | 7 => Some (Constructor Int32, 4, int32)
  | 9 => Some (ParseFloat16, 2, float32)
  | 10 => Some (Constructor Float32, 4, float32)
  | 11 => Some (Constructor Float64, 8, float64)
  | _ => None
  end.

Definition __DTYPE_FLAGS_ENCODING (t : DType) : option Z :=
  match t with
  | uint8 => Some 1
  | uint16 => Some 2
  | uint32 => Some 3
  | int8 => Some 5
  | int16 => Some 6
  | int32 => Some 7
  | float16 => Some 9
  | float32 => Some 10
  | float64 => Some 11
  end.

(** The typed array [DTypeMap] gives to a tag. *)
Definition DTypeMap (t : DType) : ArrayKind :=
  match t with
  | uint8 => Uint8
  | uint16 => Uint16
  | uint32 => Uint32
  | int8 => Int8
  | int16 => Int16
  | int32 => Int32
  | float16 | float32 => Float32
  | float64 => Float64
  end.

(** A method taken off its object ([const getUint16 = view.getUint16]) and
    then called has no receiver: the call raises a [TypeError]. *)
Definition detached_call (offset : Z) (littleEndian : option bool) : res Z :=
  inl TypeError.

(** [for (let i = 0; i < n; ++i) arr[i] = f(getUint(i * width, littleEndian))]
    with such a detached method. *)
Fixpoint detached_loop {A : Type} (f : Z -> A) (n : nat) (i : nat) (width : Z)
    (littleEndian : option bool) (arr : list A) : res (list A) :=
  match n with
  | O => inr arr
  | S n' =>
      do v <~ detached_call (Z.of_nat i * width) littleEndian;
      detached_loop f n' (S i) width littleEndian (<[i := f v]> arr)
  end.

(** The flow of control at the end of one turn of a [while] loop. *)
Inductive flow : Set :=
| Continue
| Break.

(** The state of a readable stream, as its consumer sees it. *)
Inductive stream_state : Set :=
| Readable
| Closed
| Errored (e : exn).

(** ** Values for the examples *)

(** A platform for the examples: an object stands for its compact JSON text,
    so that [JSON.stringify] gives the text and [JSON.parse] gives it back. *)
Definition text_parse (bytes : Uint8Array) : option (list Z) := Some bytes.
Definition text_stringify (value : list Z) : Uint8Array := value.

(** [new Uint8Array([7])] under the shape [[1]]. *)
Definition one_byte : NDArray :=
  {| shape := [1]; dType := uint8;
     data := {| kind := Uint8; buffer := [7] |} |}.

(** The half-precision number 1.0, as its two bytes on a little-endian
    platform, under the shape [[1]] and the tag [float16]. *)
Definition one_half : NDArray :=
  {| shape := [1]; dType := float16;
     data := {| kind := Uint16; buffer := [0x00; 0x3c] |} |}.

(** The array of the test-suite: [[1.1, 2.2, 3.3], [4.4, 5.5, 6.6]] as a
    [Float32Array] on a little-endian platform. *)
Definition mat_data : Uint8Array :=
  [0xcd; 0xcc; 0x8c; 0x3f; 0xcd; 0xcc; 0x0c; 0x40; 0x33; 0x33; 0x53; 0x40;
   0xcd; 0xcc; 0x8c; 0x40; 0x00; 0x00; 0xb0; 0x40; 0x33; 0x33; 0xd3; 0x40].

Definition mat : NDArray :=
  {| shape := [2; 3]; dType := float32;
     data := {| kind := Float32; buffer := mat_data |} |}.

(** The UTF-8 text [{"min":1.1,"max":6.6}]: 21 bytes. *)
Definition min_max_text : Uint8Array :=
  [123; 34; 109; 105; 110; 34; 58; 49; 46; 49; 44;
   34; 109; 97; 120; 34; 58; 54; 46; 54; 125].


(** An array of [n] dimensions of size 1, with its single byte. *)
Definition deep (n : nat) : NDArray :=
  {| shape := replicate n 1; dType := uint8;
     data := {| kind := Uint8; buffer := [7] |} |}.

Section Codec.

(** The byte order in which the platform lays out typed arrays. *)
Variable host : endianness.

(** The objects that [JSON.parse] returns and [JSON.stringify] accepts, with
    the two functions composed with the UTF-8 codec as the source uses them:
    [JSON.parse(new TextDecoder().decode(bytes))], [None] for its
    [SyntaxError], and [textEncoder.encode(JSON.stringify(value))]. *)
Variable Json : Type.
Variable JSON_parse : Uint8Array -> option Json.
Variable JSON_stringify : Json -> Uint8Array.

Definition getSystemEndianness : endianness :=
  let arr0 := uint_bytes host 2 0xff00 in  (* new Uint16Array([0xff00]) *)
  let arr1 := arr0 in                       (* new Uint8Array(arr0.buffer) *)
  if nth 0 arr1 0 =? 0x00 then LittleEndian else BigEndian.

Definition __SYS_ENDIAN : endianness := getSystemEndianness.

(** The elements of a [Uint16Array] or [Uint32Array]. *)
Definition uint_elements (a : TypedArray) : list Z :=
  let w := Z.to_nat (BYTES_PER_ELEMENT (kind a)) in
  map (uint_value host) (groups (length (buffer a) / w) w (buffer a)).

(** [new Uint16Array(values)] and [new Uint32Array(values)]. *)
Definition TypedArray_from (k : ArrayKind) (values : list Z) : TypedArray :=
  let w := Z.to_nat (BYTES_PER_ELEMENT k) in
  {| kind := k; buffer := concat (map (uint_bytes host w) values) |}.

Definition parseFloat16ArrayBuffer (buf : Uint8Array)
    (littleEndian : option bool) : res TypedArray :=
  if negb (byteLength buf mod 2 =? 0) then inl Error
  else
    let raw := {| kind := Uint16; buffer := buf |} in
    let store (v : half_value) := uint_bytes host 4 (float32_bits v) in
    let arr := replicate (Z.to_nat (data_length raw)) (uint_bytes host 4 0) in
    if match littleEndian with
       | None => true
       | Some le => le && endianness_eqb __SYS_ENDIAN LittleEndian
       end
    then
      inr {| kind := Float32;
             buffer := concat (map (fun r => store (castFloat16 r))
                                   (uint_elements raw)) |}
    else
      do arr' <~ detached_loop (fun r => store (castFloat16 r))
                   (Z.to_nat (data_length raw)) 0 2 littleEndian arr;
      inr {| kind := Float32; buffer := concat arr' |}.

(** The second component of a record: [null], an [ArrayBuffer], a
    [Uint8Array] or another object. *)
Inductive Extra : Type :=
| Null
| ArrayBuffer (bytes : Uint8Array)
| Uint8ArrayObject (bytes : Uint8Array)
| Object (value : Json).

Definition NDArrayAndExtra : Type := NDArray * Extra.

(** ** [parseFromUint8ArrayChunks] *)

(** The objects the parser mutates: the queue it was given, and its locals
    [tempChunks] and [result]. *)
Record parser : Type := Parser {
  chunks : list Uint8Array;
  tempChunks : list Uint8Array;
  result : list NDArrayAndExtra
}.

(** A statement of the parser: it returns or throws, and leaves a state either
    way. *)
Definition P (A : Type) : Type := parser -> res A * parser.

Definition ret {A : Type} (a : A) : P A := fun s => (inr a, s).

Definition throw {A : Type} (e : exn) : P A := fun s => (inl e, s).

Definition bind {A B : Type} (m : P A) (k : A -> P B) : P B :=
  fun s =>
    match m s with
    | (inl e, s') => (inl e, s')
    | (inr a, s') => k a s'
    end.

Notation "'let*' x := m 'in' k" := (bind m (fun x => k))
  (at level 10, x name, m at level 100, k at level 200, only parsing).
Notation "m >> k" := (bind m (fun _ => k))
  (at level 100, k at level 200, only parsing, right associativity).

Definition lift {A : Type} (r : res A) : P A := fun s => (r, s).

(** [splitChunks(chunks, len)] *)
Definition splitChunks_call (len : Z) : P Uint8Array :=
  fun s =>
    let '(r, q) := splitChunks (chunks s) len in
    (r, {| chunks := q; tempChunks := tempChunks s; result := result s |}).

(** [tempChunks.push(chunk)] *)
Definition tempChunks_push (chunk : Uint8Array) : P unit :=
  fun s =>
    (inr tt, {| chunks := chunks s; tempChunks := tempChunks s ++ [chunk];
                result := result s |}).

(** [tempChunks.length = 0] *)
Definition tempChunks_clear : P unit :=
  fun s =>
    (inr tt, {| chunks := chunks s; tempChunks := []; result := result s |}).

(** [result.push(ne)] *)
Definition result_push (ne : NDArrayAndExtra) : P unit :=
  fun s =>
    (inr tt, {| chunks := chunks s; tempChunks := tempChunks s;
                result := result s ++ [ne] |}).

Definition get_chunks : P (list Uint8Array) := fun s => (inr (chunks s), s).

(** [chunks[0][0] === 0] *)
Definition front_is_zero (q : list Uint8Array) : bool :=
  match q with
  | (b :: _) :: _ => b =? 0
  | _ => false
  end.

Definition endianness_of (littleEndian : bool) : endianness :=
  if littleEndian then LittleEndian else BigEndian.

(** One turn of [while (chunks.length > 0)], first half: the header, the
    shape and the data of a record. It yields the array, and the
    [littleEndian] of the header for the second half. *)
Definition read_array : P (NDArray * bool) :=
  let* chunk := splitChunks_call 2 in
  tempChunks_push chunk >>
  let i0 := nth 0 chunk 0 in
  let i1 := nth 1 chunk 0 in
  let* header := (if 0 <? i0 then ret (LittleEndian, true, i0)
                  else if i0 <? 0 then ret (BigEndian, false, - i0)
                  else throw Error) in
  let '(endian, littleEndian, dType) := header in
  if (dType =? 0) || (12 <=? dType) then throw Error else
  let* entry := lift (match __DTYPE_FLAGS_DECODING dType with
                      | Some e => inr e
                      | None => inl TypeError
                      end) in
  let '(ArrayType, dSize, typ) := entry in
  let sameEndian := endianness_eqb endian __SYS_ENDIAN in
  let* shape := (if 0 <? i1 then
                   let d0 := i1 * 2 in
                   let* chunk := splitChunks_call d0 in
                   tempChunks_push chunk >>
                   if sameEndian then
                     let* view := lift (TypedArray_over Uint16 chunk) in
                     ret (uint_elements view)
                   else
                     lift (detached_loop id (Z.to_nat i1) 0 2
                             (Some littleEndian) (replicate (Z.to_nat i1) 0))
                 else
                   let s := - i1 in
                   let d0 := s * 4 in
                   let* chunk := splitChunks_call d0 in
                   tempChunks_push chunk >>
                   if sameEndian then
                     let* view := lift (TypedArray_over Uint32 chunk) in
                     ret (uint_elements view)
                   else
                     lift (detached_loop id (Z.to_nat s) 0 4
                             (Some littleEndian) (replicate (Z.to_nat s) 0))) in
  let e0 := fold_left Z.mul shape 1 * dSize in
  let* chunk := splitChunks_call e0 in
  tempChunks_push chunk >>
  let* arr := lift (match ArrayType with
                    | Constructor k => TypedArray_over k chunk
                    | ParseFloat16 => parseFloat16ArrayBuffer chunk None
                    end) in
  ret ({| shape := shape; dType := typ; data := arr |}, littleEndian).

(** Second half: the end of the buffer, or the flag and the extra payload,
    and the separator. *)
Definition read_extra (ndarray : NDArray) (littleEndian : bool) : P flow :=
  let* q := get_chunks in
  if (length q =? 0)%nat then
    result_push (ndarray, Null) >>
    ret Break
  else
  let* chunk := splitChunks_call 1 in
  tempChunks_push chunk >>
  let eFlag := nth 0 chunk 0 in
  if eFlag =? 0 then
    result_push (ndarray, Null) >>
    ret Continue
  else
  let* chunk := splitChunks_call 4 in
  tempChunks_push chunk >>
  let eLen := uint_value (endianness_of littleEndian) chunk in
  let* chunk := splitChunks_call eLen in
  tempChunks_push chunk >>
  let* extra := (match eFlag with
                 | 1 => ret (ArrayBuffer chunk)
                 | 2 => match JSON_parse chunk with
                        | Some value => ret (Object value)
                        | None => throw SyntaxError
                        end
                 | _ => throw Error
                 end) in
  result_push (ndarray, extra) >>
  tempChunks_clear >>
  let* q := get_chunks in
  if (0 <? length q)%nat && front_is_zero q then
    splitChunks_call 1 >>
    ret Continue
  else ret Break.

Definition loop_body : P flow :=
  let* array := read_array in
  read_extra (fst array) (snd array).

(** The [while] loop, for at most [fuel] turns: [None] when they do not
    suffice. *)
Fixpoint while_loop (fuel : nat) (s : parser) : option (res unit * parser) :=
  if (0 <? length (chunks s))%nat then
    match fuel with
    | O => None
    | S fuel' =>
        match loop_body s with
        | (inl e, s') => Some (inl e, s')
        | (inr Break, s') => Some (inr tt, s')
        | (inr Continue, s') => while_loop fuel' s'
        end
    end
  else Some (inr tt, s).

(** The parser, with the queue as it leaves it. A turn of the loop that goes
    on to the next has taken two bytes at least, so one turn for each byte of
    the queue is enough (lemma [parse_returns]). *)
Definition parseFromUint8ArrayChunks (queue : list Uint8Array)
  : option (res (list NDArrayAndExtra) * list Uint8Array) :=
  if (length queue =? 0)%nat then Some (inr [], queue)
  else
    match while_loop (S (Z.to_nat (total queue)))
            {| chunks := queue; tempChunks := []; result := [] |} with
    | None => None
    | Some (inr _, s) => Some (inr (result s), chunks s)
    | Some (inl IncompleteChunksError, s) =>
        (* chunks.unshift(...tempChunks) *)
        Some (inr (result s), tempChunks s ++ chunks s)
    | Some (inl e, s) => Some (inl e, chunks s)
    end.

(** ** [decode] *)

Definition decode (buffer : Uint8Array) : option (res (list NDArrayAndExtra)) :=
  fst <$> parseFromUint8ArrayChunks [buffer].

(** ** [encode] *)

(** An entry of [blobComponents]. *)
Record component : Type := {
  c_i0 : Z;
  c_i1 : Z;
  c_shapeArray : TypedArray;
  c_data : TypedArray;
  c_extraEncoding : Z;
  c_extraLength : Z;
  c_extraArray : option Uint8Array
}.

(** The body of [for (const [arr, extra] of items)]: it adds to [blobLength]
    and pushes onto [blobComponents]. *)
Definition encode_item (littleEndian : bool) (item : NDArrayAndExtra)
    (blobLength : Z) (blobComponents : list component)
  : res (Z * list component) :=
  let '(arr, extra) := item in
  do dType <~ match __DTYPE_FLAGS_ENCODING (dType arr) with
              | Some code => if code =? 0 then inl Error else inr code
              | None => inl Error
              end;
  let i0 := if littleEndian then dType else - dType in
  let i1 := Z.of_nat (length (shape arr)) in
  if 128 <? i1 then inl Error else
  let blobLength := blobLength + 2 in
  let maxDim := Math_max (shape arr) in
  do shaped <~ (if max_lt maxDim 65536
                then inr (TypedArray_from Uint16 (shape arr), false)
                else if max_lt maxDim 4294967296
                then inr (TypedArray_from Uint32 (shape arr), true)
                else inl Error);
  let '(shapeArray, bigShape) := shaped in
  let blobLength := blobLength + data_byteLength shapeArray in
  let blobLength := blobLength + data_byteLength (data arr) in
  let with_extra (extraArray : Uint8Array) (extraEncoding : Z) :=
    inr (blobLength + (5 + byteLength extraArray),
         blobComponents ++
           [{| c_i0 := i0; c_i1 := if bigShape then - i1 else i1;
               c_shapeArray := shapeArray; c_data := data arr;
               c_extraEncoding := extraEncoding;
               c_extraLength := byteLength extraArray;
               c_extraArray := Some extraArray |}]) in
  match extra with
  | ArrayBuffer bytes => with_extra bytes 1
  | Uint8ArrayObject bytes => with_extra bytes 1
  | Object value => with_extra (JSON_stringify value) 2
  | Null =>
      inr (blobLength,
           blobComponents ++
             [{| c_i0 := i0; c_i1 := if bigShape then - i1 else i1;
                 c_shapeArray := shapeArray; c_data := data arr;
                 c_extraEncoding := 0; c_extraLength := 0;
                 c_extraArray := None |}])
  end.

Fixpoint encode_items (littleEndian : bool) (items : list NDArrayAndExtra)
    (blobLength : Z) (blobComponents : list component)
  : res (Z * list component) :=
  match items with
  | [] => inr (blobLength, blobComponents)
  | item :: items' =>
      do st <~ encode_item littleEndian item blobLength blobComponents;
      encode_items littleEndian items' (fst st) (snd st)
  end.

(** [blob[index] = value]: the store wraps, and is dropped out of range. *)
Definition blob_store (blob : Uint8Array) (index value : Z) : Uint8Array :=
  if index <? 0 then blob else <[Z.to_nat index := value mod 256]> blob.

(** [source[index]], stored into a byte array afterwards: [undefined], read
    out of range, is stored as 0. *)
Definition byte_at (source : Uint8Array) (index : Z) : Z :=
  if index <? 0 then 0 else nth (Z.to_nat index) source 0.

(** [for (let j = 0; j < step; ++j)
       blob[offset + j] = source[offset + step - j - 1]],
    from [j] on, for [n] turns. *)
Fixpoint swap_element (n : nat) (j : Z) (step offset : Z)
    (source blob : Uint8Array) : Uint8Array :=
  match n with
  | O => blob
  | S n' =>
      swap_element n' (j + 1) step offset source
        (blob_store blob (offset + j) (byte_at source (offset + step - j - 1)))
  end.

(** [for (let i = 0; i < count; ++i) { ...; offset += step }] around it. *)
Fixpoint swap_elements (count : nat) (step : Z) (source : Uint8Array)
    (blob : Uint8Array) (offset : Z) : Uint8Array * Z :=
  match count with
  | O => (blob, offset)
  | S count' =>
      swap_elements count' step source
        (swap_element (Z.to_nat step) 0 step offset source blob)
        (offset + step)
  end.

(** [new DataView(blob.buffer, blob.byteOffset + offset, 4)
       .setUint32(0, value, littleEndian)] *)
Definition setUint32_at (blob : Uint8Array) (offset value : Z)
    (littleEndian : bool) : res Uint8Array :=
  if (offset <? 0) || (byteLength blob <? offset + 4) then inl RangeError
  else Uint8Array_set blob (uint_bytes (endianness_of littleEndian) 4 value)
         (Z.to_nat offset).

(** The body of [for (let i = 0; i < numBlobComponents; ++i)]. *)
Definition encode_component (sameEndian littleEndian : bool) (i : nat)
    (c : component) (blob : Uint8Array) (offset : Z) : res (Uint8Array * Z) :=
  let '(blob, offset) :=
    if (0 <? i)%nat then (blob_store blob offset 0, offset + 1)
    else (blob, offset) in
  let blob := blob_store blob offset (c_i0 c) in
  let blob := blob_store blob (offset + 1) (c_i1 c) in
  let offset := offset + 2 in
  do written <~
    (if sameEndian then
       do blob <~ Uint8Array_set blob (buffer (c_shapeArray c))
                    (Z.to_nat offset);
       let offset := offset + data_byteLength (c_shapeArray c) in
       do blob <~ Uint8Array_set blob (buffer (c_data c)) (Z.to_nat offset);
       inr (blob, offset + data_byteLength (c_data c))
     else
       let '(blob, offset) :=
         swap_elements (Z.to_nat (data_length (c_shapeArray c)))
           (BYTES_PER_ELEMENT (kind (c_shapeArray c)))
           (buffer (c_shapeArray c)) blob offset in
       inr (swap_elements (Z.to_nat (data_length (c_data c)))
              (BYTES_PER_ELEMENT (kind (c_data c)))
              (buffer (c_data c)) blob offset));
  let '(blob, offset) := written in
  if 0 <? c_extraEncoding c then
    match c_extraArray c with
    | None => inl Error
    | Some extraArray =>
        let blob := blob_store blob offset (c_extraEncoding c) in
        let offset := offset + 1 in
        do blob <~ setUint32_at blob offset (c_extraLength c) littleEndian;
        let offset := offset + 4 in
        do blob <~ Uint8Array_set blob extraArray (Z.to_nat offset);
        inr (blob, offset + byteLength extraArray)
    end
  else inr (blob, offset).

Fixpoint encode_components (sameEndian littleEndian : bool) (i : nat)
    (cs : list component) (blob : Uint8Array) (offset : Z)
  : res (Uint8Array * Z) :=
  match cs with
  | [] => inr (blob, offset)
  | c :: cs' =>
      do st <~ encode_component sameEndian littleEndian i c blob offset;
      encode_components sameEndian littleEndian (S i) cs' (fst st) (snd st)
  end.

Definition encode (items : list NDArrayAndExtra) (littleEndian : option bool)
  : res Uint8Array :=
  let '(sameEndian, littleEndian) :=
    match littleEndian with
    | None => (true, endianness_eqb __SYS_ENDIAN LittleEndian)
    | Some le =>
        (eqb le (endianness_eqb __SYS_ENDIAN LittleEndian), le)
    end in
  do st <~ encode_items littleEndian items 0 [];
  let '(blobLength, blobComponents) := st in
  let numBlobComponents := Z.of_nat (length blobComponents) in
  do blob <~ Uint8Array_new (blobLength + numBlobComponents - 1);
  do st <~ encode_components sameEndian littleEndian 0 blobComponents blob 0;
  inr (fst st).

(** ** [streamFromReadableStream] *)

(** The variables the [pull] callback closes over, the underlying source, and
    what the consumer of the returned stream has observed. The source is the
    list of the chunks it has yet to deliver; [read] takes the first, and
    reports [done] on the empty list. [delivered] lists the records enqueued
    so far: with the default queuing strategy [pull] runs only when the
    consumer has taken them all. *)
Record stream : Type := Stream {
  queue : list Uint8Array;       (* chunks *)
  nes : list NDArrayAndExtra;
  streamDone : bool;
  source : list Uint8Array;
  delivered : list NDArrayAndExtra;
  state : stream_state
}.

(** [while (nes.length > 0) controller.enqueue(nes.shift()!)] *)
Definition enqueue_all (s : stream) : stream :=
  {| queue := queue s; nes := []; streamDone := streamDone s;
     source := source s; delivered := delivered s ++ nes s;
     state := state s |}.

(** [controller.close()] *)
Definition controller_close (s : stream) : stream :=
  {| queue := queue s; nes := nes s; streamDone := streamDone s;
     source := source s; delivered := delivered s;
     state := match state s with Readable => Closed | st => st end |}.

(** The promise [pull] returned rejects with [e]: the stream becomes errored
    unless it is closed already. *)
Definition controller_error (e : exn) (s : stream) : stream :=
  {| queue := queue s; nes := nes s; streamDone := streamDone s;
     source := source s; delivered := delivered s;
     state := match state s with Readable => Errored e | st => st end |}.

(** [for (const ne of parseFromUint8ArrayChunks(chunks)) nes.push(ne)] *)
Definition parse_into_nes (s : stream) : option (res unit * stream) :=
  match parseFromUint8ArrayChunks (queue s) with
  | None => None
  | Some (inl e, q) =>
      Some (inl e, {| queue := q; nes := nes s; streamDone := streamDone s;
                      source := source s; delivered := delivered s;
                      state := state s |})
  | Some (inr parsed, q) =>
      Some (inr tt, {| queue := q; nes := nes s ++ parsed;
                       streamDone := streamDone s; source := source s;
                       delivered := delivered s; state := state s |})
  end.

(** [while (nes.length === 0) { const part = await streamReader.read(); ... }]
    on a source that has [src] left. *)
Fixpoint read_loop (src : list Uint8Array) (s : stream)
  : option (res unit * stream) :=
  if (length (nes s) =? 0)%nat then
    match src with
    | [] =>
        (* part.done *)
        Some (inr tt, {| queue := queue s; nes := nes s; streamDone := true;
                         source := []; delivered := delivered s;
                         state := state s |})
    | chunk :: src' =>
        match parse_into_nes
                {| queue := queue s ++ [chunk]; nes := nes s;
                   streamDone := streamDone s; source := src';
                   delivered := delivered s; state := state s |} with
        | None => None
        | Some (inl e, s') => Some (inl e, s')
        | Some (inr _, s') => read_loop src' s'
        end
    end
  else
    Some (inr tt, {| queue := queue s; nes := nes s;
                     streamDone := streamDone s; source := src;
                     delivered := delivered s; state := state s |}).

Definition yieldArrays (s : stream) : option (res unit * stream) :=
  if streamDone s && (length (nes s) =? 0)%nat then
    Some (inr tt, controller_close s)
  else if (0 <? length (nes s))%nat then
    Some (inr tt, enqueue_all s)
  else
    match (if (0 <? length (queue s))%nat then parse_into_nes s
           else Some (inr tt, s)) with
    | None => None
    | Some (inl e, s1) => Some (inl e, s1)
    | Some (inr _, s1) =>
        if (0 <? length (queue s))%nat && (0 <? length (nes s1))%nat then
          Some (inr tt, enqueue_all s1)
        else if negb (streamDone s1) then
          match read_loop (source s1) s1 with
          | None => None
          | Some (inl e, s2) => Some (inl e, s2)
          | Some (inr _, s2) =>
              if (0 <? length (nes s2))%nat
              then Some (inr tt, enqueue_all s2)
              else Some (inr tt, s2)
          end
        else
          match parse_into_nes s1 with
          | None => None
          | Some (inl e, s2) => Some (inl e, s2)
          | Some (inr _, s2) =>
              if (0 <? length (nes s2))%nat then Some (inr tt, enqueue_all s2)
              else
                let s3 := if (length (nes s2) =? 0)%nat
                          then controller_close s2 else s2 in
                if (0 <? length (queue s3))%nat
                then Some (inl Error, s3)   (* "There are still chunks left" *)
                else Some (inr tt, s3)
          end
    end.

(** One call of [pull]. *)
Definition pull (s : stream) : option stream :=
  match yieldArrays s with
  | None => None
  | Some (inl e, s') => Some (controller_error e s')
  | Some (inr _, s') => Some s'
  end.

(** The stream as [streamFromReadableStream] returns it. *)
Definition streamFromReadableStream (src : list Uint8Array) : stream :=
  {| queue := []; nes := []; streamDone := false; source := src;
     delivered := []; state := Readable |}.

(** A consumer that reads on: [pull] is called again as long as the stream is
    readable, [n] times at most. *)
Fixpoint pulls (n : nat) (s : stream) : option stream :=
  match n with
  | O => Some s
  | S n' =>
      match state s with
      | Readable =>
          match pull s with
          | None => None
          | Some s' => pulls n' s'
          end
      | _ => Some s
      end
  end.

(** ** Vocabulary of the statements *)

(** The width of an element of each type in a blob (second column of the
    decoding table, through the encoding table). *)
Definition dSize (t : DType) : Z :=
  match t with
  | uint8 | int8 => 1
  | uint16 | int16 | float16 => 2
  | uint32 | int32 | float32 => 4
  | float64 => 8
  end.

(** A valid record: at most 128 dimensions, each a natural number below
    2^32, and as many bytes of data as the shape and the type require. *)
Definition valid_record (arr : NDArray) : Prop :=
  (length (shape arr) <= 128)%nat /\
  Forall (fun d => 0 <= d < 2 ^ 32) (shape arr) /\
  Forall is_byte (buffer (data arr)) /\
  data_byteLength (data arr) = fold_left Z.mul (shape arr) 1 * dSize (dType arr).

(** Its dimensions all fit 16 bits. *)
Definition small_shape (arr : NDArray) : Prop :=
  Forall (fun d => 0 <= d < 65536) (shape arr).

(** Its data is the typed array that [DTypeMap] gives to its tag, and the tag
    is not the mock [float16]. *)
Definition plain_data (arr : NDArray) : Prop :=
  dType arr <> float16 /\ kind (data arr) = DTypeMap (dType arr).

(** An extra payload that fits the 32-bit length field and, for an object,
    that [JSON.parse] reads back from its text. *)
Definition valid_extra (extra : Extra) : Prop :=
  match extra with
  | Null => True
  | ArrayBuffer bytes | Uint8ArrayObject bytes =>
      Forall is_byte bytes /\ byteLength bytes < 2 ^ 32
  | Object value =>
      byteLength (JSON_stringify value) < 2 ^ 32 /\
      JSON_parse (JSON_stringify value) = Some value
  end.

Definition valid_item (item : NDArrayAndExtra) : Prop :=
  valid_record (fst item) /\ small_shape (fst item) /\ valid_extra (snd item).

(** What the decoder makes of the data of a record of type [t]: the array its
    table builds over the bytes, with the tag of the table. *)
Definition decoded_array (arr : NDArray) : NDArray :=
  match dType arr with
  | float16 =>
      {| shape := shape arr; dType := float32;
         data := {| kind := Float32;
                    buffer := concat (map (fun r => uint_bytes host 4
                                             (float32_bits (castFloat16 r)))
                                (uint_elements {| kind := Uint16;
                                     buffer := buffer (data arr) |})) |} |}
  | t =>
      {| shape := shape arr; dType := t;
         data := {| kind := DTypeMap t; buffer := buffer (data arr) |} |}
  end.

(** What it makes of an extra payload: raw bytes come back in an
    [ArrayBuffer]. *)
Definition decoded_extra (extra : Extra) : Extra :=
  match extra with
  | Uint8ArrayObject bytes => ArrayBuffer bytes
  | e => e
  end.

Definition decoded (item : NDArrayAndExtra) : NDArrayAndExtra :=
  (decoded_array (fst item), decoded_extra (snd item)).

(** The bytes of one entry of [blobComponents] in the blob. *)
Definition extra_bytes (littleEndian : bool) (c : component) : Uint8Array :=
  if 0 <? c_extraEncoding c then
    [c_extraEncoding c mod 256]
      ++ uint_bytes (endianness_of littleEndian) 4 (c_extraLength c)
      ++ default [] (c_extraArray c)
  else [].

Definition component_bytes (littleEndian : bool) (c : component) : Uint8Array :=
  [c_i0 c mod 256; c_i1 c mod 256]
    ++ buffer (c_shapeArray c) ++ buffer (c_data c)
    ++ extra_bytes littleEndian c.

(** The entry [encode] makes for a record with a small shape. *)
Definition component_of (littleEndian : bool) (item : NDArrayAndExtra)
  : component :=
  let code := default 0 (__DTYPE_FLAGS_ENCODING (dType (fst item))) in
  let extraArray :=
    match snd item with
    | Null => None
    | ArrayBuffer bytes | Uint8ArrayObject bytes => Some bytes
    | Object value => Some (JSON_stringify value)
    end in
  {| c_i0 := if littleEndian then code else - code;
     c_i1 := Z.of_nat (length (shape (fst item)));
     c_shapeArray := TypedArray_from Uint16 (shape (fst item));
     c_data := data (fst item);
     c_extraEncoding := match snd item with
                        | Null => 0
                        | Object _ => 2
                        | _ => 1
                        end;
     c_extraLength := byteLength (default [] extraArray);
     c_extraArray := extraArray |}.

Definition record_bytes (item : NDArrayAndExtra) : Uint8Array :=
  component_bytes true (component_of true item).

(** Records one after the other, each followed by a separator. *)
Definition separated (littleEndian : bool) (cs : list component) : Uint8Array :=
  concat (map (fun c => component_bytes littleEndian c ++ [0]) cs).

(** Records with a separator before each but the first: the blob. *)
Definition joined (littleEndian : bool) (cs : list component) : Uint8Array :=
  match cs with
  | [] => []
  | c :: cs' =>
      component_bytes littleEndian c
        ++ concat (map (fun c => 0 :: component_bytes littleEndian c) cs')
  end.

(** A queue that holds the bytes [bs] in one chunk. *)
Definition queue_of (bs : Uint8Array) : list Uint8Array :=
  match bs with
  | [] => []
  | _ => [bs]
  end.

(** Where the parser stands behind the extra payload of a record, on the
    bytes [tail] that follow it: it takes a zero byte as the separator and
    goes on, and stops the loop on anything else. *)
Definition after_extra (tail : Uint8Array) : flow * list Uint8Array :=
  match tail with
  | [] => (Break, [])
  | x :: tail' =>
      if x =? 0 then (Continue, queue_of tail') else (Break, queue_of tail)
  end.

Definition has_extra (item : NDArrayAndExtra) : bool :=
  match snd item with
  | Null => false
  | _ => true
  end.

(** An entry of [blobComponents] that announces an extra payload has one. *)
Definition component_wf (c : component) : Prop :=
  0 < c_extraEncoding c -> is_Some (c_extraArray c).

(** The number of bytes the second loop of [encode] reserves for the entries
    [cs], the first of which has index [i]: a separator before each entry but
    the one of index 0. *)
Fixpoint reserved (i : nat) (cs : list component) : Z :=
  match cs with
  | [] => 0
  | c :: cs' =>
      (if (0 <? i)%nat then 1 else 0)
        + Z.of_nat (length (component_bytes true c))
        + reserved (S i) cs'
  end.


(** The stream when all was delivered and the source is exhausted. *)
Definition finished (records : list NDArrayAndExtra) : stream :=
  {| queue := []; nes := []; streamDone := true; source := [];
     delivered := records; state := Closed |}.

(** A statement of the parser that never adds bytes to the queue. *)
Definition nonincr {A : Type} (m : P A) : Prop :=
  forall s r s', m s = (r, s') -> total (chunks s') <= total (chunks s).

(** The queue a take of [L] bytes leaves when it succeeds: the chunks taken
    whole are gone, and the next one has lost the bytes taken from it. *)
Fixpoint rest_after (L : Z) (chunks : list Uint8Array) : list Uint8Array :=
  match chunks with
  | [] => []
  | c :: q =>
      if byteLength c <=? L then rest_after (L - byteLength c) q
      else drop (Z.to_nat L) c :: q
  end.

(** [bigShape] of [encode]: a dimension of the record does not fit 16 bits. *)
Definition bigShape (arr : NDArray) : bool :=
  negb (max_lt (Math_max (shape arr)) 65536).

(** The entry of [blobComponents] that [encode] makes for a record, whatever
    its shape. *)
Definition component_for (littleEndian : bool) (item : NDArrayAndExtra)
  : component :=
  let code := default 0 (__DTYPE_FLAGS_ENCODING (dType (fst item))) in
  let i1 := Z.of_nat (length (shape (fst item))) in
  let extraArray :=
    match snd item with
    | Null => None
    | ArrayBuffer bytes | Uint8ArrayObject bytes => Some bytes
    | Object value => Some (JSON_stringify value)
    end in
  {| c_i0 := if littleEndian then code else - code;
     c_i1 := if bigShape (fst item) then - i1 else i1;
     c_shapeArray := TypedArray_from
                       (if bigShape (fst item) then Uint32 else Uint16)
                       (shape (fst item));
     c_data := data (fst item);
     c_extraEncoding := match snd item with
                        | Null => 0
                        | Object _ => 2
                        | _ => 1
                        end;
     c_extraLength := byteLength (default [] extraArray);
     c_extraArray := extraArray |}.

(** A record that [encode] accepts: at most 128 dimensions, each a natural
    number below 2^32. *)
Definition within_limits (item : NDArrayAndExtra) : Prop :=
  (length (shape (fst item)) <= 128)%nat /\
  Forall (fun d => 0 <= d < 2 ^ 32) (shape (fst item)).

(** What the first loop of [encode] adds to [blobLength] for a record: the
    header, the shape, the data, and five bytes and the payload when there is
    an extra payload. *)
Definition encoded_size (item : NDArrayAndExtra) : Z :=
  2 + (if bigShape (fst item) then 4 else 2)
        * Z.of_nat (length (shape (fst item)))
    + data_byteLength (data (fst item))
    + match snd item with
      | Null => 0
      | ArrayBuffer bytes | Uint8ArrayObject bytes => 5 + byteLength bytes
      | Object value => 5 + byteLength (JSON_stringify value)
      end.

(** The length of the blob of several records: a separator between two. *)
Definition blob_size (items : list NDArrayAndExtra) : Z :=
  fold_right Z.add 0 (map encoded_size items) + Z.of_nat (length items) - 1.

(** An empty array of 65536 rows: a shape that needs 32-bit entries. *)
Definition wide : NDArray :=
  {| shape := [65536; 0]; dType := uint8;
     data := {| kind := Uint8; buffer := [] |} |}.

(** Whether the single-precision patterns stored for the [n] half-precision
    patterns from [r] on are each below the next. *)
Fixpoint increasing_from (n : nat) (r : Z) : bool :=
  match n with
  | O => true
  | S n' =>
      (float32_bits (castFloat16 r) <? float32_bits (castFloat16 (r + 1)))
      && increasing_from n' (r + 1)
  end.

(** Whether the patterns with the sign bit mirror the [n] patterns from [r]
    on. *)
Fixpoint mirrored_from (n : nat) (r : Z) : bool :=
  match n with
  | O => true
  | S n' =>
      (float32_bits (castFloat16 (r + 0x8000))
         =? float32_bits (castFloat16 r) + 2 ^ 31)
      && mirrored_from n' (r + 1)
  end.

(** ** [stream] *)

(** What [stream] may be given. A readable stream of byte arrays, and the
    body of a response, is the list of the chunks it delivers before it
    reports its end. *)
Inductive Raw : Type :=
| RawResponse (body : option (list Uint8Array))
| RawReadableStream (chunks : list Uint8Array)
| RawUint8Array (bytes : Uint8Array)
| RawArrayBuffer (bytes : Uint8Array)
| RawOther.

(** The function [stream] of the source (the name is the one of the record
    above here). For a byte array it makes a source whose [pull] enqueues the
    array and closes: a source of that one chunk. *)
Definition stream_of (raw : Raw) : res stream :=
  match raw with
  | RawResponse None => inl Error       (* "Response has no body" *)
  | RawResponse (Some body) => inr (streamFromReadableStream body)
  | RawReadableStream src => inr (streamFromReadableStream src)
  | RawUint8Array bytes => inr (streamFromReadableStream [bytes])
  | RawArrayBuffer bytes => inr (streamFromReadableStream [bytes])
  | RawOther => inl TypeError
  end.

(** What holds of the stream between two pulls, for a source that was to
    deliver [src]: no parsed record is held back, the source has delivered
    its first chunks in order, it is known to be exhausted only when it is,
    and the stream is closed only when the source is known to be
    exhausted. *)
Definition between_pulls (src : list Uint8Array) (s : stream) : Prop :=
  nes s = [] /\
  (exists k, source s = drop k src) /\
  (streamDone s = true -> source s = []) /\
  (state s = Closed -> streamDone s = true).

(** ** The parser and the cut of the bytes into chunks *)

(** A queue that does not start with an empty chunk. *)
Definition normal (q : list Uint8Array) : Prop :=
  match q with
  | [] => True
  | c :: _ => c <> []
  end.

(** Two states of the parser that hold the same bytes, cut in chunks in two
    ways, and the same records. *)
Definition same_bytes (s s' : parser) : Prop :=
  concat (chunks s) = concat (chunks s') /\
  concat (tempChunks s) = concat (tempChunks s') /\
  result s = result s'.

(** Two runs with the same outcome, which leave the same bytes. *)
Definition same_outcome {A : Type} (RA : A -> A -> Prop)
    (out out' : res A * parser) : Prop :=
  match out, out' with
  | (inr a, s1), (inr a', s1') =>
      RA a a' /\ same_bytes s1 s1' /\ normal (chunks s1) /\ normal (chunks s1')
  | (inl e, s1), (inl e', s1') => e = e' /\ same_bytes s1 s1'
  | _, _ => False
  end.

(** Two statements that cannot tell two normal queues of the same bytes
    apart. *)
Definition agree {A : Type} (RA : A -> A -> Prop) (m m' : P A) : Prop :=
  forall s s', same_bytes s s' -> normal (chunks s) -> normal (chunks s') ->
               same_outcome RA (m s) (m' s').

(** The same of two queues of the same bytes, normal or not. *)
Definition agree_always {A : Type} (RA : A -> A -> Prop) (m m' : P A) : Prop :=
  forall s s', same_bytes s s' -> same_outcome RA (m s) (m' s').

(** Two queues of the same bytes, as the parser looks at them. *)
Definition same_queue (q q' : list Uint8Array) : Prop :=
  concat q = concat q' /\ normal q /\ normal q'.

(** ** [decodeMatBlob] ([src/typescript/src/npBlob.ts]) *)

(** [a.slice(from, to)] for a non-negative [from]: the bounds are clamped to
    the array, and nothing is taken when [to] is not beyond [from]. *)
Definition slice (a : Uint8Array) (from to : Z) : Uint8Array :=
  take (Z.to_nat (to - from)) (drop (Z.to_nat from) a).

(** One turn of [while (buffer.length > 0)] in the older decoder, which
    walks one buffer with offsets; a [Mat] is an [NDArray] whose tag is
    called [type]. First half of the turn: the header, the shape and the
    data. It yields the array, the [littleEndian] of the header and the
    offset [e0] behind the data, [None] when that offset is [NaN]. *)
Definition decodeMatBlob_array (buffer : Uint8Array)
  : res (NDArray * bool * option Z) :=
  (* const [i0, i1] = buffer.slice(0, 2): [i1] is [undefined] when the
     buffer has one byte *)
  let i0 := nth 0 buffer 0 in
  let i1 := buffer !! 1%nat in
  do header <~ (if 0 <? i0 then inr (LittleEndian, true, i0)
                else if i0 <? 0 then inr (BigEndian, false, - i0)
                else inl Error);
  let '(endian, littleEndian, dType) := header in
  if (dType =? 0) || (12 <=? dType) then inl Error else
  do entry <~ match __DTYPE_FLAGS_DECODING dType with
              | Some e => inr e
              | None => inl TypeError
              end;
  let '(ArrayType, dSize, type) := entry in
  let sameEndian := endianness_eqb endian __SYS_ENDIAN in
  (* typeof ArrayType === "function" holds of the typed array constructors
     as it does of parseFloat16ArrayBuffer: all are called without [new],
     which the constructors refuse *)
  let call (bytes : Uint8Array) : res TypedArray :=
    match ArrayType with
    | Constructor _ => inl TypeError
    | ParseFloat16 => parseFloat16ArrayBuffer bytes None
    end in
  match i1 with
  | None =>
      (* i1 > 0 is false; -i1, d0 and e0 are NaN, the shape is empty, and a
         slice with a bound NaN is empty *)
      do arr <~ call [];
      inr ({| shape := []; dType := type; data := arr |}, littleEndian, None)
  | Some i1 =>
      do shaped <~
        (if 0 <? i1 then
           let d0 := 2 + i1 * 2 in
           do shape <~
             (if sameEndian then
                do view <~ TypedArray_over Uint16 (slice buffer 2 d0);
                inr (uint_elements view)
              else
                detached_loop id (Z.to_nat i1) 0 2 (Some littleEndian)
                  (replicate (Z.to_nat i1) 0));
           inr (shape, d0)
         else
           let s := - i1 in
           let d0 := 2 + s * 4 in
           do shape <~
             (if sameEndian then
                do view <~ TypedArray_over Uint32 (slice buffer 2 d0);
                inr (uint_elements view)
              else
                detached_loop id (Z.to_nat s) 0 4 (Some littleEndian)
                  (replicate (Z.to_nat s) 0));
           inr (shape, d0));
      let '(shape, d0) := shaped in
      let e0 := d0 + fold_left Z.mul shape 1 * dSize in
      do arr <~ call (slice buffer d0 e0);
      inr ({| shape := shape; dType := type; data := arr |}, littleEndian,
           Some e0)
  end.

(** Second half: the end of the buffer, or the flag and the extra payload,
    and the separator. It yields the buffer and the result as the turn
    leaves them. *)
Definition decodeMatBlob_extra (buffer : Uint8Array) (mat : NDArray)
    (littleEndian : bool) (e0 : option Z) (result : list NDArrayAndExtra)
  : res (flow * Uint8Array * list NDArrayAndExtra) :=
  match e0 with
  | None =>
      (* NaN >= buffer.length is false, buffer[NaN] is undefined and is not
         0, and getUint32(0) on the empty slice(NaN, NaN) throws *)
      inl RangeError
  | Some e0 =>
      if byteLength buffer <=? e0 then
        inr (Break, buffer, result ++ [(mat, Null)])
      else
      let e1 := e0 + 1 in
      let eFlag := nth (Z.to_nat e0) buffer 0 in
      if eFlag =? 0 then
        inr (Continue, slice_from buffer e1, result ++ [(mat, Null)])
      else
      let e2 := e1 + 4 in
      do eLen <~ (if byteLength (slice buffer e1 e2) <? 4 then inl RangeError
                  else inr (uint_value (endianness_of littleEndian)
                              (slice buffer e1 e2)));
      let e3 := e2 + eLen in
      do extra <~ (match eFlag with
                   | 1 => inr (ArrayBuffer (slice buffer e2 e3))
                   | 2 => match JSON_parse (slice buffer e2 e3) with
                          | Some value => inr (Object value)
                          | None => inl SyntaxError
                          end
                   | _ => inl Error
                   end);
      let result := result ++ [(mat, extra)] in
      if (e3 <? byteLength buffer) && (nth (Z.to_nat e3) buffer 0 =? 0) then
        inr (Continue, slice_from buffer (e3 + 1), result)
      else inr (Break, buffer, result)
  end.

Definition decodeMatBlob_turn (buffer : Uint8Array)
    (result : list NDArrayAndExtra)
  : res (flow * Uint8Array * list NDArrayAndExtra) :=
  do array <~ decodeMatBlob_array buffer;
  let '(mat, littleEndian, e0) := array in
  decodeMatBlob_extra buffer mat littleEndian e0 result.

(** The loop, for [fuel] turns at most. *)
Fixpoint decodeMatBlob_loop (fuel : nat) (buffer : Uint8Array)
    (result : list NDArrayAndExtra) : option (res (list NDArrayAndExtra)) :=
  if (0 <? length buffer)%nat then
    match fuel with
    | O => None
    | S fuel' =>
        match decodeMatBlob_turn buffer result with
        | inl e => Some (inl e)
        | inr (Break, _, result') => Some (inr result')
        | inr (Continue, buffer', result') =>
            decodeMatBlob_loop fuel' buffer' result'
        end
    end
  else Some (inr result).

(** A turn that goes on has dropped three bytes at least of a buffer of
    bytes: one turn for each byte is enough. *)
Definition decodeMatBlob (buffer : Uint8Array)
  : option (res (list NDArrayAndExtra)) :=
  decodeMatBlob_loop (length buffer) buffer [].
(** *** Properties of [splitChunks] *)

Lemma total_app (a b : list Uint8Array) : total (a ++ b) = total a + total b.
Proof. unfold total. rewrite concat_app, length_app. lia. Qed.

Lemma total_cons (c : Uint8Array) (q : list Uint8Array) :
  total (c :: q) = byteLength c + total q.
Proof. unfold total, byteLength. simpl. rewrite length_app. lia. Qed.

Lemma total_nonneg (q : list Uint8Array) : 0 <= total q.
Proof. unfold total. lia. Qed.

Section SplitLoop.
Variable len : Z.

(** What the first loop computes, started after the chunks [pre] have all
    been popped whole. *)
Lemma splitChunks_for_spec (todo pre : list Uint8Array) :
  total pre <= len ->
  let st' := splitChunks_for todo (length pre) len
               {| poppedChunks := pre; accumelatedLength := total pre;
                  splitChunksAt := length pre;
                  chunks_now := pre ++ todo |} in
  (total (pre ++ todo) < len ->
     chunks_now st' = pre ++ todo /\ accumelatedLength st' < len) /\
  (len <= total (pre ++ todo) ->
     accumelatedLength st' = len /\
     concat (poppedChunks st')
       = take (Z.to_nat len) (concat (pre ++ todo)) /\
     concat (drop (splitChunksAt st') (chunks_now st'))
       = drop (Z.to_nat len) (concat (pre ++ todo))).
Proof.
  revert pre. induction todo as [|chunk todo IH]; intros pre Hpre; simpl.
  - rewrite app_nil_r. split; intros H.
    + split; [done | lia].
    + assert (total pre = len) as E by lia.
      split; [done |]. unfold total in E.
      rewrite drop_all, take_ge, drop_ge by lia. done.
  - destruct (Z.leb_spec (total pre + byteLength chunk) len) as [Hle|Hgt].
    + specialize (IH (pre ++ [chunk])).
      rewrite total_app, total_cons, length_app in IH. simpl in IH.
      replace (total []) with 0 in IH by done.
      rewrite Z.add_0_r, Nat.add_1_r, <- app_assoc in IH. simpl in IH.
      apply IH. lia.
    + rewrite total_app, total_cons.
      destruct (Z.ltb_spec 0 (len - total pre)) as [Hpos|Hzero]; simpl.
      * split; intros H; [pose proof (total_nonneg todo); lia |].
        split; [done |].
        assert (Z.to_nat len = (length (concat pre)
                   + Z.to_nat (len - total pre))%nat) as El
          by (unfold total in *; lia).
        rewrite !concat_app. simpl. rewrite app_nil_r.
        rewrite insert_app_r_alt, Nat.sub_diag by lia. simpl.
        rewrite drop_app_length. simpl.
        rewrite El, take_app_add, drop_app_add.
        unfold slice_to, slice_from, byteLength in *.
        rewrite take_app_le, drop_app_le by lia. done.
      * split; intros H; [pose proof (total_nonneg todo); lia |].
        assert (total pre = len) as E by lia.
        split; [done |]. unfold total in E.
        rewrite drop_app_length, !concat_app.
        rewrite take_app_le, drop_app_ge by lia.
        rewrite take_ge by lia.
        replace (Z.to_nat len - length (concat pre))%nat with 0%nat by lia.
        done.
Qed.

(** The copy loop fills the zeroed result with the popped chunks. *)
Lemma splitChunks_copy_spec (popped : list Uint8Array) (done_ : Uint8Array)
    (room : nat) :
  length (concat popped) = room ->
  splitChunks_copy popped (length done_) (done_ ++ replicate room 0)
    = inr (done_ ++ concat popped).
Proof.
  revert done_ room. induction popped as [|c popped IH];
    intros done_ room Hroom; simpl in *.
  - subst room. done.
  - rewrite length_app in Hroom. unfold Uint8Array_set.
    rewrite length_app, length_replicate.
    destruct (Nat.leb_spec (length done_ + length c)
                (length done_ + room)) as [_|Hbad]; [|lia].
    simpl. rewrite take_app_length.
    rewrite drop_app_ge by lia.
    replace (length done_ + length c - length done_)%nat
      with (length c) by lia.
    rewrite drop_replicate.
    replace (done_ ++ c ++ replicate (room - length c) 0)
      with ((done_ ++ c) ++ replicate (room - length c) 0)
      by (by rewrite <- app_assoc).
    replace (length done_ + length c)%nat with (length (done_ ++ c))
      by (by rewrite length_app).
    rewrite IH by lia. by rewrite <- app_assoc.
Qed.
End SplitLoop.

(** What [splitChunks] does on a queue that is too short: it throws and the
    queue is the one it was given. *)
Lemma splitChunks_short (chunks : list Uint8Array) (L : Z) :
  total chunks < L ->
  splitChunks chunks L = (inl IncompleteChunksError, chunks).
Proof.
  intros Hshort. unfold splitChunks.
  destruct (splitChunks_for_spec L chunks []) as [Hs _];
    [pose proof (total_nonneg chunks); unfold total in *; simpl; lia |].
  simpl in Hs. destruct (Hs Hshort) as [Hq Hacc].
  replace (total []) with 0 in * by done.
  destruct (Z.ltb_spec (accumelatedLength
    (splitChunks_for chunks 0 L (SplitVars [] 0 0%nat chunks))) L); [|lia].
  by rewrite Hq.
Qed.

(** What it does on a queue that is long enough. *)
Lemma splitChunks_enough (chunks : list Uint8Array) (L : Z) :
  0 <= L -> L <= total chunks ->
  exists rest,
    splitChunks chunks L = (inr (take (Z.to_nat L) (concat chunks)), rest) /\
    concat rest = drop (Z.to_nat L) (concat chunks).
Proof.
  intros HL Hlong. unfold splitChunks.
  destruct (splitChunks_for_spec L chunks []) as [_ Hs]; [done |].
  simpl in Hs. destruct (Hs Hlong) as (Hacc & Hpop & Hrest).
  replace (total []) with 0 in * by done.
  set (st := splitChunks_for chunks 0 L (SplitVars [] 0 0%nat chunks)) in *.
  destruct (Z.ltb_spec (accumelatedLength st) L); [lia |].
  eexists. split.
  - f_equal. unfold Uint8Array_new.
    destruct (Z.ltb_spec L 0); [lia |]. simpl.
    pose proof (splitChunks_copy_spec (poppedChunks st) [] (Z.to_nat L)) as Hc.
    simpl in Hc. rewrite Hc; [by rewrite Hpop |].
    rewrite Hpop, length_take. unfold total in Hlong. lia.
  - destruct (Nat.ltb_spec 0 (splitChunksAt st)) as [_|Hz]; [done |].
    replace (splitChunksAt st) with 0%nat in Hrest by lia. done.
Qed.


(** *** Writing into a fresh blob *)

Lemma length_le_bytes (w : nat) (v : Z) : length (le_bytes w v) = w.
Proof. revert v. induction w as [|w IH]; intros v; simpl; [done | by rewrite IH]. Qed.

Lemma length_uint_bytes (e : endianness) (w : nat) (v : Z) :
  length (uint_bytes e w v) = w.
Proof. destruct e; simpl; rewrite ?length_rev; apply length_le_bytes. Qed.

(** A blob whose first bytes [w] are written and whose other [n] bytes are
    still zero; the next store goes to the offset [length w]. *)
Lemma store_next (w : Uint8Array) (n : nat) (offset v : Z) :
  offset = Z.of_nat (length w) ->
  blob_store (w ++ replicate (S n) 0) offset v
    = (w ++ [v mod 256]) ++ replicate n 0.
Proof.
  intros ->. unfold blob_store.
  destruct (Z.ltb_spec (Z.of_nat (length w)) 0); [lia |].
  rewrite Nat2Z.id, insert_app_r_alt, Nat.sub_diag by lia.
  simpl. by rewrite <- app_assoc.
Qed.

Lemma set_next (w l : Uint8Array) (n : nat) (offset : Z) :
  offset = Z.of_nat (length w) -> (length l <= n)%nat ->
  Uint8Array_set (w ++ replicate n 0) l (Z.to_nat offset)
    = inr ((w ++ l) ++ replicate (n - length l) 0).
Proof.
  intros -> Hfit. unfold Uint8Array_set.
  rewrite Nat2Z.id, length_app, length_replicate.
  destruct (Nat.leb_spec (length w + length l) (length w + n)); [|lia].
  rewrite take_app_length, drop_app_ge by lia.
  replace (length w + length l - length w)%nat with (length l) by lia.
  by rewrite drop_replicate, <- app_assoc.
Qed.

Lemma setUint32_next (w : Uint8Array) (n : nat) (offset v : Z) (le : bool) :
  offset = Z.of_nat (length w) -> (4 <= n)%nat ->
  setUint32_at (w ++ replicate n 0) offset v le
    = inr ((w ++ uint_bytes (endianness_of le) 4 v) ++ replicate (n - 4) 0).
Proof.
  intros Hoff Hfit. unfold setUint32_at, byteLength.
  rewrite length_app, length_replicate.
  destruct (Z.ltb_spec offset 0); [lia |].
  destruct (Z.ltb_spec (Z.of_nat (length w + n)) (offset + 4)); [lia |].
  simpl. rewrite set_next by (rewrite ?length_uint_bytes; lia).
  by rewrite length_uint_bytes.
Qed.

Ltac len :=
  repeat first [ rewrite length_app | rewrite length_uint_bytes
               | rewrite length_replicate | progress (cbn [length]) ].

(** The bytes the second loop of [encode] writes for one entry when the blob
    has the byte order of the platform. *)
Lemma encode_component_same (le : bool) (i : nat) (c : component)
    (w : Uint8Array) (n : nat) (offset : Z) :
  (0 < c_extraEncoding c -> is_Some (c_extraArray c)) ->
  offset = Z.of_nat (length w) ->
  let piece := (if (0 <? i)%nat then [0] else []) ++ component_bytes le c in
  (length piece <= n)%nat ->
  encode_component true le i c (w ++ replicate n 0) offset
    = inr ((w ++ piece) ++ replicate (n - length piece) 0,
           Z.of_nat (length (w ++ piece))).
Proof.
  intros Hextra -> piece Hfit. unfold encode_component.
  set (sep := if (0 <? i)%nat then [0] else []) in *.
  assert (exists n1, n = (length sep + S (S n1))%nat) as [n1 ->].
  { exists (n - length sep - 2)%nat. subst piece.
    rewrite length_app in Hfit. unfold component_bytes in Hfit.
    simpl in Hfit. lia. }
  assert ((if (0 <? i)%nat
           then (blob_store (w ++ replicate (length sep + S (S n1)) 0)
                   (Z.of_nat (length w)) 0, Z.of_nat (length w) + 1)
           else (w ++ replicate (length sep + S (S n1)) 0,
                 Z.of_nat (length w)))
          = ((w ++ sep) ++ replicate (S (S n1)) 0,
             Z.of_nat (length (w ++ sep)))) as ->.
  { subst sep. destruct (0 <? i)%nat; cbn [length Nat.add].
    - rewrite store_next by done. rewrite length_app. simpl.
      f_equal. lia.
    - by rewrite !app_nil_r. }
  subst piece. unfold component_bytes, extra_bytes in *.
  set (w1 := w ++ sep) in *.
  rewrite store_next by done.
  rewrite store_next by (rewrite length_app; simpl; lia).
  set (w2 := (w1 ++ [c_i0 c mod 256]) ++ [c_i1 c mod 256]).
  assert (Z.of_nat (length w1) + 2 = Z.of_nat (length w2)) as ->
    by (subst w2; rewrite !length_app; simpl; lia).
  assert (length w2 = length w1 + 2)%nat as Ew2
    by (subst w2; rewrite !length_app; simpl; lia).
  assert (length w1 = length w + length sep)%nat as Ew1
    by (subst w1; by rewrite length_app).
  rewrite !length_app in Hfit. simpl in Hfit.
  rewrite ?length_app in Hfit.
  rewrite set_next by (done || lia). simpl.
  unfold data_byteLength, byteLength.
  rewrite set_next by (rewrite ?length_app; lia). simpl.
  set (w4 := (w2 ++ buffer (c_shapeArray c)) ++ buffer (c_data c)).
  assert (Z.of_nat (length w2) + Z.of_nat (length (buffer (c_shapeArray c)))
          + Z.of_nat (length (buffer (c_data c))) = Z.of_nat (length w4)) as ->
    by (subst w4; rewrite !length_app; lia).
  assert (length w4 = length w2 + length (buffer (c_shapeArray c))
            + length (buffer (c_data c)))%nat as Ew4
    by (subst w4; rewrite !length_app; lia).
  destruct (Z.ltb_spec 0 (c_extraEncoding c)) as [Hpos|Hno].
  - destruct (Hextra Hpos) as [extraArray Earr]. rewrite Earr in *.
    cbn [default from_option id] in *.
    change (?a :: ?b ++ ?d) with ([a] ++ b ++ d) in Hfit.
    rewrite !length_app, length_uint_bytes in Hfit. cbn [length] in Hfit.
    remember (n1 - length (buffer (c_shapeArray c))
                - length (buffer (c_data c)))%nat as room eqn:Er.
    destruct room as [|room]; [lia |].
    rewrite store_next by done.
    rewrite setUint32_next by (len; lia). cbn [rbind].
    rewrite set_next by (len; lia). cbn [rbind].
    f_equal. f_equal; [f_equal |].
    + subst w4 w2 w1. by rewrite <- !app_assoc.
    + len. f_equal. lia.
    + unfold byteLength. subst w4 w2 w1. len. lia.
  - rewrite !app_nil_r in *. f_equal. f_equal; [f_equal |].
    + subst w4 w2 w1. by rewrite <- !app_assoc.
    + len. f_equal. lia.
    + subst w4 w2 w1. len. lia.
Qed.

(** Entries after the first: each is written behind a separator. *)
Lemma encode_components_same (le : bool) (cs : list component) :
  forall (i : nat) (w : Uint8Array) (n : nat) (offset : Z),
  Forall (fun c => 0 < c_extraEncoding c -> is_Some (c_extraArray c)) cs ->
  offset = Z.of_nat (length w) ->
  let pieces := concat (map (fun c => 0 :: component_bytes le c) cs) in
  (length pieces <= n)%nat ->
  encode_components true le (S i) cs (w ++ replicate n 0) offset
    = inr ((w ++ pieces) ++ replicate (n - length pieces) 0,
           Z.of_nat (length (w ++ pieces))).
Proof.
  induction cs as [|c cs IH]; intros i w n offset Hcs -> pieces Hfit.
  - subst pieces. simpl. by rewrite app_nil_r, Nat.sub_0_r.
  - inversion Hcs as [|? ? Hc Hcs']; subst. subst pieces.
    cbn [encode_components map concat] in *.
    rewrite length_app in Hfit.
    rewrite (encode_component_same le (S i) c w n _ Hc eq_refl)
      by (simpl in *; lia).
    cbn [rbind fst snd Nat.ltb Nat.leb].
    change ([0] ++ component_bytes le c) with (0 :: component_bytes le c).
    rewrite IH by (done || lia).
    f_equal. f_equal.
    + rewrite (length_app (0 :: _)), Nat.sub_add_distr.
      by rewrite <- !app_assoc.
    + by rewrite <- !app_assoc.
Qed.

Lemma Math_max_lt (xs : list Z) (bound : Z) :
  Forall (fun d => 0 <= d < bound) xs -> max_lt (Math_max xs) bound = true.
Proof.
  destruct xs as [|x xs]; [done |]. intros H. simpl.
  inversion H as [|? ? Hx Hxs]; subst. apply Z.ltb_lt.
  clear H. revert x Hx. induction Hxs as [|y ys Hy _ IH]; intros x Hx; simpl.
  - lia.
  - apply IH. lia.
Qed.

Lemma encoding_code (t : DType) :
  exists code, __DTYPE_FLAGS_ENCODING t = Some code /\ 1 <= code <= 11 /\
    __DTYPE_FLAGS_DECODING code
      = Some (match t with
              | float16 => ParseFloat16
              | _ => Constructor (DTypeMap t)
              end, dSize t,
              match t with float16 => float32 | _ => t end).
Proof. destruct t; simpl; eexists; (split; [done |]); split; (lia || eauto). Qed.

(** The first loop of [encode] on a record with a small shape. *)
Lemma encode_item_small (le : bool) (item : NDArrayAndExtra) (blobLength : Z)
    (blobComponents : list component) :
  (length (shape (fst item)) <= 128)%nat ->
  small_shape (fst item) ->
  encode_item le item blobLength blobComponents
    = inr (blobLength
             + Z.of_nat (length (component_bytes le (component_of le item))),
           blobComponents ++ [component_of le item]).
Proof.
  destruct item as [arr extra]. simpl. intros Hdims Hsmall.
  unfold encode_item, component_of. simpl.
  destruct (encoding_code (dType arr)) as (code & -> & Hcode & _). simpl.
  destruct (Z.eqb_spec code 0); [lia |]. simpl.
  destruct (Z.ltb_spec 128 (Z.of_nat (length (shape arr)))); [lia |].
  rewrite (Math_max_lt _ _ Hsmall). simpl.
  unfold component_bytes, extra_bytes, data_byteLength, byteLength. simpl.
  destruct extra; simpl; f_equal; f_equal; len; lia.
Qed.

Lemma encode_items_small (le : bool) (items : list NDArrayAndExtra) :
  forall (blobLength : Z) (blobComponents : list component),
  Forall (fun item => (length (shape (fst item)) <= 128)%nat
                      /\ small_shape (fst item)) items ->
  encode_items le items blobLength blobComponents
    = inr (blobLength
             + Z.of_nat (length (concat
                 (map (fun item => component_bytes le (component_of le item))
                      items))),
           blobComponents ++ map (component_of le) items).
Proof.
  induction items as [|item items IH]; intros L cs Hall; simpl.
  - by rewrite Z.add_0_r, app_nil_r.
  - inversion Hall as [|? ? [Hd Hs] Hall']; subst.
    rewrite encode_item_small by done. cbn [rbind fst snd].
    rewrite IH by done. rewrite <- app_assoc. simpl.
    f_equal. f_equal. rewrite !length_app. lia.
Qed.

Lemma component_of_extra (le : bool) (item : NDArrayAndExtra) :
  0 < c_extraEncoding (component_of le item) ->
  is_Some (c_extraArray (component_of le item)).
Proof. destruct item as [arr []]; simpl; intros; (lia || eauto). Qed.

Lemma host_endian : __SYS_ENDIAN = host.
Proof. unfold __SYS_ENDIAN, getSystemEndianness. by destruct host. Qed.

(** The blob [encode] returns when it writes in the byte order of the
    platform: the records, with a separator between two of them. *)
Lemma encode_same (items : list NDArrayAndExtra) (littleEndian : option bool) :
  let le := endianness_eqb host LittleEndian in
  items <> [] ->
  Forall (fun item => (length (shape (fst item)) <= 128)%nat
                      /\ small_shape (fst item)) items ->
  littleEndian = None \/ littleEndian = Some le ->
  encode items littleEndian = inr (joined le (map (component_of le) items)).
Proof.
  intros le Hne Hall Hle. unfold encode. rewrite host_endian. fold le.
  assert ((match littleEndian with
           | None => (true, le)
           | Some le0 => (eqb le0 le, le0)
           end) = (true, le)) as ->.
  { destruct Hle as [-> | ->]; [done |]. by rewrite eqb_reflx. }
  rewrite encode_items_small by done. cbn [rbind app].
  destruct items as [|item items]; [done |]. cbn [map joined concat].
  set (c := component_of le item). set (cs := map (component_of le) items).
  set (rest := concat (map (fun c => 0 :: component_bytes le c) cs)).
  assert (length (concat (map (fun item => component_bytes le
                                 (component_of le item)) items))
            + length cs = length rest)%nat as Hrest.
  { subst rest cs. clear. induction items as [|x xs IH]; simpl; [done |].
    rewrite !length_app. simpl. lia. }
  unfold Uint8Array_new.
  rewrite length_app. cbn [length].
  destruct (Z.ltb_spec (0 + Z.of_nat (length (component_bytes le c)
              + length (concat (map (fun item => component_bytes le
                  (component_of le item)) items)))
              + Z.of_nat (S (length cs)) - 1) 0) as [Hneg|_]; [lia |].
  cbn [rbind encode_components].
  match goal with |- context [replicate ?k 0] =>
    replace k with (length (component_bytes le c) + length rest)%nat by lia
  end.
  pose proof (encode_component_same le 0 c []
                (length (component_bytes le c) + length rest) 0
                (component_of_extra le item) eq_refl) as Hc.
  cbn [app Nat.ltb Nat.leb] in Hc. rewrite Hc by lia. clear Hc.
  cbn [rbind fst snd].
  rewrite encode_components_same.
  - cbn [rbind fst]. fold rest. f_equal.
    replace (length (component_bytes le c) + length rest
               - length (component_bytes le c) - length rest)%nat
      with 0%nat by lia.
    by rewrite app_nil_r.
  - subst cs. apply Forall_forall. intros x Hx.
    apply list_elem_of_fmap in Hx as (y & -> & _). apply component_of_extra.
  - done.
  - fold rest. lia.
Qed.

(** *** Numbers in memory *)

Lemma le_value_le_bytes (w : nat) (v : Z) :
  le_value (le_bytes w v) = v mod 256 ^ Z.of_nat w.
Proof.
  revert v. induction w as [|w IH]; intros v.
  - simpl. by rewrite Z.mod_1_r.
  - cbn [le_bytes le_value]. rewrite IH.
    rewrite Nat2Z.inj_succ, Z.pow_succ_r by lia.
    rewrite Z.rem_mul_r by lia. done.
Qed.

Lemma uint_value_uint_bytes (e : endianness) (w : nat) (v : Z) :
  0 <= v < 256 ^ Z.of_nat w ->
  uint_value e (uint_bytes e w v) = v.
Proof.
  intros Hv. destruct e; simpl; rewrite ?rev_involutive, le_value_le_bytes;
    by apply Z.mod_small.
Qed.

Lemma groups_concat {A : Type} (f : A -> list Z) (w : nat) (xs : list A) :
  (forall x, length (f x) = w) ->
  groups (length xs) w (concat (map f xs)) = map f xs.
Proof.
  intros Hf. induction xs as [|x xs IH]; simpl; [done |].
  rewrite take_app_length', drop_app_length' by done. by rewrite IH.
Qed.

Lemma length_concat_map {A : Type} (f : A -> list Z) (w : nat) (xs : list A) :
  (forall x, length (f x) = w) ->
  length (concat (map f xs)) = (w * length xs)%nat.
Proof.
  intros Hf. induction xs as [|x xs IH]; simpl; [lia |].
  rewrite length_app, Hf, IH. lia.
Qed.

(** The elements of the array of unsigned numbers made from [values] are
    these values, when they fit the element. *)
Lemma uint_elements_from (k : ArrayKind) (values : list Z) :
  Forall (fun d => 0 <= d < 256 ^ BYTES_PER_ELEMENT k) values ->
  uint_elements (TypedArray_from k values) = values.
Proof.
  intros Hall. unfold uint_elements, TypedArray_from. cbn [kind buffer].
  set (w := Z.to_nat (BYTES_PER_ELEMENT k)).
  assert (0 < w)%nat as Hw by (subst w; destruct k; simpl; lia).
  rewrite (length_concat_map _ w) by (intros; apply length_uint_bytes).
  rewrite Nat.mul_comm, Nat.div_mul by lia.
  rewrite groups_concat by (intros; apply length_uint_bytes).
  rewrite map_map. induction Hall as [|d ds Hd _ IH]; simpl; [done |].
  rewrite IH. f_equal. apply uint_value_uint_bytes.
  subst w. rewrite Z2Nat.id by (destruct k; simpl; lia). done.
Qed.

(** *** [splitChunks] on a queue of one chunk *)

Lemma queue_of_total (bs : Uint8Array) : total (queue_of bs) = byteLength bs.
Proof.
  destruct bs; [done |]. unfold total, byteLength. simpl.
  by rewrite app_nil_r.
Qed.

Lemma splitChunks_copy_one (c : Uint8Array) (n : nat) :
  length c = n -> splitChunks_copy [c] 0 (replicate n 0) = inr c.
Proof.
  intros Hn. pose proof (splitChunks_copy_spec [c] [] n) as Hc.
  simpl in Hc. rewrite app_nil_r in Hc. by apply Hc.
Qed.

Lemma splitChunks_single (bs : Uint8Array) (L : Z) :
  0 <= L <= byteLength bs ->
  splitChunks (queue_of bs) L
    = (inr (take (Z.to_nat L) bs), queue_of (drop (Z.to_nat L) bs)).
Proof.
  unfold byteLength. intros HL. destruct bs as [|b bs].
  - simpl in HL. assert (L = 0) as -> by lia. done.
  - unfold queue_of at 1. unfold splitChunks. cbn [splitChunks_for].
    cbn [accumelatedLength poppedChunks splitChunksAt chunks_now].
    unfold byteLength.
    destruct (Z.leb_spec (0 + Z.of_nat (length (b :: bs))) L) as [Hall|Hpart].
    + assert (Z.to_nat L = length (b :: bs)) as EL by lia.
      cbn [splitChunks_for accumelatedLength poppedChunks splitChunksAt
           chunks_now app].
      destruct (Z.ltb_spec (0 + Z.of_nat (length (b :: bs))) L); [lia |].
      rewrite EL, take_ge, (drop_ge (b :: bs)) by lia.
      cbn [Nat.ltb Nat.leb drop queue_of]. f_equal.
      unfold Uint8Array_new. destruct (Z.ltb_spec L 0); [lia |].
      cbn [rbind]. rewrite EL.
      by rewrite splitChunks_copy_one.
    + destruct (Z.ltb_spec 0 (L - 0)) as [Hpos|Hzero].
      * cbn [accumelatedLength poppedChunks splitChunksAt chunks_now app].
        destruct (Z.ltb_spec L L); [lia |].
        cbn [Nat.ltb Nat.leb]. unfold slice_to, slice_from.
        rewrite Z.sub_0_r. cbn [insert list_insert].
        assert (drop (Z.to_nat L) (b :: bs) <> []) as Hne.
        { intros E. apply (f_equal length) in E. rewrite length_drop in E.
          simpl in *. lia. }
        destruct (drop (Z.to_nat L) (b :: bs)) as [|d ds] eqn:Ed; [done |].
        cbn [queue_of]. f_equal.
        unfold Uint8Array_new. destruct (Z.ltb_spec L 0); [lia |].
        cbn [rbind].
        rewrite splitChunks_copy_one; [done |].
        rewrite length_take. lia.
      * assert (L = 0) as -> by lia.
        cbn [accumelatedLength poppedChunks splitChunksAt chunks_now].
        done.
Qed.

Lemma splitChunks_single_short (bs : Uint8Array) (L : Z) :
  byteLength bs < L ->
  splitChunks (queue_of bs) L = (inl IncompleteChunksError, queue_of bs).
Proof.
  intros H. apply splitChunks_short. by rewrite queue_of_total.
Qed.

(** The same, as statements of the parser. *)
Lemma splitChunks_call_app (a b : Uint8Array) (L : Z)
    (t : list Uint8Array) (r : list NDArrayAndExtra) :
  L = byteLength a ->
  splitChunks_call L (Parser (queue_of (a ++ b)) t r)
    = (inr a, Parser (queue_of b) t r).
Proof.
  intros ->. unfold splitChunks_call, byteLength. cbn [chunks tempChunks result].
  rewrite splitChunks_single by (unfold byteLength; rewrite length_app; lia).
  by rewrite Nat2Z.id, take_app_length, drop_app_length.
Qed.

Lemma splitChunks_call_zero (b : Uint8Array)
    (t : list Uint8Array) (r : list NDArrayAndExtra) :
  splitChunks_call 0 (Parser (queue_of b) t r)
    = (inr [], Parser (queue_of b) t r).
Proof. by apply (splitChunks_call_app [] b 0). Qed.

Lemma splitChunks_call_short (bs : Uint8Array) (L : Z)
    (t : list Uint8Array) (r : list NDArrayAndExtra) :
  byteLength bs < L ->
  splitChunks_call L (Parser (queue_of bs) t r)
    = (inl IncompleteChunksError, Parser (queue_of bs) t r).
Proof.
  intros H. unfold splitChunks_call. cbn [chunks tempChunks result].
  by rewrite splitChunks_single_short.
Qed.

(** *** The parser returns *)

(** A negative length is refused when the result is allocated, with the
    queue untouched. *)
Lemma splitChunks_negative (chunks : list Uint8Array) (L : Z) :
  L < 0 -> splitChunks chunks L = (inl RangeError, chunks).
Proof.
  intros HL. unfold splitChunks, Uint8Array_new.
  assert (splitChunks_for chunks 0 L (SplitVars [] 0 0%nat chunks)
            = SplitVars [] 0 0%nat chunks) as ->.
  { destruct chunks as [|c q]; [done |]. cbn.
    destruct (Z.leb_spec (0 + byteLength c) L) as [H|_];
      [unfold byteLength in H; lia |].
    by destruct (Z.ltb_spec 0 (L - 0)) as [H|_]; [lia |]. }
  cbn. destruct (Z.ltb_spec 0 L) as [H|_]; [lia |].
  by destruct (Z.ltb_spec L 0) as [_|H]; [| lia].
Qed.

(** [splitChunks] never adds bytes to the queue, and takes [L] of them when
    it returns. *)
Lemma splitChunks_total (chunks : list Uint8Array) (L : Z) :
  total (splitChunks chunks L).2 <= total chunks /\
  forall c, (splitChunks chunks L).1 = inr c ->
    0 <= L /\ total (splitChunks chunks L).2 = total chunks - L.
Proof.
  destruct (Z.lt_ge_cases L 0) as [Hneg|Hpos].
  { rewrite splitChunks_negative by done. by split. }
  destruct (Z.lt_ge_cases (total chunks) L) as [Hshort|Hlong].
  { rewrite splitChunks_short by done. by split. }
  destruct (splitChunks_enough chunks L) as (rest & -> & Hrest); [lia.. |].
  cbn [fst snd]. unfold total in *. rewrite Hrest, length_drop.
  split; [lia | intros _ _; lia].
Qed.

Lemma nonincr_ret {A : Type} (a : A) : nonincr (ret a).
Proof. intros s r s' [= _ <-]. lia. Qed.

Lemma nonincr_throw {A : Type} (e : exn) : nonincr (@throw A e).
Proof. intros s r s' [= _ <-]. lia. Qed.

Lemma nonincr_lift {A : Type} (x : res A) : nonincr (lift x).
Proof. intros s r s' [= _ <-]. lia. Qed.

Lemma nonincr_get_chunks : nonincr get_chunks.
Proof. intros s r s' [= _ <-]. lia. Qed.

Lemma nonincr_tempChunks_push (c : Uint8Array) : nonincr (tempChunks_push c).
Proof. intros s r s' [= _ <-]. cbn. lia. Qed.

Lemma nonincr_tempChunks_clear : nonincr tempChunks_clear.
Proof. intros s r s' [= _ <-]. cbn. lia. Qed.

Lemma nonincr_result_push (ne : NDArrayAndExtra) : nonincr (result_push ne).
Proof. intros s r s' [= _ <-]. cbn. lia. Qed.

Lemma nonincr_splitChunks_call (L : Z) : nonincr (splitChunks_call L).
Proof.
  intros s r s'. unfold splitChunks_call.
  pose proof (splitChunks_total (chunks s) L) as [H _].
  destruct (splitChunks (chunks s) L) as [x q]. intros [= _ <-]. by cbn.
Qed.

Lemma nonincr_bind {A B : Type} (m : P A) (k : A -> P B) :
  nonincr m -> (forall a, nonincr (k a)) -> nonincr (bind m k).
Proof.
  intros Hm Hk s r s'. unfold bind.
  destruct (m s) as [[e|a] s1] eqn:E.
  - intros [= _ <-]. by eapply Hm.
  - intros H. apply Hk in H. apply Hm in E. lia.
Qed.

(** A statement that takes [L] bytes first, when it returns, has taken as
    many at least. *)
Lemma bind_splitChunks_call {B : Type} (L : Z) (k : Uint8Array -> P B)
    (s s' : parser) (r : res B) :
  (forall c, nonincr (k c)) ->
  bind (splitChunks_call L) k s = (r, s') ->
  total (chunks s') <= total (chunks s) /\
  forall b, r = inr b -> total (chunks s') + L <= total (chunks s).
Proof.
  intros Hk. unfold bind, splitChunks_call.
  pose proof (splitChunks_total (chunks s) L) as [Hle Htake].
  destruct (splitChunks (chunks s) L) as [[e|c] q]; cbn [fst snd] in *.
  - intros [= <- <-]. by split.
  - destruct (Htake c eq_refl) as [_ Hq]. intros H. apply Hk in H.
    cbn [chunks] in H. split; [lia | intros _ _; lia].
Qed.

Ltac nonincr_steps :=
  repeat first
    [ apply nonincr_ret | apply nonincr_throw | apply nonincr_lift
    | apply nonincr_get_chunks | apply nonincr_tempChunks_push
    | apply nonincr_tempChunks_clear | apply nonincr_result_push
    | apply nonincr_splitChunks_call
    | apply nonincr_bind; [| intros ?]
    | match goal with
      | |- nonincr (if ?c then _ else _) => destruct c
      | |- nonincr (match ?x with _ => _ end) => destruct x
      end
    | progress cbv zeta ].

Lemma read_array_takes (s s' : parser) (r : res (NDArray * bool)) :
  read_array s = (r, s') ->
  total (chunks s') <= total (chunks s) /\
  forall a, r = inr a -> total (chunks s') + 2 <= total (chunks s).
Proof.
  unfold read_array. apply bind_splitChunks_call. intros chunk. nonincr_steps.
Qed.

Lemma nonincr_read_extra (ndarray : NDArray) (littleEndian : bool) :
  nonincr (read_extra ndarray littleEndian).
Proof. unfold read_extra. nonincr_steps. Qed.

(** A turn that does not throw has taken the two bytes of a header. *)
Lemma loop_body_takes (s s' : parser) (f : flow) :
  loop_body s = (inr f, s') -> total (chunks s') + 2 <= total (chunks s).
Proof.
  unfold loop_body, bind.
  destruct (read_array s) as [[e|a] s1] eqn:E; [done |].
  intros H. apply nonincr_read_extra in H.
  apply read_array_takes in E as [_ E]. specialize (E a eq_refl). lia.
Qed.

Lemma while_loop_returns (fuel : nat) (s : parser) :
  (Z.to_nat (total (chunks s)) < fuel)%nat ->
  exists out, while_loop fuel s = Some out.
Proof.
  revert s. induction fuel as [|fuel IH]; intros s Hfuel; [lia |].
  cbn [while_loop]. destruct (0 <? length (chunks s))%nat; [| by eexists].
  destruct (loop_body s) as [[e|[]] s1] eqn:E; [by eexists | | by eexists].
  apply IH. apply loop_body_takes in E.
  pose proof (total_nonneg (chunks s1)). lia.
Qed.

(** The parser returns or throws on every queue: the turns allowed to the
    loop always suffice. *)
Lemma parse_returns (queue : list Uint8Array) :
  exists out, parseFromUint8ArrayChunks queue = Some out.
Proof.
  unfold parseFromUint8ArrayChunks.
  destruct (length queue =? 0)%nat; [by eexists |].
  destruct (while_loop_returns (S (Z.to_nat (total queue)))
              (Parser queue [] [])) as [[[e|u] s] ->]; [cbn; lia | |].
  - destruct e; by eexists.
  - by eexists.
Qed.

(** [decode] returns or throws on every buffer. *)
Lemma decode_returns (buffer : Uint8Array) :
  exists out, decode buffer = Some out.
Proof.
  unfold decode. destruct (parse_returns [buffer]) as [out ->]. by eexists.
Qed.

(** *** One turn of the parser on the bytes of a record *)

Section LittleEndianHost.
Hypothesis little_host : host = LittleEndian.

Ltac run :=
  cbv beta iota;
  cbn [chunks tempChunks result fst snd].

(** The first half of a turn reads back the array that [encode] wrote. *)
Lemma read_array_encoded (arr : NDArray) (rest : Uint8Array)
    (t : list Uint8Array) (r : list NDArrayAndExtra) :
  valid_record arr -> small_shape arr ->
  let header := [default 0 (__DTYPE_FLAGS_ENCODING (dType arr)) mod 256;
                 Z.of_nat (length (shape arr)) mod 256] in
  let dims := buffer (TypedArray_from Uint16 (shape arr)) in
  read_array
    (Parser (queue_of (header ++ dims ++ buffer (data arr) ++ rest)) t r)
    = (inr (decoded_array arr, true),
       Parser (queue_of rest) (t ++ [header; dims; buffer (data arr)]) r).
Proof.
  intros (Hdims & Hshape & Hbytes & Hlen) Hsmall header dims.
  destruct (encoding_code (dType arr)) as (code & Ecode & Hcode & Etable).
  subst header. rewrite Ecode. cbn [default from_option id].
  rewrite (Z.mod_small code), (Z.mod_small (Z.of_nat _)) by lia.
  unfold read_array, bind.
  rewrite (splitChunks_call_app [code; Z.of_nat (length (shape arr))]) by done.
  run. unfold tempChunks_push at 1. run. cbn [nth].
  destruct (Z.ltb_spec 0 code) as [_|]; [|lia]. unfold ret at 1. run.
  destruct (Z.eqb_spec code 0) as [|_]; [lia |].
  destruct (Z.leb_spec 12 code) as [|_]; [lia |]. cbn [orb].
  rewrite Etable. unfold lift at 1. run.
  rewrite host_endian, little_host. cbn [endianness_eqb].
  assert (length dims = 2 * length (shape arr))%nat as Hdl.
  { subst dims. unfold TypedArray_from. cbn [buffer].
    apply length_concat_map. intros. apply length_uint_bytes. }
  assert (TypedArray_over Uint16 dims
            = inr (TypedArray_from Uint16 (shape arr))) as Eview.
  { unfold TypedArray_over, byteLength. rewrite Hdl. cbn [BYTES_PER_ELEMENT].
    replace (Z.of_nat (2 * length (shape arr)) mod 2) with 0
      by (rewrite Nat2Z.inj_mul, Z.mul_comm, Z.mod_mul; lia).
    done. }
  assert (uint_elements (TypedArray_from Uint16 (shape arr)) = shape arr)
    as Eshape by (by apply uint_elements_from).
  destruct (Z.ltb_spec 0 (Z.of_nat (length (shape arr)))) as [Hpos|Hzero].
  2: { destruct (shape arr) as [|d ds] eqn:Es; [|simpl in Hzero; lia].
       subst dims. cbn [TypedArray_from buffer map concat length app] in *.
       replace (- Z.of_nat 0 * 4) with 0 by lia.
       rewrite splitChunks_call_zero.
       run. unfold tempChunks_push at 1, lift at 1, ret at 1. run.
       change (TypedArray_over Uint32 [])
         with (inr (A:=exn) {| kind := Uint32; buffer := [] |}).
       run. change (uint_elements {| kind := Uint32; buffer := [] |})
         with (@nil Z).
       cbn [fold_left].
       rewrite splitChunks_call_app by (symmetry; exact Hlen).
       run. unfold tempChunks_push at 1. run. unfold lift, ret.
       rewrite <- !app_assoc. cbn [app].
       assert (byteLength (buffer (data arr)) mod dSize (dType arr) = 0)
         as Hmod.
       { unfold data_byteLength in Hlen. rewrite Hlen. apply Z.mod_mul.
         destruct (dType arr); simpl; lia. }
       unfold decoded_array. rewrite Es.
       destruct (dType arr) eqn:Et; cbn [DTypeMap dSize] in *;
         unfold TypedArray_over, parseFloat16ArrayBuffer;
         cbn [BYTES_PER_ELEMENT]; rewrite ?Hmod; cbn [Z.eqb negb]; run; done. }
  rewrite splitChunks_call_app by (unfold byteLength; lia).
  run. unfold tempChunks_push at 1, lift at 1, ret at 1. run.
  rewrite Eview. run. rewrite Eshape.
  run.
  rewrite splitChunks_call_app by (symmetry; exact Hlen).
  run. unfold tempChunks_push at 1. run. unfold lift, ret.
  rewrite <- !app_assoc. cbn [app].
  assert (byteLength (buffer (data arr)) mod dSize (dType arr) = 0) as Hmod.
  { unfold data_byteLength in Hlen. rewrite Hlen. apply Z.mod_mul.
    destruct (dType arr); simpl; lia. }
  unfold decoded_array.
  destruct (dType arr) eqn:Et; cbn [DTypeMap dSize] in *;
    unfold TypedArray_over, parseFloat16ArrayBuffer;
    cbn [BYTES_PER_ELEMENT]; rewrite ?Hmod; cbn [Z.eqb negb]; run; done.
Qed.


(** The second half of a turn at the end of the buffer. *)
Lemma read_extra_end (nd : NDArray) (le : bool)
    (t : list Uint8Array) (r : list NDArrayAndExtra) :
  read_extra nd le (Parser [] t r)
    = (inr Break, Parser [] t (r ++ [(nd, Null)])).
Proof. done. Qed.

(** On a zero byte: the record has no extra payload, and the loop goes on. *)
Lemma read_extra_zero (nd : NDArray) (le : bool) (tail : Uint8Array)
    (t : list Uint8Array) (r : list NDArrayAndExtra) :
  read_extra nd le (Parser (queue_of (0 :: tail)) t r)
    = (inr Continue,
       Parser (queue_of tail) (t ++ [[0]]) (r ++ [(nd, Null)])).
Proof.
  unfold read_extra, bind. unfold get_chunks at 1. run.
  change ((length (queue_of (0%Z :: tail)) =? 0)%nat) with false. run.
  change (0 :: tail) with ([0] ++ tail).
  rewrite splitChunks_call_app by done. done.
Qed.

(** On the bytes of an extra payload. *)
Lemma read_extra_payload (nd arr : NDArray) (extra : Extra)
    (tail : Uint8Array) (t : list Uint8Array) (r : list NDArrayAndExtra) :
  valid_extra extra -> extra <> Null ->
  let c := component_of true (arr, extra) in
  read_extra nd true (Parser (queue_of (extra_bytes true c ++ tail)) t r)
    = (inr (fst (after_extra tail)),
       Parser (snd (after_extra tail)) [] (r ++ [(nd, decoded_extra extra)])).
Proof.
  intros Hvalid Hsome c.
  assert (exists flag payload,
    (flag = 1 \/ flag = 2) /\ byteLength payload < 2 ^ 32 /\
    extra_bytes true c
      = [flag] ++ uint_bytes LittleEndian 4 (byteLength payload) ++ payload /\
    match flag with
    | 1 => ret (ArrayBuffer payload)
    | 2 => match JSON_parse payload with
           | Some value => ret (Object value)
           | None => throw SyntaxError
           end
    | _ => throw Error
    end = ret (decoded_extra extra)) as (flag & payload & Hflag & Hlen & -> & Hx).
  { subst c. destruct extra as [|bytes|bytes|value]; [done | | |];
      simpl in Hvalid; destruct Hvalid as [H1 H2].
    - exists 1, bytes. eauto.
    - exists 1, bytes. eauto.
    - exists 2, (JSON_stringify value). rewrite H2. eauto. }
  unfold read_extra, bind. unfold get_chunks at 1. run.
  rewrite <- !app_assoc.
  change ((length (queue_of ([flag] ++ uint_bytes LittleEndian 4
             (byteLength payload) ++ payload ++ tail)) =? 0)%nat) with false.
  run.
  rewrite splitChunks_call_app by done.
  run. unfold tempChunks_push at 1. run. cbn [nth].
  destruct (Z.eqb_spec flag 0) as [|_]; [lia |].
  rewrite splitChunks_call_app by (unfold byteLength; by rewrite length_uint_bytes).
  run. unfold tempChunks_push at 1. run. cbn [endianness_of].
  rewrite uint_value_uint_bytes by (unfold byteLength in *; lia).
  rewrite splitChunks_call_app by done.
  run. unfold tempChunks_push at 1. run.
  rewrite Hx. unfold ret at 1. run.
  unfold result_push at 1, tempChunks_clear at 1, get_chunks at 1. run.
  destruct tail as [|x tail]; [done |].
  cbn [after_extra queue_of length Nat.ltb Nat.leb andb front_is_zero].
  destruct (Z.eqb_spec x 0) as [-> |Hx0]; [|done].
  change [0 :: tail] with (queue_of ([0] ++ tail)).
  rewrite splitChunks_call_app by done. done.
Qed.

(** The bytes of a record, in the pieces the parser takes. *)
Lemma record_bytes_pieces (item : NDArrayAndExtra) :
  record_bytes item
    = [default 0 (__DTYPE_FLAGS_ENCODING (dType (fst item))) mod 256;
       Z.of_nat (length (shape (fst item))) mod 256]
      ++ buffer (TypedArray_from Uint16 (shape (fst item)))
      ++ buffer (data (fst item))
      ++ extra_bytes true (component_of true item).
Proof. done. Qed.

Lemma extra_bytes_null (arr : NDArray) :
  extra_bytes true (component_of true (arr, Null)) = [].
Proof. done. Qed.

(** One turn on the bytes of a record that a separator follows. *)
Lemma loop_body_separated (item : NDArrayAndExtra) (tail : Uint8Array)
    (t : list Uint8Array) (r : list NDArrayAndExtra) :
  valid_item item ->
  exists t',
    loop_body (Parser (queue_of (record_bytes item ++ 0 :: tail)) t r)
      = (inr Continue, Parser (queue_of tail) t' (r ++ [decoded item])).
Proof.
  destruct item as [arr extra]. intros (Hrec & Hsmall & Hextra).
  cbn [fst snd] in *. unfold loop_body, bind.
  rewrite record_bytes_pieces, <- !app_assoc. cbn [fst snd].
  rewrite (read_array_encoded arr) by done. run.
  destruct extra as [| | |] eqn:Ex.
  - rewrite extra_bytes_null. cbn [app].
    rewrite read_extra_zero. eauto.
  - rewrite (read_extra_payload _ arr (ArrayBuffer bytes)) by done.
    cbn [after_extra Z.eqb fst snd]. eauto.
  - rewrite (read_extra_payload _ arr (Uint8ArrayObject bytes)) by done.
    cbn [after_extra Z.eqb fst snd]. eauto.
  - rewrite (read_extra_payload _ arr (Object value)) by done.
    cbn [after_extra Z.eqb fst snd]. eauto.
Qed.

(** One turn on the bytes of a record at the end of the buffer. *)
Lemma loop_body_last (item : NDArrayAndExtra)
    (t : list Uint8Array) (r : list NDArrayAndExtra) :
  valid_item item ->
  exists t',
    loop_body (Parser (queue_of (record_bytes item)) t r)
      = (inr Break, Parser [] t' (r ++ [decoded item])).
Proof.
  destruct item as [arr extra]. intros (Hrec & Hsmall & Hextra).
  cbn [fst snd] in *. unfold loop_body, bind.
  rewrite record_bytes_pieces. cbn [fst snd].
  destruct extra as [| | |] eqn:Ex.
  - rewrite extra_bytes_null.
    rewrite (read_array_encoded arr) by done. run.
    rewrite read_extra_end. eauto.
  - rewrite <- (app_nil_r (extra_bytes _ _)).
    rewrite (read_array_encoded arr) by done. run.
    rewrite (read_extra_payload _ arr (ArrayBuffer bytes)) by done. eauto.
  - rewrite <- (app_nil_r (extra_bytes _ _)).
    rewrite (read_array_encoded arr) by done. run.
    rewrite (read_extra_payload _ arr (Uint8ArrayObject bytes)) by done. eauto.
  - rewrite <- (app_nil_r (extra_bytes _ _)).
    rewrite (read_array_encoded arr) by done. run.
    rewrite (read_extra_payload _ arr (Object value)) by done. eauto.
Qed.

(** One turn on the bytes of a record with an extra payload that a byte other
    than zero follows: the loop stops there. *)
Lemma loop_body_stops (item : NDArrayAndExtra) (x : Z) (tail : Uint8Array)
    (t : list Uint8Array) (r : list NDArrayAndExtra) :
  valid_item item -> has_extra item = true -> x <> 0 ->
  loop_body (Parser (queue_of (record_bytes item ++ x :: tail)) t r)
    = (inr Break, Parser [x :: tail] [] (r ++ [decoded item])).
Proof.
  destruct item as [arr extra]. intros (Hrec & Hsmall & Hextra) Hhas Hx.
  cbn [fst snd] in *. unfold loop_body, bind.
  rewrite record_bytes_pieces, <- !app_assoc. cbn [fst snd].
  rewrite (read_array_encoded arr) by done. run.
  rewrite (read_extra_payload _ arr extra) by (done || by destruct extra).
  cbn [after_extra]. destruct (Z.eqb_spec x 0); done.
Qed.

(** *** The loop on the bytes of several records *)

Lemma queue_of_cons (b : Z) (bs : Uint8Array) : queue_of (b :: bs) = [b :: bs].
Proof. done. Qed.

Lemma record_bytes_cons (item : NDArrayAndExtra) :
  exists b bs, record_bytes item = b :: bs.
Proof. rewrite record_bytes_pieces. simpl. eauto. Qed.

(** More turns than needed do not change what the loop returns. *)
Lemma while_loop_more (n m : nat) (s : parser) (out : res unit * parser) :
  while_loop n s = Some out -> (n <= m)%nat -> while_loop m s = Some out.
Proof.
  revert m s. induction n as [|n IH]; intros m s Hrun Hle.
  - destruct m as [|m]; [done |]. simpl in *.
    destruct (0 <? length (chunks s))%nat; [done |]. done.
  - destruct m as [|m]; [lia |]. simpl in *.
    destruct (0 <? length (chunks s))%nat; [|done].
    destruct (loop_body s) as [[e|[|]] s']; try done.
    apply IH; [done | lia].
Qed.

(** The loop on records that a separator follows each: one turn for each. *)
Lemma while_loop_separated (items : list NDArrayAndExtra) :
  forall (tail : Uint8Array) (fuel : nat)
         (t : list Uint8Array) (r : list NDArrayAndExtra),
  Forall valid_item items ->
  exists t',
    while_loop (length items + fuel)
      (Parser (queue_of (separated true (map (component_of true) items)
                         ++ tail)) t r)
    = while_loop fuel (Parser (queue_of tail) t' (r ++ map decoded items)).
Proof.
  induction items as [|item items IH]; intros tail fuel t r Hall.
  - exists t. simpl. by rewrite app_nil_r.
  - inversion Hall as [|? ? Hitem Hitems]; subst.
    unfold separated. cbn [map concat length Nat.add].
    fold (record_bytes item).
    fold (separated true (map (component_of true) items)).
    rewrite <- !app_assoc. cbn [app].
    destruct (loop_body_separated item
                (separated true (map (component_of true) items) ++ tail) t r)
      as [t1 Hturn]; [done |].
    destruct (IH tail fuel t1 (r ++ [decoded item])) as [t' Hrest]; [done |].
    exists t'. cbn [while_loop chunks].
    destruct (record_bytes_cons item) as (b & bs & Eb).
    rewrite Eb in *. cbn [app queue_of length Nat.ltb Nat.leb] in *.
    rewrite Hturn, Hrest. by rewrite <- app_assoc.
Qed.

(** The loop on the last record of a buffer. *)
Lemma while_loop_last (item : NDArrayAndExtra) (fuel : nat)
    (t : list Uint8Array) (r : list NDArrayAndExtra) :
  valid_item item ->
  exists t',
    while_loop (S fuel) (Parser (queue_of (record_bytes item)) t r)
    = Some (inr tt, Parser [] t' (r ++ [decoded item])).
Proof.
  intros Hitem. destruct (loop_body_last item t r) as [t' Hturn]; [done |].
  exists t'. cbn [while_loop chunks].
  destruct (record_bytes_cons item) as (b & bs & Eb).
  rewrite Eb in *. cbn [queue_of length Nat.ltb Nat.leb] in *.
  by rewrite Hturn.
Qed.

Lemma joined_snoc (le : bool) (cs : list component) (c : component) :
  joined le (cs ++ [c]) = separated le cs ++ component_bytes le c.
Proof.
  destruct cs as [|c0 cs];
    [unfold separated; cbn [app joined map concat]; by rewrite app_nil_r |].
  cbn [app joined]. unfold separated. cbn [map concat].
  rewrite <- !app_assoc. f_equal.
  clear c0. induction cs as [|c1 cs IH].
  - cbn [app map concat]. by rewrite app_nil_r.
  - cbn [app map concat]. rewrite IH, <- !app_assoc. done.
Qed.

Lemma length_joined (le : bool) (cs : list component) :
  (length cs <= length (joined le cs))%nat.
Proof.
  destruct cs as [|c cs]; [done |]. cbn [joined length].
  rewrite length_app. unfold component_bytes at 1. cbn [app length].
  assert (length cs <= length (concat
            (map (fun c => 0%Z :: component_bytes le c) cs)))%nat; [|lia].
  induction cs as [|c1 cs IH]; simpl; [lia |].
  rewrite length_app. lia.
Qed.

(** The parser on a blob of [encode]: it returns the records, and leaves the
    queue empty. *)
Lemma parse_joined (items : list NDArrayAndExtra) :
  items <> [] -> Forall valid_item items ->
  parseFromUint8ArrayChunks [joined true (map (component_of true) items)]
    = Some (inr (map decoded items), []).
Proof.
  intros Hne Hall.
  destruct (exists_last Hne) as (init & last & ->).
  apply Forall_app in Hall as [Hinit Hlast].
  inversion Hlast as [|? ? Hitem _]; subst.
  unfold parseFromUint8ArrayChunks. cbn [length Nat.eqb].
  set (blob := joined true (map (component_of true) (init ++ [last]))).
  destruct (while_loop_separated init (record_bytes last) 1 [] [])
    as [t1 Hinit_run]; [done |].
  destruct (while_loop_last last 0 t1 ([] ++ map decoded init))
    as [t2 Hlast_run]; [done |].
  rewrite Hlast_run in Hinit_run.
  assert (queue_of (separated true (map (component_of true) init)
                    ++ record_bytes last) = [blob]) as Eq.
  { subst blob. rewrite map_app. cbn [map]. rewrite joined_snoc.
    fold (record_bytes last).
    destruct (record_bytes_cons last) as (b & bs & ->).
    by destruct (separated true (map (component_of true) init)). }
  rewrite Eq in Hinit_run.
  rewrite (while_loop_more _ _ _ _ Hinit_run).
  - cbn [result chunks app]. by rewrite map_app.
  - pose proof (length_joined true (map (component_of true) (init ++ [last]))).
    rewrite length_map, length_app in H. cbn [length] in H.
    unfold total. cbn [concat]. rewrite app_nil_r. fold blob in H. lia.
Qed.

Lemma decoded_array_plain (arr : NDArray) :
  plain_data arr -> decoded_array arr = arr.
Proof.
  destruct arr as [sh t [k buf]]. unfold plain_data, decoded_array.
  cbn [dType data kind shape buffer]. intros [Ht ->]. by destruct t.
Qed.

Lemma little_flag : endianness_eqb host LittleEndian = true.
Proof. by rewrite little_host. Qed.

(** What [encode] and then [decode] make of records with small shapes. *)
Lemma decode_encode_decoded (items : list NDArrayAndExtra)
    (littleEndian : option bool) :
  littleEndian = None \/ littleEndian = Some true ->
  items <> [] -> Forall valid_item items ->
  exists blob,
    encode items littleEndian = inr blob /\
    blob = joined true (map (component_of true) items) /\
    parseFromUint8ArrayChunks [blob] = Some (inr (map decoded items), []).
Proof.
  intros Hle Hne Hall. eexists. split; [|split; [done |]].
  - pose proof (encode_same items littleEndian Hne) as He.
    cbv zeta in He. rewrite little_flag in He. apply He; [|done].
    eapply Forall_impl; [exact Hall |].
    intros item ((Hd & _) & Hs & _). done.
  - by apply parse_joined.
Qed.

(** C1, amended: on a little-endian platform, for every non-empty sequence of
    valid records whose dimensions are all below 2^16, whose dtype is not
    float16 and whose extra payloads fit the 32-bit length field, [encode]
    with the little-endian setting (explicit, or by default) returns a blob
    that [decode] turns back into the same records: same shapes, dtype tags,
    data bytes and extra payloads, raw bytes coming back in an ArrayBuffer. *)
Theorem decode_encode_little (items : list NDArrayAndExtra)
    (littleEndian : option bool) :
  littleEndian = None \/ littleEndian = Some true ->
  items <> [] ->
  Forall valid_item items ->
  Forall (fun item => plain_data (fst item)) items ->
  exists blob,
    encode items littleEndian = inr blob /\
    decode blob
      = Some (inr (map (fun item => (fst item, decoded_extra (snd item)))
                       items)).
Proof.
  intros Hle Hne Hall Hplain.
  destruct (decode_encode_decoded items littleEndian Hle Hne Hall)
    as (blob & Henc & _ & Hdec).
  exists blob. split; [done |]. unfold decode. rewrite Hdec. cbn.
  do 2 f_equal. apply map_ext_Forall.
  eapply Forall_impl; [exact Hplain |]. intros [arr extra] Hp.
  unfold decoded. cbn [fst snd] in *. by rewrite decoded_array_plain.
Qed.
End LittleEndianHost.

(** *** The take-L-bytes primitive *)

Lemma splitChunks_retry_short (n : nat) (chunks : list Uint8Array) (L : Z) :
  total chunks < L ->
  splitChunks_retry n chunks L
    = (replicate n (inl IncompleteChunksError), chunks).
Proof.
  intros Hshort. induction n as [|n IH]; [done |].
  cbn [splitChunks_retry replicate].
  by rewrite splitChunks_short, IH.
Qed.

(** C3: for every queue and every length [L]: when fewer than [L] bytes are
    buffered, [splitChunks] throws the insufficient-data error and leaves the
    queue as it was, and so does every further attempt on it; when [L] bytes
    or more are buffered, it returns the first [L] bytes of the queue in
    order, and the queue then holds exactly the bytes that follow them. *)
Theorem splitChunks_take (chunks : list Uint8Array) (L : Z) :
  0 <= L ->
  (total chunks < L ->
     splitChunks chunks L = (inl IncompleteChunksError, chunks) /\
     forall n, splitChunks_retry n chunks L
                 = (replicate n (inl IncompleteChunksError), chunks)) /\
  (L <= total chunks ->
     exists rest,
       splitChunks chunks L
         = (inr (take (Z.to_nat L) (concat chunks)), rest) /\
       concat rest = drop (Z.to_nat L) (concat chunks)).
Proof.
  intros HL. split.
  - intros Hshort. split; [by apply splitChunks_short |].
    intros n. by apply splitChunks_retry_short.
  - intros Hlong. by apply splitChunks_enough.
Qed.

(** *** The empty input *)

(** C10: [decode] of the empty buffer returns no record and no error, while
    [encode] of no record throws: it asks for a blob of length -1. *)
Theorem empty_input_asymmetry (littleEndian : option bool) :
  decode [] = Some (inr []) /\
  encode [] littleEndian = inl RangeError /\
  Uint8Array_new (0 + 0 - 1) = inl RangeError.
Proof. split; [done |]. by destruct littleEndian. Qed.

(** *** [encode] accepts every record within the limits *)

Lemma length_blob_store (blob : Uint8Array) (index value : Z) :
  length (blob_store blob index value) = length blob.
Proof.
  unfold blob_store. destruct (index <? 0); [done |]. apply length_insert.
Qed.

Lemma length_swap_element (n : nat) (j step offset : Z)
    (source blob : Uint8Array) :
  length (swap_element n j step offset source blob) = length blob.
Proof.
  revert j blob. induction n as [|n IH]; intros j blob; simpl; [done |].
  by rewrite IH, length_blob_store.
Qed.

Lemma swap_elements_spec (count : nat) (step : Z) (source blob : Uint8Array)
    (offset : Z) :
  length (fst (swap_elements count step source blob offset)) = length blob /\
  snd (swap_elements count step source blob offset)
    = offset + Z.of_nat count * step.
Proof.
  revert blob offset. induction count as [|count IH]; intros blob offset.
  - simpl. split; [done | lia].
  - cbn [swap_elements]. destruct (IH
      (swap_element (Z.to_nat step) 0 step offset source blob)
      (offset + step)) as [Hl Ho].
    rewrite Hl, Ho, length_swap_element. split; [done | lia].
Qed.

Lemma Uint8Array_set_fits (target src : Uint8Array) (offset : Z) :
  0 <= offset -> offset + byteLength src <= byteLength target ->
  exists blob, Uint8Array_set target src (Z.to_nat offset) = inr blob /\
               length blob = length target.
Proof.
  unfold byteLength, Uint8Array_set. intros H0 Hfit.
  destruct (Nat.leb_spec (Z.to_nat offset + length src) (length target));
    [|lia].
  eexists. split; [done |]. len. rewrite length_take, length_drop. lia.
Qed.

Lemma length_component_bytes (le : bool) (c : component) :
  length (component_bytes le c) = length (component_bytes true c).
Proof.
  unfold component_bytes, extra_bytes. len.
  destruct (0 <? c_extraEncoding c); len; done.
Qed.

Lemma data_length_bound (a : TypedArray) :
  0 <= data_length a * BYTES_PER_ELEMENT (kind a) <= byteLength (buffer a).
Proof.
  unfold data_length, byteLength.
  assert (0 < BYTES_PER_ELEMENT (kind a)) by (destruct (kind a); simpl; lia).
  pose proof (Z.mul_div_le (Z.of_nat (length (buffer a)))
                (BYTES_PER_ELEMENT (kind a))).
  pose proof (Z.div_pos (Z.of_nat (length (buffer a)))
                (BYTES_PER_ELEMENT (kind a))).
  nia.
Qed.

(** One entry: whatever the byte order, the stores stay within the bytes
    reserved for it, and nothing throws. *)
Lemma encode_component_accepts (sameEndian le : bool) (i : nat)
    (c : component) (blob : Uint8Array) (offset : Z) :
  component_wf c -> 0 <= offset ->
  offset + reserved i [c] <= byteLength blob ->
  exists blob' offset',
    encode_component sameEndian le i c blob offset = inr (blob', offset') /\
    length blob' = length blob /\
    0 <= offset' <= offset + reserved i [c].
Proof.
  intros Hwf H0 Hfit. cbn [reserved] in *. rewrite Z.add_0_r in *.
  unfold component_bytes in *. revert Hfit. len. intros Hfit.
  unfold encode_component.
  assert (0 <= (if (0 <? i)%nat then 1 else 0) <= 1) as Hsep
    by (destruct (0 <? i)%nat; lia).
  set (start := if (0 <? i)%nat
                then (blob_store blob offset 0, offset + 1)
                else (blob, offset)).
  assert (length (fst start) = length blob /\
          snd start = offset + (if (0 <? i)%nat then 1 else 0)) as [Hsl Hso].
  { subst start. destruct (0 <? i)%nat; cbn [fst snd];
      rewrite ?length_blob_store; split; (done || lia). }
  destruct start as [blob0 offset0]. cbn [fst snd] in *.
  set (blob2 := blob_store (blob_store blob0 offset0 (c_i0 c))
                  (offset0 + 1) (c_i1 c)).
  assert (length blob2 = length blob) as Hl2
    by (subst blob2; by rewrite !length_blob_store).
  assert (exists blob4 offset4,
    (if sameEndian
     then
       do blob <~ Uint8Array_set blob2 (buffer (c_shapeArray c))
                    (Z.to_nat (offset0 + 2));
       do blob0 <~ Uint8Array_set blob (buffer (c_data c))
                     (Z.to_nat (offset0 + 2
                                + data_byteLength (c_shapeArray c)));
       inr (blob0, offset0 + 2 + data_byteLength (c_shapeArray c)
                     + data_byteLength (c_data c))
     else
       let '(blob, offset) :=
         swap_elements (Z.to_nat (data_length (c_shapeArray c)))
           (BYTES_PER_ELEMENT (kind (c_shapeArray c)))
           (buffer (c_shapeArray c)) blob2 (offset0 + 2) in
       inr (swap_elements (Z.to_nat (data_length (c_data c)))
              (BYTES_PER_ELEMENT (kind (c_data c)))
              (buffer (c_data c)) blob offset))
    = inr (blob4, offset4) /\
    length blob4 = length blob /\
    0 <= offset4 <= offset0 + 2 + byteLength (buffer (c_shapeArray c))
                      + byteLength (buffer (c_data c)))
    as (blob4 & offset4 & -> & Hl4 & Ho4).
  { unfold byteLength in *. destruct sameEndian.
    - unfold data_byteLength, byteLength.
      destruct (Uint8Array_set_fits blob2 (buffer (c_shapeArray c))
                  (offset0 + 2)) as (b3 & -> & Hl3);
        [lia | unfold byteLength; lia |]. cbn [rbind].
      destruct (Uint8Array_set_fits b3 (buffer (c_data c))
                  (offset0 + 2 + Z.of_nat (length (buffer (c_shapeArray c)))))
        as (b4 & -> & Hl4); [lia | unfold byteLength; lia |]. cbn [rbind].
      eexists _, _. split; [done |]. split; [congruence | lia].
    - pose proof (data_length_bound (c_shapeArray c)) as Hb1.
      pose proof (data_length_bound (c_data c)) as Hb2.
      unfold byteLength in *.
      assert (0 <= data_length (c_shapeArray c)) as Hn1
        by (unfold data_length, byteLength; apply Z.div_pos;
            [lia | destruct (kind (c_shapeArray c)); simpl; lia]).
      assert (0 <= data_length (c_data c)) as Hn2
        by (unfold data_length, byteLength; apply Z.div_pos;
            [lia | destruct (kind (c_data c)); simpl; lia]).
      destruct (swap_elements_spec
                  (Z.to_nat (data_length (c_shapeArray c)))
                  (BYTES_PER_ELEMENT (kind (c_shapeArray c)))
                  (buffer (c_shapeArray c)) blob2 (offset0 + 2))
        as [Hl3 Ho3].
      destruct (swap_elements _ _ (buffer (c_shapeArray c)) _ _)
        as [b3 o3]. cbn [fst snd] in *.
      destruct (swap_elements_spec
                  (Z.to_nat (data_length (c_data c)))
                  (BYTES_PER_ELEMENT (kind (c_data c)))
                  (buffer (c_data c)) b3 o3) as [Hl4 Ho4].
      destruct (swap_elements _ _ (buffer (c_data c)) _ _) as [b4 o4].
      cbn [fst snd] in *. eexists _, _. split; [done |].
      split; [congruence | lia]. }
  cbn [rbind]. unfold extra_bytes in *.
  destruct (Z.ltb_spec 0 (c_extraEncoding c)) as [Hpos|Hno].
  - destruct (Hwf Hpos) as [extraArray Earr]. rewrite Earr in *.
    cbn [default from_option id] in *. revert Hfit. len. intros Hfit.
    unfold byteLength in *.
    unfold setUint32_at, byteLength. rewrite length_blob_store.
    destruct (Z.ltb_spec (offset4 + 1) 0); [lia |].
    destruct (Z.ltb_spec (Z.of_nat (length blob4)) (offset4 + 1 + 4));
      [lia |]. cbn [orb].
    destruct (Uint8Array_set_fits
                (blob_store blob4 offset4 (c_extraEncoding c))
                (uint_bytes (endianness_of le) 4 (c_extraLength c))
                (offset4 + 1)) as (b5 & -> & Hl5);
      [lia | unfold byteLength; rewrite length_blob_store; len; lia |].
    cbn [rbind]. rewrite length_blob_store in Hl5.
    destruct (Uint8Array_set_fits b5 extraArray (offset4 + 1 + 4))
      as (b6 & -> & Hl6); [lia | unfold byteLength; lia |].
    cbn [rbind]. eexists _, _. split; [done |].
    unfold byteLength. split; [congruence | lia].
  - eexists _, _. split; [done |]. unfold byteLength in *.
    split; [congruence | lia].
Qed.

Lemma reserved_nonneg (i : nat) (cs : list component) : 0 <= reserved i cs.
Proof.
  revert i. induction cs as [|c cs IH]; intros i; cbn [reserved]; [lia |].
  specialize (IH (S i)). destruct (0 <? i)%nat; lia.
Qed.

Lemma encode_components_accepts (sameEndian le : bool) (cs : list component) :
  forall (i : nat) (blob : Uint8Array) (offset : Z),
  Forall component_wf cs -> 0 <= offset ->
  offset + reserved i cs <= byteLength blob ->
  exists out, encode_components sameEndian le i cs blob offset = inr out.
Proof.
  induction cs as [|c cs IH]; intros i blob offset Hwf H0 Hfit.
  - simpl. eauto.
  - inversion Hwf as [|? ? Hc Hcs]; subst. cbn [encode_components].
    pose proof (reserved_nonneg (S i) cs) as Hr.
    cbn [reserved] in Hfit.
    destruct (encode_component_accepts sameEndian le i c blob offset)
      as (blob' & offset' & -> & Hl & Ho);
      [done | lia | cbn [reserved]; lia |].
    cbn [rbind fst snd]. cbn [reserved] in Ho.
    apply IH; [done | lia |]. unfold byteLength in *. lia.
Qed.

(** The first loop, on a record within the limits of the format. *)
Lemma encode_item_accepts (le : bool) (item : NDArrayAndExtra)
    (blobLength : Z) (blobComponents : list component) :
  (length (shape (fst item)) <= 128)%nat ->
  Forall (fun d => 0 <= d < 2 ^ 32) (shape (fst item)) ->
  exists c,
    encode_item le item blobLength blobComponents
      = inr (blobLength + Z.of_nat (length (component_bytes true c)),
             blobComponents ++ [c]) /\
    component_wf c.
Proof.
  destruct item as [arr extra]. cbn [fst]. intros Hdims Hshape.
  unfold encode_item.
  destruct (encoding_code (dType arr)) as (code & -> & Hcode & _).
  destruct (Z.eqb_spec code 0); [lia |]. cbn [rbind].
  destruct (Z.ltb_spec 128 (Z.of_nat (length (shape arr)))); [lia |].
  assert (max_lt (Math_max (shape arr)) 65536 = true \/
          max_lt (Math_max (shape arr)) 65536 = false /\
          max_lt (Math_max (shape arr)) 4294967296 = true) as Hmax.
  { destruct (max_lt (Math_max (shape arr)) 65536); [by left | right].
    split; [done |]. by apply Math_max_lt. }
  destruct Hmax as [-> | [-> ->]]; cbn [rbind];
    (destruct extra as [|bytes|bytes|value];
     match goal with
     | |- context [blobComponents ++ [?c]] => exists c
     end; (split; [|
       unfold component_wf; cbn [c_extraEncoding c_extraArray]; intros;
       (lia || eauto)]); f_equal; f_equal;
     unfold component_bytes, extra_bytes, data_byteLength, byteLength;
     cbn [c_i0 c_i1 c_shapeArray c_data c_extraEncoding c_extraLength
          c_extraArray Z.ltb Z.compare default from_option id]; len; lia).
Qed.

Lemma encode_items_accepts (le : bool) (items : list NDArrayAndExtra) :
  forall (blobLength : Z) (blobComponents : list component),
  Forall (fun item => (length (shape (fst item)) <= 128)%nat /\
                      Forall (fun d => 0 <= d < 2 ^ 32) (shape (fst item)))
    items ->
  exists cs,
    encode_items le items blobLength blobComponents
      = inr (blobLength + reserved 1 cs - Z.of_nat (length cs),
             blobComponents ++ cs) /\
    Forall component_wf cs /\ length cs = length items.
Proof.
  induction items as [|item items IH]; intros L cs0 Hall.
  - exists []. cbn. rewrite app_nil_r. split; [f_equal; f_equal; lia | done].
  - inversion Hall as [|? ? [Hd Hs] Hall']; subst. cbn [encode_items].
    destruct (encode_item_accepts le item L cs0) as (c & -> & Hc);
      [done | done |]. cbn [rbind fst snd].
    destruct (IH (L + Z.of_nat (length (component_bytes true c)))
                (cs0 ++ [c])) as (cs & -> & Hcs & Hlen); [done |].
    exists (c :: cs). rewrite <- app_assoc. cbn [app reserved length].
    split; [|split; [by constructor | by rewrite Hlen]].
    f_equal. f_equal.
    assert (forall i, reserved (S (S i)) cs = reserved (S i) cs) as ->
      by (clear; induction cs; intros; cbn [reserved]; [done |];
          by rewrite IHcs).
    cbn [Nat.ltb Nat.leb]. lia.
Qed.

(** [encode] returns a blob for every non-empty sequence of records of at
    most 128 dimensions below 2^32, whatever the platform and the setting. *)
Lemma encode_accepts (items : list NDArrayAndExtra)
    (littleEndian : option bool) :
  items <> [] ->
  Forall (fun item => (length (shape (fst item)) <= 128)%nat /\
                      Forall (fun d => 0 <= d < 2 ^ 32) (shape (fst item)))
    items ->
  exists blob, encode items littleEndian = inr blob.
Proof.
  intros Hne Hall. unfold encode.
  destruct (match littleEndian with
            | None => (true, endianness_eqb __SYS_ENDIAN LittleEndian)
            | Some le => (eqb le (endianness_eqb __SYS_ENDIAN LittleEndian), le)
            end) as [sameEndian le].
  destruct (encode_items_accepts le items 0 [] Hall)
    as (cs & -> & Hwf & Hlen). cbn [rbind app].
  destruct cs as [|c cs]; [by destruct items |].
  pose proof (reserved_nonneg 1 (c :: cs)) as Hr.
  assert (forall i, reserved (S i) cs = reserved 1 cs) as Hsame
    by (clear; induction cs as [|c cs IH]; intros; cbn [reserved];
        [done |]; by rewrite (IH 1%nat), (IH (S i))).
  assert (0 + reserved 1 (c :: cs) - Z.of_nat (length (c :: cs))
            + Z.of_nat (length (c :: cs)) - 1 = reserved 0 (c :: cs)) as ->.
  { cbn [reserved Nat.ltb Nat.leb]. rewrite (Hsame 1%nat). lia. }
  pose proof (reserved_nonneg 0 (c :: cs)) as Hr0.
  unfold Uint8Array_new.
  destruct (Z.ltb_spec (reserved 0 (c :: cs)) 0); [lia |]. cbn [rbind].
  destruct (encode_components_accepts sameEndian le (c :: cs) 0
              (replicate (Z.to_nat (reserved 0 (c :: cs))) 0) 0)
    as [out ->]; [done | lia | unfold byteLength; len; lia |].
  cbn [rbind]. eauto.
Qed.


(** *** Boundaries of the shape *)




(** *** The literal scenario of the test-suite *)

(** C8: on a little-endian platform, [encode] of the 2x3 float32 array
    [[1.1, 2.2, 3.3], [4.4, 5.5, 6.6]] with the little-endian setting returns
    exactly 30 bytes: the header 0x0A 0x02, the shape 02 00 03 00 and the 24
    bytes of the data; with the extra payload [{"min":1.1,"max":6.6}] it
    appends exactly the flag 0x02, the length 21 as 0x15 0x00 0x00 0x00 and
    the 21 bytes of the JSON text. *)
Theorem literal_scenario (value : Json) (littleEndian : option bool) :
  host = LittleEndian ->
  littleEndian = None \/ littleEndian = Some true ->
  JSON_stringify value = min_max_text ->
  encode [(mat, Null)] littleEndian
    = inr ([0x0A; 0x02] ++ [0x02; 0x00; 0x03; 0x00] ++ mat_data) /\
  length ([0x0A; 0x02] ++ [0x02; 0x00; 0x03; 0x00] ++ mat_data) = 30%nat /\
  encode [(mat, Object value)] littleEndian
    = inr (([0x0A; 0x02] ++ [0x02; 0x00; 0x03; 0x00] ++ mat_data)
           ++ [0x02] ++ [0x15; 0x00; 0x00; 0x00] ++ min_max_text) /\
  length min_max_text = 21%nat.
Proof.
  intros Hhost Hle Htext.
  assert (endianness_eqb host LittleEndian = true) as Hflag
    by (by rewrite Hhost).
  split; [|split; [done |split; [|done]]].
  - pose proof (encode_same [(mat, Null)] littleEndian) as He.
    cbv zeta in He. rewrite Hflag in He. rewrite He; [| done | | done].
    + unfold joined, component_bytes, component_of, extra_bytes,
        TypedArray_from. cbn. by rewrite Hhost.
    + repeat constructor; cbn; lia.
  - pose proof (encode_same [(mat, Object value)] littleEndian) as He.
    cbv zeta in He. rewrite Hflag in He. rewrite He; [| done | | done].
    + unfold joined, component_bytes, component_of, extra_bytes,
        TypedArray_from. cbn. by rewrite Hhost, Htext.
    + repeat constructor; cbn; lia.
Qed.

(** *** Truncated buffers *)

Section Truncated.
Hypothesis little_host : host = LittleEndian.

Ltac run :=
  cbv beta iota;
  cbn [chunks tempChunks result fst snd].

Lemma take_short_length (k : nat) (bs : Uint8Array) :
  (k < length bs)%nat -> byteLength (take k bs) = Z.of_nat k.
Proof. intros H. unfold byteLength. rewrite length_take. lia. Qed.

(** The first half of a turn on a buffer that ends within the header, the
    shape or the data of a record: it throws the insufficient-data error, and
    has pushed no record. *)
Lemma read_array_truncated (arr : NDArray) (k : nat)
    (t : list Uint8Array) (r : list NDArrayAndExtra) :
  valid_record arr -> small_shape arr ->
  let header := [default 0 (__DTYPE_FLAGS_ENCODING (dType arr)) mod 256;
                 Z.of_nat (length (shape arr)) mod 256] in
  let dims := buffer (TypedArray_from Uint16 (shape arr)) in
  (k < length (header ++ dims ++ buffer (data arr)))%nat ->
  exists s',
    read_array
      (Parser (queue_of (take k (header ++ dims ++ buffer (data arr)))) t r)
      = (inl IncompleteChunksError, s') /\
    result s' = r.
Proof.
  intros (Hdims & Hshape & Hbytes & Hlen) Hsmall header dims Hk.
  destruct (encoding_code (dType arr)) as (code & Ecode & Hcode & Etable).
  subst header. rewrite Ecode in *. cbn [default from_option id] in *.
  rewrite (Z.mod_small code), (Z.mod_small (Z.of_nat _)) in * by lia.
  unfold read_array, bind.
  destruct (Nat.lt_ge_cases k 2) as [Hk2|Hk2].
  { rewrite splitChunks_call_short by (rewrite take_short_length; lia).
    eauto. }
  rewrite take_app_ge by (cbn [length]; lia). cbn [length].
  rewrite (splitChunks_call_app [code; Z.of_nat (length (shape arr))]) by done.
  run. unfold tempChunks_push at 1. run. cbn [nth].
  destruct (Z.ltb_spec 0 code) as [_|]; [|lia]. unfold ret at 1. run.
  destruct (Z.eqb_spec code 0) as [|_]; [lia |].
  destruct (Z.leb_spec 12 code) as [|_]; [lia |]. cbn [orb].
  rewrite Etable. unfold lift at 1. run.
  rewrite host_endian, little_host. cbn [endianness_eqb].
  assert (length dims = 2 * length (shape arr))%nat as Hdl.
  { subst dims. unfold TypedArray_from. cbn [buffer].
    apply length_concat_map. intros. apply length_uint_bytes. }
  assert (TypedArray_over Uint16 dims
            = inr (TypedArray_from Uint16 (shape arr))) as Eview.
  { unfold TypedArray_over, byteLength. rewrite Hdl. cbn [BYTES_PER_ELEMENT].
    replace (Z.of_nat (2 * length (shape arr)) mod 2) with 0
      by (rewrite Nat2Z.inj_mul, Z.mul_comm, Z.mod_mul; lia).
    done. }
  assert (uint_elements (TypedArray_from Uint16 (shape arr)) = shape arr)
    as Eshape by (by apply uint_elements_from).
  revert Hk. len. intros Hk.
  destruct (Z.ltb_spec 0 (Z.of_nat (length (shape arr)))) as [Hpos|Hzero].
  2: { destruct (shape arr) as [|d ds] eqn:Es; [|simpl in Hzero; lia].
       subst dims. cbn [TypedArray_from buffer map concat length app] in *.
       replace (- Z.of_nat 0 * 4) with 0 by lia.
       rewrite splitChunks_call_zero.
       run. unfold tempChunks_push at 1, lift at 1, ret at 1. run.
       change (TypedArray_over Uint32 [])
         with (inr (A:=exn) {| kind := Uint32; buffer := [] |}).
       run. change (uint_elements {| kind := Uint32; buffer := [] |})
         with (@nil Z).
       cbn [fold_left].
       rewrite splitChunks_call_short; [eauto |].
       rewrite take_short_length by lia.
       change (1 * dSize (dType arr))
         with (fold_left Z.mul [] 1 * dSize (dType arr)).
       rewrite <- Hlen. unfold data_byteLength, byteLength. lia. }
  destruct (Nat.lt_ge_cases (k - 2) (length dims)) as [Hkd|Hkd].
  { rewrite splitChunks_call_short; [eauto |].
    rewrite take_short_length by (len; lia). lia. }
  rewrite take_app_ge by lia.
  rewrite splitChunks_call_app by (unfold byteLength; lia).
  run. unfold tempChunks_push at 1, lift at 1, ret at 1. run.
  rewrite Eview. run. rewrite Eshape.
  rewrite splitChunks_call_short; [eauto |].
  rewrite take_short_length by lia.
  rewrite <- Hlen. unfold data_byteLength, byteLength. lia.
Qed.

(** The second half on a buffer that ends within the flag, the length or the
    bytes of an extra payload. *)
Lemma read_extra_truncated (nd arr : NDArray) (extra : Extra) (j : nat)
    (t : list Uint8Array) (r : list NDArrayAndExtra) :
  valid_extra extra ->
  let c := component_of true (arr, extra) in
  (0 < j < length (extra_bytes true c))%nat ->
  exists s',
    read_extra nd true (Parser (queue_of (take j (extra_bytes true c))) t r)
      = (inl IncompleteChunksError, s') /\
    result s' = r.
Proof.
  intros Hvalid c Hj.
  assert (exists flag payload,
    (flag = 1 \/ flag = 2) /\ byteLength payload < 2 ^ 32 /\
    extra_bytes true c
      = [flag] ++ uint_bytes LittleEndian 4 (byteLength payload) ++ payload)
    as (flag & payload & Hflag & Hlen & E).
  { subst c. destruct extra as [|bytes|bytes|value];
      [simpl in Hj; lia | | |]; simpl in Hvalid; destruct Hvalid as [H1 H2].
    - exists 1, bytes. eauto.
    - exists 1, bytes. eauto.
    - exists 2, (JSON_stringify value). eauto. }
  rewrite E in *. clear E. revert Hj. len. intros Hj.
  unfold read_extra, bind. unfold get_chunks at 1. run.
  rewrite take_app_ge by (cbn [length]; lia). cbn [length].
  change ((length (queue_of ([flag] ++ take (j - 1)
             (uint_bytes LittleEndian 4 (byteLength payload) ++ payload)))
           =? 0)%nat) with false.
  run. rewrite splitChunks_call_app by done.
  run. unfold tempChunks_push at 1. run. cbn [nth].
  destruct (Z.eqb_spec flag 0) as [|_]; [lia |].
  destruct (Nat.lt_ge_cases (j - 1) 4) as [Hj4|Hj4].
  { rewrite splitChunks_call_short; [eauto |].
    rewrite take_short_length by (len; lia). lia. }
  rewrite take_app_ge by (len; lia). rewrite length_uint_bytes.
  rewrite splitChunks_call_app
    by (unfold byteLength; by rewrite length_uint_bytes).
  run. unfold tempChunks_push at 1. run. cbn [endianness_of].
  rewrite uint_value_uint_bytes by (unfold byteLength in *; lia).
  rewrite splitChunks_call_short; [eauto |].
  rewrite take_short_length by lia. unfold byteLength. lia.
Qed.

(** One turn on a buffer that ends within a record, and not right behind its
    data. *)
Lemma loop_body_truncated (item : NDArrayAndExtra) (k : nat)
    (t : list Uint8Array) (r : list NDArrayAndExtra) :
  valid_item item ->
  (k < length (record_bytes item))%nat ->
  k <> length (record_bytes (fst item, Null)) ->
  exists s',
    loop_body (Parser (queue_of (take k (record_bytes item))) t r)
      = (inl IncompleteChunksError, s') /\
    result s' = r.
Proof.
  destruct item as [arr extra]. intros (Hrec & Hsmall & Hextra) Hk Hcut.
  cbn [fst snd] in *. revert Hk Hcut.
  rewrite !record_bytes_pieces. cbn [fst snd].
  rewrite extra_bytes_null, app_nil_r, !app_assoc.
  set (array := ([_; _] ++ _) ++ _).
  intros Hk Hcut. unfold loop_body, bind.
  destruct (Nat.lt_ge_cases k (length array)) as [Hin|Hout].
  - rewrite take_app_le by lia. subst array. rewrite <- app_assoc.
    destruct (read_array_truncated arr k t r Hrec Hsmall) as (s' & -> & Hs').
    + by rewrite <- app_assoc in Hin.
    + eauto.
  - rewrite take_app_ge by lia. subst array. rewrite <- !app_assoc.
    rewrite (read_array_encoded little_host arr) by done. run.
    rewrite length_app in Hk. rewrite <- !app_assoc in Hcut, Hout.
    destruct (read_extra_truncated (decoded_array arr) arr extra
                (k - length ([default 0 (__DTYPE_FLAGS_ENCODING (dType arr))
                                mod 256;
                              Z.of_nat (length (shape arr)) mod 256]
                             ++ buffer (TypedArray_from Uint16 (shape arr))
                             ++ buffer (data arr)))
                (t ++ [[default 0 (__DTYPE_FLAGS_ENCODING (dType arr))
                          mod 256;
                        Z.of_nat (length (shape arr)) mod 256];
                       buffer (TypedArray_from Uint16 (shape arr));
                       buffer (data arr)]) r Hextra)
      as (s' & Hrun & Hs'); [rewrite <- !app_assoc in Hk; lia |].
    rewrite Hrun. eauto.
Qed.
End Truncated.

(** *** What [decode] returns, from a run of the loop *)

Lemma decode_by_loop (buffer : Uint8Array) (n : nat)
    (out : res unit * parser) :
  while_loop n (Parser [buffer] [] []) = Some out ->
  (n <= S (length buffer))%nat ->
  decode buffer
    = Some match out with
           | (inr _, s) | (inl IncompleteChunksError, s) => inr (result s)
           | (inl e, _) => inl e
           end.
Proof.
  intros Hrun Hn. unfold decode, parseFromUint8ArrayChunks.
  cbn [length Nat.eqb].
  rewrite (while_loop_more _ _ _ _ Hrun)
    by (unfold total; cbn [concat]; rewrite app_nil_r; lia).
  by destruct out as [[[]|] s].
Qed.

Lemma length_separated (le : bool) (cs : list component) :
  (length cs <= length (separated le cs))%nat.
Proof.
  unfold separated. induction cs as [|c cs IH]; cbn [map concat length];
    [done |]. rewrite !length_app. cbn [length]. lia.
Qed.

Lemma queue_of_nonempty (bs : Uint8Array) : bs <> [] -> queue_of bs = [bs].
Proof. by destruct bs. Qed.

(** C4, amended: when [decode] is applied to a buffer that ends within a
    field of a record (its header, shape, data, extra flag, extra length or
    extra bytes) the call does not fail: it returns the records that precede
    that record, each followed by its separator, and nothing of the record
    that is cut. No partial record is returned. (A buffer that ends right
    behind the data of a record is not a truncated one: it holds that record
    without extra payload.) *)
Theorem decode_truncated (items : list NDArrayAndExtra)
    (item : NDArrayAndExtra) (k : nat) :
  host = LittleEndian ->
  Forall valid_item items -> valid_item item ->
  (k < length (record_bytes item))%nat ->
  k <> length (record_bytes (fst item, Null)) ->
  decode (separated true (map (component_of true) items)
          ++ take k (record_bytes item))
    = Some (inr (map decoded items)).
Proof.
  intros Hhost Hitems Hitem Hk Hcut.
  set (sep := separated true (map (component_of true) items)).
  set (cut := take k (record_bytes item)).
  destruct (while_loop_separated Hhost items cut 1 [] [] Hitems)
    as [t' Hrun]. fold sep in Hrun. cbn [app] in Hrun.
  assert (exists out,
    while_loop 1 (Parser (queue_of cut) t' (map decoded items)) = Some out /\
    match out with
    | (inr _, s) | (inl IncompleteChunksError, s) => inr (result s)
    | (inl e, _) => inl e
    end = inr (A:=exn) (map decoded items)) as (out & Hlast & Hout).
  { destruct cut as [|b bs] eqn:Ecut.
    - eexists. split; [done |]. done.
    - destruct (loop_body_truncated Hhost item k t' (map decoded items))
        as (s' & Hbody & Hs'); [done | done | done |].
      fold cut in Hbody. rewrite Ecut in Hbody.
      cbn [while_loop chunks queue_of length Nat.ltb Nat.leb].
      cbn [queue_of] in Hbody. rewrite Hbody.
      eexists. split; [done |]. cbn. by rewrite Hs'. }
  rewrite Hlast in Hrun.
  destruct (sep ++ cut) as [|b bs] eqn:Ebuf.
  - destruct items as [|x xs]; [done |]. exfalso.
    pose proof (length_separated true (map (component_of true) (x :: xs))) as H.
    fold sep in H. apply (f_equal length) in Ebuf.
    rewrite length_app in Ebuf. cbn [map length] in *. lia.
  - cbn [queue_of] in Hrun.
    rewrite (decode_by_loop _ _ _ Hrun), Hout; [done |].
    pose proof (length_separated true (map (component_of true) items)) as H.
    fold sep in H. rewrite length_map in H.
    apply (f_equal length) in Ebuf. rewrite length_app in Ebuf. lia.
Qed.

(** C6, amended: in a buffer of several records, a zero byte behind a record
    (with or without extra payload) is taken as the separator and [decode]
    goes on with the next header; behind the extra payload of a record, a
    byte that is present and is not zero makes [decode] stop there: it
    returns the records parsed so far, and raises no error. *)
Theorem separator_or_stop (items : list NDArrayAndExtra)
    (item : NDArrayAndExtra) (x : Z) (tail : Uint8Array) :
  host = LittleEndian ->
  Forall valid_item items -> valid_item item ->
  decode (separated true (map (component_of true) items)
          ++ record_bytes item)
    = Some (inr (map decoded items ++ [decoded item])) /\
  (has_extra item = true -> x <> 0 ->
   decode (separated true (map (component_of true) items)
           ++ record_bytes item ++ x :: tail)
     = Some (inr (map decoded items ++ [decoded item]))).
Proof.
  intros Hhost Hitems Hitem. split.
  - pose proof (parse_joined Hhost (items ++ [item])) as Hp.
    rewrite map_app in Hp. cbn [map] in Hp. rewrite joined_snoc in Hp.
    unfold decode. fold (record_bytes item) in Hp. rewrite Hp.
    + by rewrite map_app.
    + by destruct items.
    + apply Forall_app. split; [done | by constructor].
  - intros Hextra Hx.
    set (sep := separated true (map (component_of true) items)).
    destruct (while_loop_separated Hhost items
                (record_bytes item ++ x :: tail) 1 [] [] Hitems)
      as [t' Hrun]. fold sep in Hrun. cbn [app] in Hrun.
    destruct (record_bytes_cons item) as (b & bs & Eb).
    assert (while_loop 1
              (Parser (queue_of (record_bytes item ++ x :: tail)) t'
                 (map decoded items))
            = Some (inr tt, Parser [x :: tail] []
                              (map decoded items ++ [decoded item])))
      as Hlast.
    { cbn [while_loop chunks].
      rewrite (loop_body_stops Hhost) by done.
      rewrite Eb. done. }
    rewrite Hlast in Hrun.
    rewrite queue_of_nonempty in Hrun
      by (rewrite Eb; by destruct sep).
    rewrite (decode_by_loop _ _ _ Hrun); [done |].
    pose proof (length_separated true (map (component_of true) items)) as H.
    fold sep in H. rewrite length_map in H. rewrite length_app. lia.
Qed.

(** *** The streaming decoder *)

Lemma pulls_add (a n : nat) (s : stream) :
  pulls (a + n) s
    = match pulls a s with
      | Some s' => pulls n s'
      | None => None
      end.
Proof.
  revert s. induction a as [|a IH]; intros s; [done |]. cbn [Nat.add pulls].
  destruct (state s) eqn:Es.
  - destruct (pull s) as [s'|]; [apply IH | done].
  - destruct n; cbn [pulls]; by rewrite ?Es.
  - destruct n; cbn [pulls]; by rewrite ?Es.
Qed.

Lemma pulls_settled (n : nat) (s : stream) :
  state s <> Readable -> pulls n s = Some s.
Proof. intros H. destruct n; [done |]. cbn [pulls]. by destruct (state s). Qed.

Lemma read_loop_ready (src : list Uint8Array) (s : stream) :
  nes s <> [] ->
  read_loop src s
    = Some (inr tt, {| queue := queue s; nes := nes s;
                       streamDone := streamDone s; source := src;
                       delivered := delivered s; state := state s |}).
Proof. intros H. destruct src; cbn [read_loop]; by destruct (nes s). Qed.

(** A pull that finds the queue empty and reads a fragment which parses to
    records, with nothing left over: it delivers these records. *)
Lemma pull_fragment (fragment : Uint8Array) (rest : list Uint8Array)
    (parsed before : list NDArrayAndExtra) :
  parseFromUint8ArrayChunks [fragment] = Some (inr parsed, []) ->
  parsed <> [] ->
  pull {| queue := []; nes := []; streamDone := false;
          source := fragment :: rest; delivered := before;
          state := Readable |}
    = Some {| queue := []; nes := []; streamDone := false;
              source := rest; delivered := before ++ parsed;
              state := Readable |}.
Proof.
  intros Hparse Hne. unfold pull, yieldArrays.
  cbn [streamDone nes queue length Nat.eqb Nat.ltb Nat.leb andb negb source
       read_loop].
  unfold parse_into_nes. cbn [queue app nes streamDone source delivered state].
  rewrite Hparse. destruct parsed as [|p ps]; [done |].
  rewrite read_loop_ready by done.
  cbn [queue nes streamDone source delivered state]. done.
Qed.

(** The two pulls after the last fragment: the source reports its end, and
    the stream closes. *)
Lemma pulls_end (n : nat) (before : list NDArrayAndExtra) :
  pulls (2 + n) {| queue := []; nes := []; streamDone := false;
                   source := []; delivered := before; state := Readable |}
    = Some (finished before).
Proof. rewrite pulls_add. cbn. by apply pulls_settled. Qed.

(** Fragments that parse one by one are delivered one by one. *)
Lemma pulls_fragments (fragments : list Uint8Array)
    (parsed : list (list NDArrayAndExtra)) :
  Forall2 (fun fragment records =>
             parseFromUint8ArrayChunks [fragment] = Some (inr records, []) /\
             records <> []) fragments parsed ->
  forall (n : nat) (before : list NDArrayAndExtra),
  pulls (length fragments + (2 + n))
    {| queue := []; nes := []; streamDone := false; source := fragments;
       delivered := before; state := Readable |}
    = Some (finished (before ++ concat parsed)).
Proof.
  induction 1 as [|fragment records fragments parsed [Hp Hne] _ IH];
    intros n before.
  - cbn [length Nat.add concat]. rewrite app_nil_r. apply pulls_end.
  - cbn [length Nat.add pulls state]. rewrite (pull_fragment _ _ records)
      by done.
    change (S (S n)) with (2 + n)%nat.
    rewrite IH. cbn [concat]. by rewrite app_assoc.
Qed.

Section AlignedFragments.
Hypothesis little_host : host = LittleEndian.






End AlignedFragments.

(** ** Further properties of the codec *)

(** *** The queue that [splitChunks] leaves *)

Lemma splitChunks_for_rest (L : Z) (todo pre : list Uint8Array) :
  total pre <= L ->
  let st' := splitChunks_for todo (length pre) L
               {| poppedChunks := pre; accumelatedLength := total pre;
                  splitChunksAt := length pre;
                  chunks_now := pre ++ todo |} in
  drop (splitChunksAt st') (chunks_now st') = rest_after (L - total pre) todo.
Proof.
  revert pre. induction todo as [|chunk todo IH]; intros pre Hpre.
  - cbn. rewrite app_nil_r. by rewrite drop_all.
  - cbn [splitChunks_for rest_after accumelatedLength poppedChunks
         splitChunksAt chunks_now].
    destruct (Z.leb_spec (total pre + byteLength chunk) L) as [Hle|Hgt].
    + destruct (Z.leb_spec (byteLength chunk) (L - total pre)) as [_|]; [|lia].
      specialize (IH (pre ++ [chunk])).
      rewrite total_app, total_cons, length_app in IH. cbn [length] in IH.
      replace (total []) with 0 in IH by done.
      rewrite Z.add_0_r, Nat.add_1_r, <- app_assoc in IH. cbn [app] in IH.
      cbv zeta in IH. rewrite IH by lia. f_equal. lia.
    + destruct (Z.leb_spec (byteLength chunk) (L - total pre)) as [|_]; [lia |].
      destruct (Z.ltb_spec 0 (L - total pre)) as [Hpos|Hzero];
        cbn [splitChunksAt chunks_now].
      * rewrite insert_app_r_alt, Nat.sub_diag by lia. cbn [insert].
        by rewrite drop_app_length.
      * rewrite drop_app_length.
        replace (L - total pre) with 0 by lia. done.
Qed.

Lemma splitChunks_rest (chunks : list Uint8Array) (L : Z) (bytes : Uint8Array)
    (rest : list Uint8Array) :
  splitChunks chunks L = (inr bytes, rest) ->
  0 <= L <= total chunks /\ rest = rest_after L chunks /\
  bytes = take (Z.to_nat L) (concat chunks).
Proof.
  intros Hrun.
  destruct (Z.lt_ge_cases L 0) as [Hneg|Hpos];
    [by rewrite splitChunks_negative in Hrun |].
  destruct (Z.lt_ge_cases (total chunks) L) as [Hshort|Hlong];
    [by rewrite splitChunks_short in Hrun |].
  split; [lia |].
  destruct (splitChunks_enough chunks L) as (rest' & Hrun' & _); [lia.. |].
  rewrite Hrun in Hrun'. injection Hrun' as -> <-. split; [|done].
  unfold splitChunks in Hrun.
  pose proof (splitChunks_for_rest L chunks []) as Hrest.
  cbn [app length] in Hrest. replace (total []) with 0 in Hrest by done.
  cbv zeta in Hrest. rewrite Z.sub_0_r in Hrest.
  set (st := splitChunks_for chunks 0 L (SplitVars [] 0 0%nat chunks)) in *.
  destruct (accumelatedLength st <? L); [done |].
  injection Hrun as _ <-. rewrite <- Hrest by lia.
  destruct (Nat.ltb_spec 0 (splitChunksAt st)) as [_|Hz]; [done |].
  by replace (splitChunksAt st) with 0%nat by lia.
Qed.

Lemma rest_after_front (L : Z) (chunks : list Uint8Array) :
  0 <= L ->
  match rest_after L chunks with
  | [] => True
  | c :: _ => c <> []
  end.
Proof.
  revert L. induction chunks as [|c q IH]; intros L HL; [done |].
  cbn [rest_after].
  destruct (Z.leb_spec (byteLength c) L) as [Hle|Hgt].
  - apply IH. unfold byteLength in *. lia.
  - intros E. apply (f_equal length) in E. rewrite length_drop in E.
    unfold byteLength in Hgt. cbn [length] in E. lia.
Qed.

Lemma rest_after_twice (a b : Z) (chunks : list Uint8Array) :
  0 <= a -> 0 <= b ->
  rest_after b (rest_after a chunks) = rest_after (a + b) chunks.
Proof.
  revert a. induction chunks as [|c q IH]; intros a Ha Hb; [done |].
  cbn [rest_after]. unfold byteLength in *.
  destruct (Z.leb_spec (Z.of_nat (length c)) a) as [Hle|Hgt].
  - destruct (Z.leb_spec (Z.of_nat (length c)) (a + b)) as [_|]; [|lia].
    rewrite IH by lia. f_equal. lia.
  - cbn [rest_after]. unfold byteLength. rewrite length_drop.
    destruct (Z.leb_spec (Z.of_nat (length c - Z.to_nat a)) b) as [Hle'|Hgt'].
    + destruct (Z.leb_spec (Z.of_nat (length c)) (a + b)) as [_|]; [|lia].
      f_equal. lia.
    + destruct (Z.leb_spec (Z.of_nat (length c)) (a + b)) as [|_]; [lia |].
      rewrite drop_drop. do 2 f_equal. lia.
Qed.

(** X1: after a take that succeeded, the queue is empty or starts with a
    chunk that is not empty, whatever the chunks it was given: the queue is
    empty exactly when the take has exhausted the bytes. The parser relies on
    it when it tests [chunks.length === 0] for the end of the input, and
    when it reads [chunks[0][0]]. *)
Theorem splitChunks_front (chunks : list Uint8Array) (L : Z)
    (bytes : Uint8Array) (rest : list Uint8Array) :
  splitChunks chunks L = (inr bytes, rest) ->
  (rest = [] <-> total chunks = L) /\
  (forall c q, rest = c :: q -> c <> []).
Proof.
  intros Hrun.
  pose proof (splitChunks_total chunks L) as [_ Htake].
  rewrite Hrun in Htake. cbn [fst snd] in Htake.
  destruct (Htake bytes eq_refl) as [HL Htotal].
  apply splitChunks_rest in Hrun as (_ & -> & _).
  pose proof (rest_after_front L chunks HL) as Hfront.
  split.
  - split.
    + intros E. rewrite E in Htotal. change (total []) with 0 in Htotal. lia.
    + intros E. destruct (rest_after L chunks) as [|c q]; [done |].
      rewrite total_cons in Htotal. pose proof (total_nonneg q).
      destruct c; [done |]. unfold byteLength in Htotal. cbn [length] in *. lia.
  - intros c q E. by rewrite E in Hfront.
Qed.

(** X2: two takes in a row are one take of the sum: the bytes of the two
    results, one after the other, are the result of the single take, and the
    queue is left the same, chunk for chunk. *)
Theorem splitChunks_twice (chunks : list Uint8Array) (a b : Z) :
  0 <= a -> 0 <= b -> a + b <= total chunks ->
  exists r1 q1 r2 q2,
    splitChunks chunks a = (inr r1, q1) /\
    splitChunks q1 b = (inr r2, q2) /\
    splitChunks chunks (a + b) = (inr (r1 ++ r2), q2).
Proof.
  intros Ha Hb Hfit.
  destruct (splitChunks_enough chunks a) as (q1 & H1 & Hq1); [lia.. |].
  assert (total q1 = total chunks - a) as Ht1.
  { unfold total in *. rewrite Hq1, length_drop. lia. }
  destruct (splitChunks_enough q1 b) as (q2 & H2 & Hq2); [lia.. |].
  destruct (splitChunks_enough chunks (a + b)) as (q & H & Hq); [lia.. |].
  eexists _, q1, _, q2. split; [exact H1 |]. split; [exact H2 |].
  rewrite H. f_equal.
  - f_equal. rewrite Hq1. rewrite Z2Nat.inj_add by lia.
    by rewrite take_take_drop.
  - apply splitChunks_rest in H as (_ & -> & _).
    apply splitChunks_rest in H2 as (_ & -> & _).
    apply splitChunks_rest in H1 as (_ & -> & _).
    symmetry. by apply rest_after_twice.
Qed.

(** *** The loop of the parser ends *)

Lemma while_loop_bound (turns : nat) (s : parser) :
  (Z.to_nat (total (chunks s) / 2) < turns)%nat ->
  exists out, while_loop turns s = Some out.
Proof.
  revert s. induction turns as [|turns IH]; intros s Hturns; [lia |].
  cbn [while_loop]. destruct (0 <? length (chunks s))%nat; [| by eexists].
  destruct (loop_body s) as [[e|[]] s1] eqn:E; [by eexists | | by eexists].
  apply IH. apply loop_body_takes in E.
  pose proof (total_nonneg (chunks s1)).
  Z.div_mod_to_equations. lia.
Qed.

(** X3: the parser returns or throws on every queue. A turn of its loop that
    goes on to the next has taken the two bytes of a header at least, so the
    loop makes at most one turn more than half the number of bytes buffered;
    [decode] returns or throws on every buffer. *)
Theorem parser_terminates :
  (forall (s : parser) (turns : nat),
     (Z.to_nat (total (chunks s) / 2) < turns)%nat ->
     exists out, while_loop turns s = Some out) /\
  (forall queue : list Uint8Array,
     exists out, parseFromUint8ArrayChunks queue = Some out) /\
  (forall buffer : Uint8Array, exists out, decode buffer = Some out).
Proof.
  split; [|split].
  - intros s turns. apply while_loop_bound.
  - apply parse_returns.
  - apply decode_returns.
Qed.

(** *** Headers and extra payloads that the parser refuses *)

Lemma loop_body_short (b0 : Z) (t : list Uint8Array)
    (r : list NDArrayAndExtra) :
  loop_body (Parser [[b0]] t r)
    = (inl IncompleteChunksError, Parser [[b0]] t r).
Proof.
  unfold loop_body, read_array, bind.
  change [[b0]] with (queue_of [b0]).
  by rewrite splitChunks_call_short.
Qed.

Lemma loop_body_header (b0 b1 : Z) (rest : Uint8Array)
    (t : list Uint8Array) (r : list NDArrayAndExtra) :
  (b0 = 0 \/ 12 <= b0 ->
   loop_body (Parser [b0 :: b1 :: rest] t r)
     = (inl Error, Parser (queue_of rest) (t ++ [[b0; b1]]) r)) /\
  (b0 = 4 \/ b0 = 8 ->
   loop_body (Parser [b0 :: b1 :: rest] t r)
     = (inl TypeError, Parser (queue_of rest) (t ++ [[b0; b1]]) r)).
Proof.
  change [b0 :: b1 :: rest] with (queue_of ([b0; b1] ++ rest)).
  unfold loop_body, read_array, bind.
  rewrite (splitChunks_call_app [b0; b1]) by done.
  cbv beta iota. cbn [chunks tempChunks result fst snd nth].
  unfold tempChunks_push at 1. cbv beta iota.
  cbn [chunks tempChunks result fst snd].
  split.
  - intros [-> | Hbig]; [done |].
    destruct (Z.ltb_spec 0 b0) as [_|]; [|lia]. unfold ret at 1.
    cbv beta iota.
    destruct (Z.eqb_spec b0 0) as [|_]; [lia |].
    by destruct (Z.leb_spec 12 b0) as [_|]; [|lia].
  - by intros [-> | ->].
Qed.

Lemma other_flag {A : Type} (flag : Z) (x y z : A) :
  flag <> 1 -> flag <> 2 ->
  match flag with
  | 1 => x
  | 2 => y
  | _ => z
  end = z.
Proof. by destruct flag as [|[p|[p|p|]|]|p]. Qed.

(** The second half of a turn on a flag, a length and a payload of that
    length: what is made of the payload is decided by the flag when the
    payload has been taken. *)
Lemma read_extra_refused (nd : NDArray) (flag : Z) (payload tail : Uint8Array)
    (t : list Uint8Array) (r : list NDArrayAndExtra) :
  byteLength payload < 2 ^ 32 ->
  let bytes := [flag] ++ uint_bytes LittleEndian 4 (byteLength payload)
                 ++ payload ++ tail in
  let left := Parser (queue_of tail)
                (t ++ [[flag]; uint_bytes LittleEndian 4 (byteLength payload);
                       payload]) r in
  (3 <= flag -> read_extra nd true (Parser (queue_of bytes) t r)
                  = (inl Error, left)) /\
  (flag = 2 -> JSON_parse payload = None ->
   read_extra nd true (Parser (queue_of bytes) t r) = (inl SyntaxError, left)).
Proof.
  intros Hlen bytes left.
  assert (flag <> 0 ->
    read_extra nd true (Parser (queue_of bytes) t r)
      = (let* extra := (match flag with
                        | 1 => ret (ArrayBuffer payload)
                        | 2 => match JSON_parse payload with
                               | Some value => ret (Object value)
                               | None => throw SyntaxError
                               end
                        | _ => throw Error
                        end) in
         result_push (nd, extra) >>
         tempChunks_clear >>
         let* q := get_chunks in
         if (0 <? length q)%nat && front_is_zero q then
           splitChunks_call 1 >> ret Continue
         else ret Break) left) as Hrun.
  { intros Hflag. subst bytes left. unfold read_extra. unfold bind at 1 2.
    unfold get_chunks at 1. cbv beta iota. cbn [chunks tempChunks result fst snd].
    change ((length (queue_of ([flag] ++ uint_bytes LittleEndian 4
               (byteLength payload) ++ payload ++ tail)) =? 0)%nat) with false.
    cbv beta iota. unfold bind at 1.
    rewrite splitChunks_call_app by done.
    cbv beta iota. unfold bind at 1. unfold tempChunks_push at 1.
    cbv beta iota. cbn [chunks tempChunks result fst snd nth].
    destruct (Z.eqb_spec flag 0) as [|_]; [done |].
    unfold bind at 1.
    rewrite splitChunks_call_app
      by (unfold byteLength; by rewrite length_uint_bytes).
    cbv beta iota. unfold bind at 1. unfold tempChunks_push at 1.
    cbv beta iota. cbn [chunks tempChunks result fst snd endianness_of].
    rewrite uint_value_uint_bytes by (unfold byteLength in *; lia).
    unfold bind at 1. rewrite splitChunks_call_app by done.
    cbv beta iota. unfold bind at 1. unfold tempChunks_push at 1.
    cbv beta iota. cbn [chunks tempChunks result fst snd].
    by rewrite <- !app_assoc. }
  split.
  - intros Hflag. rewrite Hrun by lia. unfold bind at 1.
    by rewrite other_flag by lia.
  - intros -> Hparse. rewrite Hrun by lia. unfold bind at 1.
    by rewrite Hparse.
Qed.

Section Refused.
Hypothesis little_host : host = LittleEndian.

Lemma decode_after_separated (items : list NDArrayAndExtra)
    (tail : Uint8Array) (e : exn) :
  Forall valid_item items -> tail <> [] ->
  (forall t r, exists s',
     loop_body (Parser [tail] t r) = (inl e, s') /\ result s' = r) ->
  decode (separated true (map (component_of true) items) ++ tail)
    = Some match e with
           | IncompleteChunksError => inr (map decoded items)
           | _ => inl e
           end.
Proof.
  intros Hitems Htail Hbody.
  set (sep := separated true (map (component_of true) items)).
  destruct (while_loop_separated little_host items tail 1 [] [] Hitems)
    as [t' Hrun]. fold sep in Hrun. cbn [app] in Hrun.
  destruct (Hbody t' (map decoded items)) as (s' & Hturn & Hres).
  rewrite (queue_of_nonempty tail) in Hrun by done.
  assert (while_loop 1 (Parser [tail] t' (map decoded items))
          = Some (inl e, s')) as Hlast.
  { cbn [while_loop chunks length Nat.ltb Nat.leb]. by rewrite Hturn. }
  rewrite Hlast in Hrun.
  rewrite queue_of_nonempty in Hrun by (destruct sep, tail; done).
  rewrite (decode_by_loop _ _ _ Hrun).
  - destruct e; try done. by rewrite Hres.
  - pose proof (length_separated true (map (component_of true) items)) as H.
    fold sep in H. rewrite length_map in H. rewrite length_app.
    destruct tail; [done |]. cbn [length]. lia.
Qed.

(** X4: a header whose first byte is 0, or 12 or more, makes [decode] throw
    an [Error], and one whose first byte is 4 or 8, the codes of the 64-bit
    integers, a [TypeError]: the records decoded before it are lost with the
    call. The header is judged when its two bytes are there: a buffer that
    ends on such a byte is decoded to the records before it. *)
Theorem invalid_header_throws (items : list NDArrayAndExtra) (b0 b1 : Z)
    (rest : Uint8Array) :
  Forall valid_item items ->
  let before := separated true (map (component_of true) items) in
  (b0 = 0 \/ 12 <= b0 ->
   decode (before ++ b0 :: b1 :: rest) = Some (inl Error)) /\
  (b0 = 4 \/ b0 = 8 ->
   decode (before ++ b0 :: b1 :: rest) = Some (inl TypeError)) /\
  decode (before ++ [b0]) = Some (inr (map decoded items)).
Proof.
  intros Hitems before. split; [|split].
  - intros Hb0.
    apply (decode_after_separated items (b0 :: b1 :: rest) Error);
      [done | done |].
    intros t r. destruct (loop_body_header b0 b1 rest t r) as [H _].
    rewrite H by done. eauto.
  - intros Hb0.
    apply (decode_after_separated items (b0 :: b1 :: rest) TypeError);
      [done | done |].
    intros t r. destruct (loop_body_header b0 b1 rest t r) as [_ H].
    rewrite H by done. eauto.
  - apply (decode_after_separated items [b0] IncompleteChunksError);
      [done | done |].
    intros t r. rewrite loop_body_short. eauto.
Qed.

Lemma loop_body_refused (arr : NDArray) (flag : Z)
    (payload tail : Uint8Array) (t : list Uint8Array)
    (r : list NDArrayAndExtra) :
  valid_record arr -> small_shape arr -> byteLength payload < 2 ^ 32 ->
  let bytes := record_bytes (arr, Null)
                 ++ [flag] ++ uint_bytes LittleEndian 4 (byteLength payload)
                 ++ payload ++ tail in
  (3 <= flag ->
   exists s', loop_body (Parser [bytes] t r) = (inl Error, s') /\
              result s' = r) /\
  (flag = 2 -> JSON_parse payload = None ->
   exists s', loop_body (Parser [bytes] t r) = (inl SyntaxError, s') /\
              result s' = r).
Proof.
  intros Hrec Hsmall Hlen bytes.
  destruct (record_bytes_cons (arr, Null)) as (b & bs & Eb).
  assert ([bytes] = queue_of bytes) as ->
    by (subst bytes; by rewrite Eb).
  subst bytes. unfold loop_body, bind.
  rewrite record_bytes_pieces, extra_bytes_null, <- !app_assoc.
  cbn [fst snd]. rewrite app_nil_l.
  rewrite (read_array_encoded little_host arr) by done.
  cbv beta iota. cbn [fst snd].
  match goal with
  | |- context [read_extra _ _ (Parser _ ?t' _)] =>
      destruct (read_extra_refused (decoded_array arr) flag payload tail
                  t' r Hlen) as [H3 H2]
  end.
  cbv zeta in *. split.
  - intros Hflag. rewrite H3 by done. eauto.
  - intros Hflag Hparse. rewrite H2 by done. eauto.
Qed.

(** X5: behind the data of a record, a flag of 3 or more that its length and
    its payload follow makes [decode] throw an [Error], and the flag 2 with a
    payload that [JSON.parse] refuses, a [SyntaxError]; the records decoded
    before are lost with the call. *)
Theorem invalid_extra_throws (items : list NDArrayAndExtra) (arr : NDArray)
    (flag : Z) (payload tail : Uint8Array) :
  Forall valid_item items -> valid_record arr -> small_shape arr ->
  byteLength payload < 2 ^ 32 ->
  let buffer := separated true (map (component_of true) items)
                  ++ record_bytes (arr, Null)
                  ++ [flag] ++ uint_bytes LittleEndian 4 (byteLength payload)
                  ++ payload ++ tail in
  (3 <= flag -> decode buffer = Some (inl Error)) /\
  (flag = 2 -> JSON_parse payload = None ->
   decode buffer = Some (inl SyntaxError)).
Proof.
  intros Hitems Hrec Hsmall Hlen buffer. subst buffer.
  destruct (record_bytes_cons (arr, Null)) as (b & bs & Eb).
  split.
  - intros Hflag.
    apply (decode_after_separated items _ Error); [done | by rewrite Eb |].
    intros t r.
    by apply (loop_body_refused arr flag payload tail t r Hrec Hsmall Hlen).
  - intros Hflag Hparse.
    apply (decode_after_separated items _ SyntaxError);
      [done | by rewrite Eb |].
    intros t r.
    by apply (loop_body_refused arr flag payload tail t r Hrec Hsmall Hlen).
Qed.
End Refused.

(** *** The blob that [encode] writes *)

Lemma joined_length_sum (le : bool) (cs : list component) :
  (length (concat (map (component_bytes le) cs)) + length cs
   = length (concat (map (fun c => 0%Z :: component_bytes le c) cs)))%nat.
Proof.
  induction cs as [|x xs IH]; simpl; [done |]. rewrite !length_app. lia.
Qed.

(** The second loop of [encode], when the blob has the byte order of the
    platform, writes the entries one after the other, a zero byte between
    two. *)
Lemma encode_joined (items : list NDArrayAndExtra)
    (littleEndian : option bool) (cs : list component) :
  let le := endianness_eqb host LittleEndian in
  littleEndian = None \/ littleEndian = Some le ->
  encode_items le items 0 []
    = inr (Z.of_nat (length (concat (map (component_bytes le) cs))), cs) ->
  cs <> [] -> Forall component_wf cs ->
  encode items littleEndian = inr (joined le cs).
Proof.
  intros le Hle Hitems Hne Hwf. unfold encode. rewrite host_endian. fold le.
  assert ((match littleEndian with
           | None => (true, le)
           | Some le0 => (eqb le0 le, le0)
           end) = (true, le)) as ->.
  { destruct Hle as [-> | ->]; [done |]. by rewrite eqb_reflx. }
  rewrite Hitems. cbn [rbind].
  destruct cs as [|c cs]; [done |]. cbn [map joined concat].
  inversion Hwf as [|? ? Hc Hcs]; subst.
  set (rest := concat (map (fun c => 0 :: component_bytes le c) cs)).
  pose proof (joined_length_sum le cs) as Hrest. fold rest in Hrest.
  unfold Uint8Array_new.
  rewrite length_app. cbn [length].
  destruct (Z.ltb_spec (Z.of_nat (length (component_bytes le c)
              + length (concat (map (component_bytes le) cs)))
              + Z.of_nat (S (length cs)) - 1) 0) as [Hneg|_]; [lia |].
  cbn [rbind encode_components].
  match goal with |- context [replicate ?k 0] =>
    replace k with (length (component_bytes le c) + length rest)%nat by lia
  end.
  pose proof (encode_component_same le 0 c []
                (length (component_bytes le c) + length rest) 0
                Hc eq_refl) as Hfirst.
  cbn [app Nat.ltb Nat.leb] in Hfirst. rewrite Hfirst by lia. clear Hfirst.
  cbn [rbind fst snd].
  rewrite encode_components_same; [| done | done | fold rest; lia].
  cbn [rbind fst]. fold rest. f_equal.
  replace (length (component_bytes le c) + length rest
             - length (component_bytes le c) - length rest)%nat
    with 0%nat by lia.
  by rewrite app_nil_r.
Qed.

Lemma component_for_wf (le : bool) (item : NDArrayAndExtra) :
  component_wf (component_for le item).
Proof.
  destruct item as [arr []]; unfold component_wf; simpl; intros; (lia || eauto).
Qed.

Lemma length_TypedArray_from (k : ArrayKind) (values : list Z) :
  byteLength (buffer (TypedArray_from k values))
    = BYTES_PER_ELEMENT k * Z.of_nat (length values).
Proof.
  unfold TypedArray_from, byteLength. cbn [buffer].
  rewrite (length_concat_map _ (Z.to_nat (BYTES_PER_ELEMENT k)))
    by (intros; apply length_uint_bytes).
  destruct k; cbn [BYTES_PER_ELEMENT]; lia.
Qed.

Lemma length_component_for (le : bool) (item : NDArrayAndExtra) :
  Z.of_nat (length (component_bytes le (component_for le item)))
    = encoded_size item.
Proof.
  destruct item as [arr extra].
  unfold component_bytes, extra_bytes, encoded_size, component_for.
  cbn [fst snd c_i0 c_i1 c_shapeArray c_data c_extraEncoding c_extraLength
       c_extraArray].
  pose proof (length_TypedArray_from
                (if bigShape arr then Uint32 else Uint16) (shape arr)) as Hs.
  unfold byteLength, data_byteLength in *.
  destruct extra; cbn [Z.ltb Z.compare default from_option id]; len;
    destruct (bigShape arr); cbn [BYTES_PER_ELEMENT] in Hs;
    unfold byteLength; lia.
Qed.

(** The first loop of [encode] on a record within the limits. *)
Lemma encode_item_for (le : bool) (item : NDArrayAndExtra) (blobLength : Z)
    (blobComponents : list component) :
  within_limits item ->
  encode_item le item blobLength blobComponents
    = inr (blobLength + encoded_size item,
           blobComponents ++ [component_for le item]).
Proof.
  intros [Hdims Hshape]. rewrite <- (length_component_for le).
  destruct item as [arr extra]. cbn [fst] in *.
  unfold encode_item, component_for, bigShape. cbn [fst snd].
  destruct (encoding_code (dType arr)) as (code & -> & Hcode & _).
  cbn [default from_option id].
  destruct (Z.eqb_spec code 0); [lia |]. cbn [rbind].
  destruct (Z.ltb_spec 128 (Z.of_nat (length (shape arr)))); [lia |].
  pose proof (Math_max_lt (shape arr) (2 ^ 32) Hshape) as Hmax.
  change (2 ^ 32) with 4294967296 in Hmax.
  destruct (max_lt (Math_max (shape arr)) 65536) eqn:Esmall;
    rewrite ?Hmax; cbn [rbind negb];
    unfold component_bytes, extra_bytes, data_byteLength, byteLength;
    destruct extra;
    cbn [c_i0 c_i1 c_shapeArray c_data c_extraEncoding c_extraLength
         c_extraArray Z.ltb Z.compare default from_option id];
    f_equal; f_equal; len; lia.
Qed.

Lemma encode_items_for (le : bool) (items : list NDArrayAndExtra) :
  forall (blobLength : Z) (blobComponents : list component),
  Forall within_limits items ->
  encode_items le items blobLength blobComponents
    = inr (blobLength + fold_right Z.add 0 (map encoded_size items),
           blobComponents ++ map (component_for le) items).
Proof.
  induction items as [|item items IH]; intros L cs Hall; simpl.
  - by rewrite Z.add_0_r, app_nil_r.
  - inversion Hall as [|? ? Hitem Hall']; subst.
    rewrite encode_item_for by done. cbn [rbind fst snd].
    rewrite IH by done. rewrite <- app_assoc. simpl.
    f_equal. f_equal. lia.
Qed.

Lemma sum_encoded_size (le : bool) (items : list NDArrayAndExtra) :
  fold_right Z.add 0 (map encoded_size items)
    = Z.of_nat (length (concat (map (component_bytes le)
                                  (map (component_for le) items)))).
Proof.
  induction items as [|item items IH]; [done |].
  cbn [map fold_right concat]. rewrite length_app, IH.
  rewrite <- (length_component_for le). lia.
Qed.

Lemma encode_for (items : list NDArrayAndExtra) (littleEndian : option bool) :
  let le := endianness_eqb host LittleEndian in
  littleEndian = None \/ littleEndian = Some le ->
  items <> [] -> Forall within_limits items ->
  encode items littleEndian = inr (joined le (map (component_for le) items)).
Proof.
  intros le Hle Hne Hall. apply encode_joined; [done | | |].
  - rewrite encode_items_for by done. cbn [app].
    by rewrite (sum_encoded_size le).
  - by destruct items.
  - apply Forall_forall. intros c Hc.
    apply list_elem_of_fmap in Hc as (item & -> & _). apply component_for_wf.
Qed.

(** X6: when it writes in the byte order of the platform (by default, or
    because that order is asked for), [encode] returns, for records of at
    most 128 dimensions below 2^32, the bytes of the records one after the
    other with one zero byte between two. The bytes of a record are its
    dtype code (negated on a big-endian platform), the number of its
    dimensions (negated when a dimension needs 32 bits), its dimensions as
    16-bit or 32-bit numbers, its data, and for an extra payload the flag 1
    or 2, the length of the payload on 32 bits and the payload. *)
Theorem encode_layout (items : list NDArrayAndExtra)
    (littleEndian : option bool) :
  let le := endianness_eqb host LittleEndian in
  littleEndian = None \/ littleEndian = Some le ->
  items <> [] -> Forall within_limits items ->
  encode items littleEndian = inr (joined le (map (component_for le) items)) /\
  forall item, In item items ->
    let arr := fst item in
    let n := Z.of_nat (length (shape arr)) in
    component_bytes le (component_for le item)
      = [((if le then 1 else -1)
            * default 0 (__DTYPE_FLAGS_ENCODING (dType arr))) mod 256;
         (if bigShape arr then - n else n) mod 256]
        ++ concat (map (uint_bytes host (if bigShape arr then 4 else 2))
                       (shape arr))
        ++ buffer (data arr)
        ++ match snd item with
           | Null => []
           | ArrayBuffer bytes | Uint8ArrayObject bytes =>
               [1] ++ uint_bytes host 4 (byteLength bytes) ++ bytes
           | Object value =>
               [2] ++ uint_bytes host 4 (byteLength (JSON_stringify value))
                   ++ JSON_stringify value
           end.
Proof.
  intros le Hle Hne Hall. split; [by apply encode_for |].
  intros [arr extra] _. cbn [fst snd].
  unfold component_bytes, extra_bytes, component_for, TypedArray_from.
  cbn [fst snd c_i0 c_i1 c_shapeArray c_data c_extraEncoding c_extraLength
       c_extraArray buffer].
  assert (endianness_of le = host) as ->
    by (subst le; by destruct host).
  f_equal; [destruct le; do 2 f_equal; lia |]. f_equal.
  { by destruct (bigShape arr). }
  f_equal. by destruct extra.
Qed.

(** *** The length of the blob *)

Lemma Uint8Array_set_length (target src blob : Uint8Array) (offset : nat) :
  Uint8Array_set target src offset = inr blob -> length blob = length target.
Proof.
  unfold Uint8Array_set.
  destruct (Nat.leb_spec (offset + length src) (length target)); [|done].
  intros [= <-]. len. rewrite length_take, length_drop. lia.
Qed.

Lemma setUint32_at_length (blob blob' : Uint8Array) (offset value : Z)
    (le : bool) :
  setUint32_at blob offset value le = inr blob' -> length blob' = length blob.
Proof.
  unfold setUint32_at.
  destruct ((offset <? 0) || (byteLength blob <? offset + 4)); [done |].
  apply Uint8Array_set_length.
Qed.

Lemma encode_component_length (sameEndian le : bool) (i : nat) (c : component)
    (blob blob' : Uint8Array) (offset offset' : Z) :
  encode_component sameEndian le i c blob offset = inr (blob', offset') ->
  length blob' = length blob.
Proof.
  unfold encode_component.
  set (start := if (0 <? i)%nat
                then (blob_store blob offset 0, offset + 1)
                else (blob, offset)).
  assert (length (fst start) = length blob) as Hstart
    by (subst start; destruct (0 <? i)%nat; cbn [fst];
        by rewrite ?length_blob_store).
  destruct start as [blob0 offset0]. cbn [fst] in Hstart.
  set (blob2 := blob_store (blob_store blob0 offset0 (c_i0 c))
                  (offset0 + 1) (c_i1 c)).
  assert (length blob2 = length blob) as Hl2
    by (subst blob2; by rewrite !length_blob_store).
  clearbody blob2.
  match goal with
  | |- rbind ?written _ = _ -> _ =>
      assert (forall out, written = inr out -> length (fst out) = length blob)
        as Hwritten; [| destruct written as [e|[blob4 offset4]]; [done |]]
  end.
  { intros [blob4 offset4]. cbn [fst]. destruct sameEndian.
    - destruct (Uint8Array_set blob2 _ _) as [e|b3] eqn:E3; [done |].
      cbn [rbind].
      destruct (Uint8Array_set b3 _ _) as [e|b4] eqn:E4; [done |].
      cbn [rbind]. intros [= <- _].
      apply Uint8Array_set_length in E3, E4. congruence.
    - pose proof (swap_elements_spec
                    (Z.to_nat (data_length (c_shapeArray c)))
                    (BYTES_PER_ELEMENT (kind (c_shapeArray c)))
                    (buffer (c_shapeArray c)) blob2 (offset0 + 2)) as [Hl3 _].
      destruct (swap_elements _ _ (buffer (c_shapeArray c)) _ _) as [b3 o3].
      pose proof (swap_elements_spec
                    (Z.to_nat (data_length (c_data c)))
                    (BYTES_PER_ELEMENT (kind (c_data c)))
                    (buffer (c_data c)) b3 o3) as [Hl4 _].
      destruct (swap_elements _ _ (buffer (c_data c)) _ _) as [b4 o4].
      cbn [fst] in *. intros [= <- _]. congruence. }
  specialize (Hwritten _ eq_refl). cbn [fst rbind] in *.
  destruct (0 <? c_extraEncoding c); [| intros [= <- _]; done].
  destruct (c_extraArray c) as [extraArray|]; [|done].
  destruct (setUint32_at _ _ _ _) as [e|b5] eqn:E5; [done |]. cbn [rbind].
  destruct (Uint8Array_set b5 _ _) as [e|b6] eqn:E6; [done |]. cbn [rbind].
  intros [= <- _]. apply setUint32_at_length in E5.
  apply Uint8Array_set_length in E6. rewrite length_blob_store in E5.
  congruence.
Qed.

Lemma encode_components_length (sameEndian le : bool) (cs : list component) :
  forall (i : nat) (blob blob' : Uint8Array) (offset offset' : Z),
  encode_components sameEndian le i cs blob offset = inr (blob', offset') ->
  length blob' = length blob.
Proof.
  induction cs as [|c cs IH]; intros i blob blob' offset offset'.
  - by intros [= <- _].
  - cbn [encode_components].
    destruct (encode_component _ _ _ _ _ _) as [e|[b1 o1]] eqn:E; [done |].
    cbn [rbind fst snd]. intros Hrest. apply IH in Hrest.
    apply encode_component_length in E. congruence.
Qed.

(** What the first loop of [encode] has counted when it does not throw. *)
Lemma encode_item_counts (le : bool) (item : NDArrayAndExtra) (blobLength : Z)
    (blobComponents : list component) (out : Z * list component) :
  encode_item le item blobLength blobComponents = inr out ->
  fst out = blobLength + encoded_size item /\
  length (snd out) = S (length blobComponents).
Proof.
  destruct item as [arr extra]. unfold encode_item, encoded_size, bigShape.
  cbn [fst snd].
  destruct (__DTYPE_FLAGS_ENCODING (dType arr)) as [code|]; [|done].
  destruct (code =? 0); [done |]. cbn [rbind].
  destruct (128 <? Z.of_nat (length (shape arr))); [done |].
  pose proof (length_TypedArray_from Uint16 (shape arr)) as H16.
  pose proof (length_TypedArray_from Uint32 (shape arr)) as H32.
  unfold TypedArray_from, data_byteLength in *.
  cbn [BYTES_PER_ELEMENT buffer] in *.
  destruct (max_lt (Math_max (shape arr)) 65536); cbn [rbind negb].
  - destruct extra; intros [= E]; subst out; cbn [fst snd];
      rewrite length_app; cbn [length]; unfold byteLength in *; split; lia.
  - destruct (max_lt (Math_max (shape arr)) 4294967296); [|done].
    cbn [rbind].
    destruct extra; intros [= E]; subst out; cbn [fst snd];
      rewrite length_app; cbn [length]; unfold byteLength in *; split; lia.
Qed.

Lemma encode_items_counts (le : bool) (items : list NDArrayAndExtra) :
  forall (blobLength : Z) (blobComponents : list component)
         (out : Z * list component),
  encode_items le items blobLength blobComponents = inr out ->
  fst out = blobLength + fold_right Z.add 0 (map encoded_size items) /\
  length (snd out) = (length blobComponents + length items)%nat.
Proof.
  induction items as [|item items IH]; intros L cs out.
  - intros [= E]. subst out. cbn. split; lia.
  - cbn [encode_items].
    destruct (encode_item le item L cs) as [e|st] eqn:E; [done |].
    cbn [rbind]. intros Hrest. apply IH in Hrest as [H1 H2].
    apply encode_item_counts in E as [E1 E2].
    cbn [map fold_right length]. split; lia.
Qed.

(** X7: on every platform and for every byte order asked for, a blob that
    [encode] returns has the length the first loop has counted: for each
    record two bytes of header, two or four bytes for each dimension, the
    bytes of the data, and five bytes and the payload when there is an extra
    payload; and one byte between two records. And [encode] returns a blob
    for every non-empty sequence of records of at most 128 dimensions below
    2^32. *)
Theorem encode_size (items : list NDArrayAndExtra)
    (littleEndian : option bool) :
  (forall blob, encode items littleEndian = inr blob ->
                byteLength blob = blob_size items) /\
  (items <> [] -> Forall within_limits items ->
   exists blob, encode items littleEndian = inr blob).
Proof.
  split; [|intros Hne Hall; by apply encode_accepts].
  intros blob. unfold encode.
  destruct (match littleEndian with
            | None => (true, endianness_eqb __SYS_ENDIAN LittleEndian)
            | Some le => (eqb le (endianness_eqb __SYS_ENDIAN LittleEndian), le)
            end) as [sameEndian le].
  destruct (encode_items le items 0 []) as [e|[blobLength cs]] eqn:E;
    [done |].
  apply encode_items_counts in E as [E1 E2]. cbn [fst snd length] in *.
  cbn [rbind]. unfold Uint8Array_new.
  destruct (Z.ltb_spec (blobLength + Z.of_nat (length cs) - 1) 0) as [|Hpos];
    [done |].
  cbn [rbind].
  destruct (encode_components _ _ _ _ _ _) as [e|[blob' offset']] eqn:Ec;
    [done |].
  cbn [rbind fst]. intros [= <-].
  apply encode_components_length in Ec. rewrite length_replicate in Ec.
  unfold byteLength, blob_size. lia.
Qed.

(** *** Records that [encode] refuses *)

Lemma fold_left_max_ge (xs : list Z) (x : Z) :
  x <= fold_left Z.max xs x /\ Forall (fun d => d <= fold_left Z.max xs x) xs.
Proof.
  revert x. induction xs as [|y ys IH]; intros x; cbn [fold_left].
  - split; [lia | constructor].
  - destruct (IH (Z.max x y)) as [H1 H2]. split; [lia |].
    constructor; [lia | done].
Qed.

Lemma max_lt_large (xs : list Z) (d bound : Z) :
  In d xs -> bound <= d -> max_lt (Math_max xs) bound = false.
Proof.
  destruct xs as [|x xs]; [done |]. intros Hin Hd. cbn [Math_max max_lt].
  apply Z.ltb_ge. destruct (fold_left_max_ge xs x) as [Hx Hxs].
  destruct Hin as [-> | Hin]; [lia |].
  rewrite Forall_forall in Hxs. apply list_elem_of_In in Hin.
  specialize (Hxs _ Hin). cbn beta in Hxs. lia.
Qed.

(** The first loop of [encode] throws nothing but [Error]. *)
Lemma encode_item_throws (le : bool) (item : NDArrayAndExtra) (blobLength : Z)
    (blobComponents : list component) (e : exn) :
  encode_item le item blobLength blobComponents = inl e -> e = Error.
Proof.
  destruct item as [arr extra]. unfold encode_item.
  destruct (__DTYPE_FLAGS_ENCODING (dType arr)) as [code|];
    [|by intros [= <-]].
  destruct (code =? 0); [by intros [= <-] |]. cbn [rbind].
  destruct (128 <? Z.of_nat (length (shape arr))); [by intros [= <-] |].
  destruct (max_lt (Math_max (shape arr)) 65536); cbn [rbind].
  - by destruct extra.
  - destruct (max_lt (Math_max (shape arr)) 4294967296); cbn [rbind].
    + by destruct extra.
    + by intros [= <-].
Qed.

Lemma encode_item_refuses (le : bool) (arr : NDArray) (extra : Extra)
    (blobLength : Z) (blobComponents : list component) :
  (128 < length (shape arr))%nat \/
  (exists d, In d (shape arr) /\ 2 ^ 32 <= d) ->
  encode_item le (arr, extra) blobLength blobComponents = inl Error.
Proof.
  intros Hbad. unfold encode_item.
  destruct (encoding_code (dType arr)) as (code & -> & Hcode & _).
  destruct (Z.eqb_spec code 0); [lia |]. cbn [rbind].
  destruct (Z.ltb_spec 128 (Z.of_nat (length (shape arr)))) as [|Hdims];
    [done |].
  destruct Hbad as [Hbig | (d & Hin & Hd)]; [lia |].
  rewrite (max_lt_large _ d 65536), (max_lt_large _ d 4294967296); [done | ..];
    (done || lia).
Qed.

Lemma encode_items_refuses (le : bool) (items : list NDArrayAndExtra)
    (arr : NDArray) (extra : Extra) :
  forall (blobLength : Z) (blobComponents : list component),
  In (arr, extra) items ->
  (128 < length (shape arr))%nat \/
  (exists d, In d (shape arr) /\ 2 ^ 32 <= d) ->
  encode_items le items blobLength blobComponents = inl Error.
Proof.
  induction items as [|x items IH]; intros L cs Hin Hbad; [done |].
  cbn [encode_items]. destruct (encode_item le x L cs) as [e|st] eqn:E.
  - apply encode_item_throws in E as ->. done.
  - cbn [rbind]. destruct Hin as [-> | Hin]; [|by apply IH].
    by rewrite encode_item_refuses in E.
Qed.

(** X8: [encode] throws an [Error], and returns no blob, as soon as one of
    the records has more than 128 dimensions or a dimension of 2^32 or more,
    wherever the record stands in the sequence, on every platform and for
    every byte order asked for. *)
Theorem encode_refuses (items : list NDArrayAndExtra) (arr : NDArray)
    (extra : Extra) (littleEndian : option bool) :
  In (arr, extra) items ->
  (128 < length (shape arr))%nat \/
  (exists d, In d (shape arr) /\ 2 ^ 32 <= d) ->
  encode items littleEndian = inl Error.
Proof.
  intros Hin Hbad. unfold encode.
  destruct (match littleEndian with
            | None => (true, endianness_eqb __SYS_ENDIAN LittleEndian)
            | Some le => (eqb le (endianness_eqb __SYS_ENDIAN LittleEndian), le)
            end) as [sameEndian le].
  by rewrite (encode_items_refuses le items arr extra 0 [] Hin Hbad).
Qed.

(** *** Blobs put together *)

Lemma joined_append (le : bool) (cs cs' : list component) :
  cs <> [] -> cs' <> [] ->
  joined le (cs ++ cs') = joined le cs ++ 0 :: joined le cs'.
Proof.
  intros Hcs Hcs'. destruct cs as [|c cs]; [done |].
  destruct cs' as [|c' cs']; [done |].
  cbn [joined app]. rewrite map_app, concat_app. cbn [map concat].
  by rewrite <- !app_assoc.
Qed.

(** X9: when it writes in the byte order of the platform, [encode] of two
    sequences of records one after the other returns the blob of the first,
    a zero byte and the blob of the second: blobs are joined as the
    test-suite joins them. *)
Theorem encode_app (items1 items2 : list NDArrayAndExtra)
    (littleEndian : option bool) :
  littleEndian = None \/
  littleEndian = Some (endianness_eqb host LittleEndian) ->
  items1 <> [] -> items2 <> [] ->
  Forall within_limits items1 -> Forall within_limits items2 ->
  exists blob1 blob2,
    encode items1 littleEndian = inr blob1 /\
    encode items2 littleEndian = inr blob2 /\
    encode (items1 ++ items2) littleEndian = inr (blob1 ++ 0 :: blob2).
Proof.
  intros Hle H1 H2 Hall1 Hall2.
  eexists _, _. split; [by apply encode_for |]. split; [by apply encode_for |].
  rewrite encode_for;
    [| done | by destruct items1 | by apply Forall_app].
  rewrite map_app, joined_append; [done | by destruct items1
                                  | by destruct items2].
Qed.

Section Portable.
Hypothesis little_host : host = LittleEndian.

(** X10: on a little-endian platform, [decode] of the blob of a sequence of
    records, a zero byte and the blob of another sequence returns the
    records that it returns from the first blob and then those that it
    returns from the second. *)
Theorem decode_app (items1 items2 : list NDArrayAndExtra)
    (littleEndian : option bool) :
  littleEndian = None \/ littleEndian = Some true ->
  items1 <> [] -> items2 <> [] ->
  Forall valid_item items1 -> Forall valid_item items2 ->
  exists blob1 blob2 records1 records2,
    encode items1 littleEndian = inr blob1 /\
    encode items2 littleEndian = inr blob2 /\
    decode blob1 = Some (inr records1) /\
    decode blob2 = Some (inr records2) /\
    decode (blob1 ++ 0 :: blob2) = Some (inr (records1 ++ records2)).
Proof.
  intros Hle H1 H2 Hall1 Hall2.
  destruct (decode_encode_decoded little_host items1 littleEndian Hle H1 Hall1)
    as (blob1 & Henc1 & -> & Hdec1).
  destruct (decode_encode_decoded little_host items2 littleEndian Hle H2 Hall2)
    as (blob2 & Henc2 & -> & Hdec2).
  eexists _, _, _, _. split; [exact Henc1 |]. split; [exact Henc2 |].
  unfold decode. rewrite Hdec1, Hdec2. split; [done |]. split; [done |].
  rewrite <- joined_append, <- map_app;
    [| by destruct items1 | by destruct items2].
  rewrite (parse_joined little_host);
    [by rewrite map_app | by destruct items1 | by apply Forall_app].
Qed.

(** X11: on a little-endian platform, encoding again the records that
    [decode] returned from a blob of [encode] gives that blob again, for
    records that are not tagged float16. *)
Theorem encode_decode_encode (items : list NDArrayAndExtra)
    (littleEndian : option bool) :
  littleEndian = None \/ littleEndian = Some true ->
  items <> [] ->
  Forall valid_item items ->
  Forall (fun item => plain_data (fst item)) items ->
  exists blob records,
    encode items littleEndian = inr blob /\
    decode blob = Some (inr records) /\
    encode records littleEndian = inr blob.
Proof.
  intros Hle Hne Hall Hplain.
  destruct (decode_encode_decoded little_host items littleEndian Hle Hne Hall)
    as (blob & Henc & Hblob & Hdec).
  exists blob, (map decoded items). split; [done |].
  split; [unfold decode; by rewrite Hdec |].
  pose proof (encode_same (map decoded items) littleEndian) as He.
  cbv zeta in He. rewrite (little_flag little_host) in He.
  rewrite He; [| by destruct items | | done].
  - rewrite Hblob, map_map. do 2 f_equal. apply map_ext_Forall.
    rewrite Forall_forall in Hplain. apply Forall_forall.
    intros [arr extra] Hin. specialize (Hplain _ Hin). cbn [fst] in Hplain.
    unfold decoded, component_of. cbn [fst snd].
    rewrite decoded_array_plain by done. by destruct extra.
  - rewrite Forall_forall in Hall, Hplain. apply Forall_forall.
    intros item' Hin. apply list_elem_of_fmap in Hin as ([arr extra] & -> & Hin).
    destruct (Hall _ Hin) as ((Hd & _) & Hs & _).
    specialize (Hplain _ Hin). cbn [fst] in *.
    unfold decoded. cbn [fst snd]. by rewrite decoded_array_plain.
Qed.
End Portable.

(** *** Blobs written in big-endian *)

Lemma blob_store_head (blob : Uint8Array) (index value : Z) :
  1 <= index -> take 1 (blob_store blob index value) = take 1 blob.
Proof.
  intros H. unfold blob_store. destruct (Z.ltb_spec index 0); [done |].
  apply take_insert_ge. lia.
Qed.

Lemma Uint8Array_set_head (target src blob : Uint8Array) (offset : nat) :
  (1 <= offset)%nat ->
  Uint8Array_set target src offset = inr blob -> take 1 blob = take 1 target.
Proof.
  intros Hoff. unfold Uint8Array_set.
  destruct (Nat.leb_spec (offset + length src) (length target)); [|done].
  intros [= <-]. rewrite take_app_le by (rewrite length_take; lia).
  rewrite take_take. f_equal. lia.
Qed.

Lemma swap_element_head (n : nat) (j step offset : Z)
    (source blob : Uint8Array) :
  1 <= offset + j ->
  take 1 (swap_element n j step offset source blob) = take 1 blob.
Proof.
  revert j blob. induction n as [|n IH]; intros j blob Hj; cbn; [done |].
  rewrite IH by lia. by apply blob_store_head.
Qed.

Lemma swap_elements_head (count : nat) (step : Z) (source blob : Uint8Array)
    (offset : Z) :
  1 <= offset -> 0 <= step ->
  take 1 (fst (swap_elements count step source blob offset)) = take 1 blob.
Proof.
  revert blob offset. induction count as [|count IH];
    intros blob offset Hoff Hstep; cbn [swap_elements]; [done |].
  rewrite IH by lia. apply swap_element_head. lia.
Qed.

Lemma BYTES_PER_ELEMENT_pos (k : ArrayKind) : 0 < BYTES_PER_ELEMENT k.
Proof. by destruct k. Qed.

(** What an entry leaves at the front of the blob: the first entry its byte
    [i0], and the others what was there. *)
Lemma encode_component_head (sameEndian le : bool) (i : nat) (c : component)
    (blob blob' : Uint8Array) (offset offset' : Z) :
  encode_component sameEndian le i c blob offset = inr (blob', offset') ->
  0 <= offset ->
  offset + 2 <= offset' /\
  (1 <= offset -> take 1 blob' = take 1 blob) /\
  (offset = 0 -> i = 0%nat ->
   take 1 blob' = take 1 (blob_store blob 0 (c_i0 c))).
Proof.
  unfold encode_component. intros Hrun Hoff.
  set (start := if (0 <? i)%nat
                then (blob_store blob offset 0, offset + 1)
                else (blob, offset)) in Hrun.
  set (blob2 := blob_store (blob_store (fst start) (snd start) (c_i0 c))
                  (snd start + 1) (c_i1 c)).
  assert (offset <= snd start /\
          (1 <= offset -> take 1 blob2 = take 1 blob) /\
          (offset = 0 -> i = 0%nat ->
           take 1 blob2 = take 1 (blob_store blob 0 (c_i0 c))))
    as (Hs & Hkeep & Hfirst).
  { subst blob2 start. destruct (0 <? i)%nat eqn:Ei; cbn [fst snd].
    - split; [lia |]. split.
      + intros H1. by rewrite !blob_store_head by lia.
      + intros _ ->. done.
    - split; [lia |]. split.
      + intros H1. by rewrite !blob_store_head by lia.
      + intros -> _. by rewrite blob_store_head by lia. }
  destruct start as [blob0 offset0]. cbn [fst snd] in *.
  fold blob2 in Hrun. clearbody blob2.
  match type of Hrun with
  | rbind ?written _ = _ =>
      assert (forall out, written = inr out ->
                take 1 (fst out) = take 1 blob2 /\ offset0 + 2 <= snd out)
        as Hwritten; [| destruct written as [e|[blob4 offset4]]; [done |]]
  end.
  { intros [blob4 offset4]. cbn [fst snd]. destruct sameEndian.
    - destruct (Uint8Array_set blob2 _ _) as [e|b3] eqn:E3; [done |].
      cbn [rbind].
      destruct (Uint8Array_set b3 _ _) as [e|b4] eqn:E4; [done |].
      cbn [rbind]. intros [= <- <-].
      unfold data_byteLength, byteLength in *.
      apply Uint8Array_set_head in E3; [|lia].
      apply Uint8Array_set_head in E4; [|lia]. split; [congruence | lia].
    - pose proof (BYTES_PER_ELEMENT_pos (kind (c_shapeArray c))).
      pose proof (BYTES_PER_ELEMENT_pos (kind (c_data c))).
      pose proof (swap_elements_spec
                    (Z.to_nat (data_length (c_shapeArray c)))
                    (BYTES_PER_ELEMENT (kind (c_shapeArray c)))
                    (buffer (c_shapeArray c)) blob2 (offset0 + 2)) as [_ Ho3].
      pose proof (swap_elements_head
                    (Z.to_nat (data_length (c_shapeArray c)))
                    (BYTES_PER_ELEMENT (kind (c_shapeArray c)))
                    (buffer (c_shapeArray c)) blob2 (offset0 + 2)) as Hh3.
      destruct (swap_elements _ _ (buffer (c_shapeArray c)) _ _) as [b3 o3].
      cbn [fst snd] in *.
      pose proof (swap_elements_spec
                    (Z.to_nat (data_length (c_data c)))
                    (BYTES_PER_ELEMENT (kind (c_data c)))
                    (buffer (c_data c)) b3 o3) as [_ Ho4].
      pose proof (swap_elements_head
                    (Z.to_nat (data_length (c_data c)))
                    (BYTES_PER_ELEMENT (kind (c_data c)))
                    (buffer (c_data c)) b3 o3) as Hh4.
      destruct (swap_elements _ _ (buffer (c_data c)) _ _) as [b4 o4].
      cbn [fst snd] in *. intros [= <- <-].
      rewrite Hh4, Hh3 by nia. split; [done | nia]. }
  destruct (Hwritten _ eq_refl) as [Hh4 Ho4]. cbn [fst snd rbind] in *.
  assert (take 1 blob' = take 1 blob4 /\ offset4 <= offset') as [Hh Ho].
  { destruct (0 <? c_extraEncoding c); [| by injection Hrun as <- <-].
    destruct (c_extraArray c) as [extraArray|]; [|done].
    unfold setUint32_at in Hrun.
    destruct ((offset4 + 1 <? 0) || _); [done |].
    destruct (Uint8Array_set (blob_store _ _ _) _ _) as [e|b5] eqn:E5;
      [done |].
    cbn [rbind] in Hrun.
    destruct (Uint8Array_set b5 _ _) as [e|b6] eqn:E6; [done |].
    cbn [rbind] in Hrun. injection Hrun as <- <-.
    apply Uint8Array_set_head in E5; [|lia].
    apply Uint8Array_set_head in E6; [|lia].
    rewrite blob_store_head in E5 by lia. unfold byteLength.
    split; [congruence | lia]. }
  split; [lia |]. split.
  - intros H1. rewrite Hh, Hh4. by apply Hkeep.
  - intros H0 Hi. rewrite Hh, Hh4. by apply Hfirst.
Qed.

Lemma encode_components_head (sameEndian le : bool) (cs : list component) :
  forall (i : nat) (blob blob' : Uint8Array) (offset offset' : Z),
  encode_components sameEndian le i cs blob offset = inr (blob', offset') ->
  1 <= offset -> take 1 blob' = take 1 blob.
Proof.
  induction cs as [|c cs IH]; intros i blob blob' offset offset' Hrun Hoff.
  - by injection Hrun as <- _.
  - cbn [encode_components] in Hrun.
    destruct (encode_component _ _ _ _ _ _) as [e|[b1 o1]] eqn:E; [done |].
    cbn [rbind fst snd] in Hrun.
    apply encode_component_head in E as (Ho & Hkeep & _); [|lia].
    apply IH in Hrun; [|lia]. rewrite Hrun. by apply Hkeep.
Qed.

(** The first entry of [blobComponents] holds the dtype code of the first
    record, with the sign of the byte order. *)
Lemma encode_item_first (le : bool) (item : NDArrayAndExtra) (blobLength : Z)
    (out : Z * list component) :
  encode_item le item blobLength [] = inr out ->
  exists code c, 1 <= code <= 11 /\ snd out = [c] /\
                 c_i0 c = if le then code else - code.
Proof.
  destruct item as [arr extra]. unfold encode_item.
  destruct (encoding_code (dType arr)) as (code & -> & Hcode & _).
  destruct (code =? 0); [done |]. cbn [rbind].
  destruct (128 <? Z.of_nat (length (shape arr))); [done |].
  destruct (max_lt (Math_max (shape arr)) 65536); cbn [rbind].
  - destruct extra; intros [= E]; subst out; cbn [snd app];
      eexists code, _; (split; [done |]); split; done.
  - destruct (max_lt (Math_max (shape arr)) 4294967296); [|done].
    cbn [rbind].
    destruct extra; intros [= E]; subst out; cbn [snd app];
      eexists code, _; (split; [done |]); split; done.
Qed.

Lemma encode_item_pushes (le : bool) (item : NDArrayAndExtra) (blobLength : Z)
    (blobComponents : list component) (out : Z * list component) :
  encode_item le item blobLength blobComponents = inr out ->
  exists c, snd out = blobComponents ++ [c].
Proof.
  destruct item as [arr extra]. unfold encode_item.
  destruct (__DTYPE_FLAGS_ENCODING (dType arr)) as [code|]; [|done].
  destruct (code =? 0); [done |]. cbn [rbind].
  destruct (128 <? Z.of_nat (length (shape arr))); [done |].
  destruct (max_lt (Math_max (shape arr)) 65536); cbn [rbind].
  - destruct extra; intros [= E]; subst out; cbn [snd]; by eexists.
  - destruct (max_lt (Math_max (shape arr)) 4294967296); [|done].
    cbn [rbind].
    destruct extra; intros [= E]; subst out; cbn [snd]; by eexists.
Qed.

Lemma encode_items_pushes (le : bool) (items : list NDArrayAndExtra) :
  forall (blobLength : Z) (blobComponents : list component)
         (out : Z * list component),
  encode_items le items blobLength blobComponents = inr out ->
  exists more, snd out = blobComponents ++ more.
Proof.
  induction items as [|item items IH]; intros L cs out.
  - intros [= E]. subst out. exists []. by rewrite app_nil_r.
  - cbn [encode_items].
    destruct (encode_item le item L cs) as [e|st] eqn:E; [done |].
    cbn [rbind]. intros Hrest. apply IH in Hrest as [more ->].
    apply encode_item_pushes in E as [c ->].
    exists (c :: more). by rewrite <- app_assoc.
Qed.

Lemma encoded_size_header (item : NDArrayAndExtra) : 2 <= encoded_size item.
Proof.
  unfold encoded_size, data_byteLength, byteLength.
  destruct (snd item), (bigShape (fst item)); lia.
Qed.

(** X12: [decode] refuses every blob that [encode] has written in
    big-endian, whether that order was asked for or is the one of the
    platform: the first byte of such a blob is 256 minus a dtype code, which
    [decode] reads as a code of 245 or more, and it throws an [Error]. *)
Theorem big_endian_blob_refused (items : list NDArrayAndExtra)
    (littleEndian : option bool) (blob : Uint8Array) :
  littleEndian = Some false \/ (littleEndian = None /\ host = BigEndian) ->
  encode items littleEndian = inr blob ->
  decode blob = Some (inl Error).
Proof.
  intros Hle. unfold encode. rewrite host_endian.
  assert (exists sameEndian,
    (match littleEndian with
     | None => (true, endianness_eqb host LittleEndian)
     | Some le => (eqb le (endianness_eqb host LittleEndian), le)
     end) = (sameEndian, false)) as [sameEndian ->].
  { destruct Hle as [-> | [-> ->]]; eauto. }
  destruct (encode_items false items 0 []) as [e|[blobLength cs]] eqn:E;
    [done |].
  cbn [rbind].
  pose proof (encode_items_counts _ _ _ _ _ E) as [E1 E2].
  cbn [fst snd length] in E1, E2.
  destruct items as [|item items].
  { cbn in E. injection E as <- <-. done. }
  cbn [encode_items] in E.
  destruct (encode_item false item 0 []) as [e|st] eqn:Ei; [done |].
  cbn [rbind] in E.
  apply encode_item_first in Ei as (code & c & Hcode & Est & Hi0).
  apply encode_items_pushes in E as [more Ecs]. cbn [snd] in Ecs.
  rewrite Est in Ecs. cbn [app] in Ecs. subst cs.
  pose proof (encoded_size_header item) as Hsize.
  assert (0 <= fold_right Z.add 0 (map encoded_size items)) as Hsum.
  { clear. induction items as [|x xs IH]; cbn; [lia |].
    pose proof (encoded_size_header x). lia. }
  cbn [map fold_right length] in *.
  unfold Uint8Array_new.
  destruct (Z.ltb_spec (blobLength + Z.of_nat (S (length more)) - 1) 0);
    [lia |].
  cbn [rbind encode_components].
  set (N := Z.to_nat (blobLength + Z.of_nat (S (length more)) - 1)).
  destruct (encode_component sameEndian false 0 c (replicate N 0) 0)
    as [e|[b1 o1]] eqn:Ec; [done |].
  cbn [rbind fst snd].
  destruct (encode_components sameEndian false 1 more b1 o1)
    as [e|[b2 o2]] eqn:Ecs; [done |].
  cbn [rbind fst]. intros [= <-].
  pose proof (encode_component_length _ _ _ _ _ _ _ _ Ec) as Hl1.
  pose proof (encode_components_length _ _ _ _ _ _ _ _ Ecs) as Hl2.
  rewrite length_replicate in Hl1.
  apply encode_component_head in Ec as (Ho1 & _ & Hfirst); [|lia].
  apply encode_components_head in Ecs; [|lia].
  rewrite (Hfirst eq_refl eq_refl) in Ecs.
  destruct b2 as [|b0 [|b1' rest]]; [cbn in *; lia.. |].
  assert (b0 = 256 - code) as ->.
  { unfold blob_store in Ecs. cbn [Z.ltb Z.compare Z.to_nat] in Ecs.
    assert (N = S (N - 1)) as EN by (cbn [length] in Hl2; lia).
    rewrite EN in Ecs. cbn in Ecs. injection Ecs as ->.
    rewrite Hi0. rewrite <- (Z.mod_add _ 1) by lia.
    rewrite Z.mod_small; lia. }
  apply (decode_by_loop _ 1 (inl Error, Parser (queue_of rest)
                                          ([] ++ [[256 - code; b1']]) []));
    [|cbn [length]; lia].
  cbn [while_loop chunks length Nat.ltb Nat.leb].
  destruct (loop_body_header (256 - code) b1' rest [] []) as [Hturn _].
  by rewrite Hturn by lia.
Qed.

(** *** Half precision *)

Lemma increasing_from_step (n : nat) (r k : Z) :
  increasing_from n r = true -> r <= k < r + Z.of_nat n ->
  float32_bits (castFloat16 k) < float32_bits (castFloat16 (k + 1)).
Proof.
  revert r. induction n as [|n IH]; intros r Hinc Hk; [lia |].
  cbn [increasing_from] in Hinc. apply andb_true_iff in Hinc as [Hr Hrest].
  destruct (Z.eq_dec k r) as [-> | Hne]; [by apply Z.ltb_lt |].
  apply (IH (r + 1)); [done | lia].
Qed.

Lemma mirrored_from_step (n : nat) (r k : Z) :
  mirrored_from n r = true -> r <= k < r + Z.of_nat n ->
  float32_bits (castFloat16 (k + 0x8000))
    = float32_bits (castFloat16 k) + 2 ^ 31.
Proof.
  revert r. induction n as [|n IH]; intros r Hinc Hk; [lia |].
  cbn [mirrored_from] in Hinc. apply andb_true_iff in Hinc as [Hr Hrest].
  destruct (Z.eq_dec k r) as [-> | Hne]; [by apply Z.eqb_eq |].
  apply (IH (r + 1)); [done | lia].
Qed.

Lemma increasing_halves : increasing_from (Z.to_nat 0x7c00) 0 = true.
Proof. vm_compute. reflexivity. Qed.

Lemma mirrored_halves : mirrored_from (Z.to_nat (0x7c00 + 1)) 0 = true.
Proof. vm_compute. reflexivity. Qed.

(** X13: the conversion of half precision to single precision loses
    nothing. From the pattern of zero to the pattern of infinity (0x7c00),
    a larger 16-bit pattern is stored as a larger 32-bit pattern in the
    [Float32Array], so that two patterns are never stored alike; the
    pattern with the sign bit set is stored as the same number with the
    sign bit set; and zero, one and infinity are stored as zero, one and
    infinity. *)
Theorem castFloat16_exact :
  (forall r1 r2, 0 <= r1 -> r1 < r2 -> r2 <= 0x7c00 ->
     float32_bits (castFloat16 r1) < float32_bits (castFloat16 r2)) /\
  (forall r, 0 <= r <= 0x7c00 ->
     float32_bits (castFloat16 (r + 0x8000))
       = float32_bits (castFloat16 r) + 2 ^ 31) /\
  float32_bits (castFloat16 0) = 0 /\
  float32_bits (castFloat16 0x3c00) = 0x3f800000 /\
  float32_bits (castFloat16 0x7c00) = 0x7f800000.
Proof.
  split; [|split; [|done]].
  - intros r1 r2 H1 H12 H2.
    assert (forall n : nat,
      r1 + 1 + Z.of_nat n <= 0x7c00 ->
      float32_bits (castFloat16 r1)
        < float32_bits (castFloat16 (r1 + 1 + Z.of_nat n))) as Hgap.
    { induction n as [|n IH]; intros Hn.
      - rewrite Z.add_0_r.
        apply (increasing_from_step _ 0 _ increasing_halves). lia.
      - pose proof (increasing_from_step _ 0 (r1 + 1 + Z.of_nat n)
                      increasing_halves) as Hstep.
        replace (r1 + 1 + Z.of_nat (S n)) with (r1 + 1 + Z.of_nat n + 1)
          by lia.
        specialize (IH ltac:(lia)). specialize (Hstep ltac:(lia)). lia. }
    replace r2 with (r1 + 1 + Z.of_nat (Z.to_nat (r2 - r1 - 1))) by lia.
    apply Hgap. lia.
  - intros r Hr.
    apply (mirrored_from_step _ 0 _ mirrored_halves). lia.
Qed.

(** X14: [parseFloat16ArrayBuffer] throws an [Error] on a buffer of odd
    length. On a buffer of even length, when no byte order is given, or
    little-endian on a little-endian platform, it returns a [Float32Array]
    of one element for each two bytes; with any other byte order it throws
    a [TypeError] as soon as the buffer is not empty, for the [getUint16] it
    calls has been taken off its [DataView]. *)
Theorem parseFloat16ArrayBuffer_outcomes (buf : Uint8Array)
    (littleEndian : option bool) :
  (byteLength buf mod 2 <> 0 ->
   parseFloat16ArrayBuffer buf littleEndian = inl Error) /\
  (byteLength buf mod 2 = 0 ->
   littleEndian = None \/ (littleEndian = Some true /\ host = LittleEndian) ->
   exists arr,
     parseFloat16ArrayBuffer buf littleEndian = inr arr /\
     kind arr = Float32 /\
     data_length arr = byteLength buf / 2 /\
     data_byteLength arr = 2 * byteLength buf) /\
  (byteLength buf mod 2 = 0 -> buf <> [] ->
   littleEndian = Some false \/ (littleEndian = Some true /\ host = BigEndian) ->
   parseFloat16ArrayBuffer buf littleEndian = inl TypeError).
Proof.
  unfold parseFloat16ArrayBuffer. split; [|split].
  - intros Hodd. by destruct (Z.eqb_spec (byteLength buf mod 2) 0).
  - intros Heven Hle. rewrite Heven. cbn [Z.eqb negb].
    assert (match littleEndian with
            | None => true
            | Some le => le && endianness_eqb __SYS_ENDIAN LittleEndian
            end = true) as ->.
    { rewrite host_endian. by destruct Hle as [-> | [-> ->]]. }
    eexists. split; [done |]. split; [done |].
    unfold data_length, data_byteLength, byteLength. cbn [kind buffer].
    rewrite (length_concat_map _ 4) by (intros; apply length_uint_bytes).
    unfold uint_elements. cbn [kind buffer BYTES_PER_ELEMENT].
    rewrite length_map.
    assert (forall n w bs, length (groups n w bs) = n) as ->
      by (clear; induction n; intros; cbn; [done | by rewrite IHn]).
    change (Z.to_nat 2) with 2%nat.
    unfold byteLength in Heven.
    assert (Z.of_nat (length buf `div` 2) = Z.of_nat (length buf) / 2) as Hdiv
      by (rewrite Nat2Z.inj_div; done).
    rewrite Nat2Z.inj_mul, Hdiv. split.
    + rewrite Z.mul_comm, Z.div_mul; lia.
    + Z.div_mod_to_equations. lia.
  - intros Heven Hne Hle. rewrite Heven. cbn [Z.eqb negb].
    assert (match littleEndian with
            | None => true
            | Some le => le && endianness_eqb __SYS_ENDIAN LittleEndian
            end = false) as ->.
    { rewrite host_endian. by destruct Hle as [-> | [-> ->]]. }
    assert (exists n, Z.to_nat (data_length
              {| kind := Uint16; buffer := buf |}) = S n) as [n ->].
    { unfold data_length, byteLength in *. cbn [kind buffer BYTES_PER_ELEMENT].
      destruct buf as [|a [|b rest]]; [done | done |].
      exists (Z.to_nat (Z.of_nat (length (a :: b :: rest)) / 2) - 1)%nat.
      cbn [length] in *. Z.div_mod_to_equations. lia. }
    done.
Qed.

(** *** The stream over a source *)

Lemma parse_into_nes_returns (s : stream) :
  exists r s', parse_into_nes s = Some (r, s') /\
    streamDone s' = streamDone s /\ source s' = source s /\
    delivered s' = delivered s /\ state s' = state s /\
    match r with
    | inl _ => nes s' = nes s
    | inr _ => True
    end.
Proof.
  unfold parse_into_nes.
  destruct (parse_returns (queue s)) as [[[e|parsed] q] ->];
    eexists _, _; (split; [done |]); cbn; done.
Qed.

Lemma read_loop_returns (src : list Uint8Array) :
  forall s : stream,
  streamDone s = false ->
  exists r s', read_loop src s = Some (r, s') /\
    (exists k, source s' = drop k src) /\
    (streamDone s' = true -> source s' = []) /\
    delivered s' = delivered s /\ state s' = state s /\
    match r with
    | inl _ => nes s' = []
    | inr _ => True
    end.
Proof.
  induction src as [|chunk src IH]; intros s Hdone.
  - cbn [read_loop]. destruct (length (nes s) =? 0)%nat.
    + eexists _, _. split; [done |]. cbn. split; [by exists 0%nat | done].
    + eexists _, _. split; [done |]. cbn.
      split; [by exists 0%nat |]. split; [congruence | done].
  - cbn [read_loop]. destruct (length (nes s) =? 0)%nat eqn:Enes.
    + set (s0 := Stream (queue s ++ [chunk]) (nes s) (streamDone s) src
                   (delivered s) (state s)).
      destruct (parse_into_nes_returns s0)
        as (r & s1 & -> & Hd1 & Hs1 & Hdel1 & Hst1 & Hr).
      subst s0. cbn [streamDone source delivered state nes] in *.
      destruct r as [e|[]].
      * eexists _, _. split; [done |]. rewrite Hs1, Hd1, Hdel1, Hst1.
        split; [by exists 1%nat |]. split; [congruence |].
        split; [done |]. split; [done |]. rewrite Hr.
        apply Nat.eqb_eq in Enes. by destruct (nes s).
      * destruct (IH s1) as (r & s2 & Hrun & [k Hk] & Hd2 & Hdel2 & Hst2 & Hr2);
          [by rewrite Hd1 |].
        eexists _, _. split; [exact Hrun |].
        split; [by exists (S k) |]. split; [done |].
        split; [congruence |]. split; [congruence | done].
    + eexists _, _. split; [done |]. cbn.
      split; [by exists 0%nat |]. split; [congruence | done].
Qed.

Ltac settle :=
  split_and!;
  first [ done | by eauto | by (exists []; rewrite app_nil_r) | by eexists ].

(** One pull keeps what holds between two pulls, and takes nothing back of
    what was delivered. *)
Lemma pull_between (src : list Uint8Array) (s : stream) :
  between_pulls src s -> state s = Readable ->
  exists s', pull s = Some s' /\ between_pulls src s' /\
             exists more, delivered s' = delivered s ++ more.
Proof.
  intros (Hnes & Hsrc & Hdone & Hclosed) Hstate.
  unfold pull, yieldArrays. rewrite Hnes.
  change (length (@nil NDArrayAndExtra) =? 0)%nat with true.
  change (0 <? length (@nil NDArrayAndExtra))%nat with false.
  rewrite andb_true_r.
  destruct (streamDone s) eqn:Ed.
  { eexists. split; [done |]. unfold between_pulls, controller_close.
    cbn [queue nes streamDone source delivered state]. rewrite Hstate.
    settle. }
  cbn [negb].
  assert (exists r s1,
    (if (0 <? length (queue s))%nat then parse_into_nes s
     else Some (inr tt, s)) = Some (r, s1) /\
    streamDone s1 = false /\ source s1 = source s /\
    delivered s1 = delivered s /\ state s1 = Readable /\
    match r with
    | inl _ => nes s1 = []
    | inr _ => True
    end) as (r & s1 & -> & Hd1 & Hs1 & Hdel1 & Hst1 & Hr).
  { destruct (0 <? length (queue s))%nat.
    - destruct (parse_into_nes_returns s)
        as (r & s1 & -> & Hd1 & Hs1 & Hdel1 & Hst1 & Hr).
      eexists _, _. split; [done |]. rewrite Hd1, Hs1, Hdel1, Hst1.
      split_and!; try done. destruct r; [congruence | done].
    - eexists _, _. split; [done |]. done. }
  destruct r as [e|[]].
  { eexists. split; [done |]. unfold between_pulls, controller_error.
    cbn [queue nes streamDone source delivered state].
    rewrite Hs1, Hd1, Hdel1, Hst1. settle. }
  destruct ((0 <? length (queue s))%nat && (0 <? length (nes s1))%nat).
  { eexists. split; [done |]. unfold between_pulls, enqueue_all.
    cbn [queue nes streamDone source delivered state].
    rewrite Hs1, Hd1, Hdel1, Hst1. settle. }
  rewrite Hd1. cbn [negb].
  destruct (read_loop_returns (source s1) s1 Hd1)
    as (r & s2 & -> & [k Hk] & Hd2 & Hdel2 & Hst2 & Hr2).
  assert (exists k', source s2 = drop k' src) as Hsuffix.
  { destruct Hsrc as [k0 Hk0]. exists (k0 + k)%nat.
    by rewrite Hk, Hs1, Hk0, drop_drop. }
  destruct r as [e|[]].
  { eexists. split; [done |]. unfold between_pulls, controller_error.
    cbn [queue nes streamDone source delivered state].
    rewrite Hdel2, Hdel1, Hst2, Hst1. settle. }
  destruct (0 <? length (nes s2))%nat eqn:Enes.
  - eexists. split; [done |]. unfold between_pulls, enqueue_all.
    cbn [queue nes streamDone source delivered state].
    rewrite Hdel2, Hdel1, Hst2, Hst1. settle.
  - eexists. split; [done |]. unfold between_pulls.
    rewrite Hdel2, Hdel1, Hst2, Hst1.
    assert (nes s2 = []) as ->
      by (apply Nat.ltb_ge in Enes; destruct (nes s2);
          [done | cbn in Enes; lia]).
    settle.
Qed.

Lemma pulls_between (src : list Uint8Array) (n : nat) :
  forall s : stream,
  between_pulls src s ->
  exists s', pulls n s = Some s' /\ between_pulls src s' /\
             exists more, delivered s' = delivered s ++ more.
Proof.
  induction n as [|n IH]; intros s Hinv.
  - exists s. split; [done |]. split; [done |]. exists []. by rewrite app_nil_r.
  - cbn [pulls]. destruct (state s) eqn:Es.
    + destruct (pull_between src s Hinv Es) as (s1 & -> & Hinv1 & m1 & Hm1).
      destruct (IH s1 Hinv1) as (s2 & Hrun & Hinv2 & m2 & Hm2).
      exists s2. split; [done |]. split; [done |].
      exists (m1 ++ m2). by rewrite Hm2, Hm1, app_assoc.
    + exists s. split; [done |]. split; [done |].
      exists []. by rewrite app_nil_r.
    + exists s. split; [done |]. split; [done |].
      exists []. by rewrite app_nil_r.
Qed.

(** X15: whatever the source delivers, every pull of the stream ends, and
    after any number of pulls: no record that was parsed is held back, the
    source has been read in order, the stream is closed only if the source
    has reported its end, and the records delivered after more pulls start
    with the records delivered so far. *)
Theorem stream_between_pulls (src : list Uint8Array) (n m : nat) :
  exists s s',
    pulls n (streamFromReadableStream src) = Some s /\
    pulls (n + m) (streamFromReadableStream src) = Some s' /\
    nes s = [] /\
    (exists k, source s = drop k src) /\
    (state s = Closed -> streamDone s = true /\ source s = []) /\
    exists more, delivered s' = delivered s ++ more.
Proof.
  assert (between_pulls src (streamFromReadableStream src)) as Hinit.
  { unfold between_pulls, streamFromReadableStream. cbn.
    split_and!; try done. by exists 0%nat. }
  destruct (pulls_between src n _ Hinit) as (s & Hs & Hinv & _).
  destruct (pulls_between src m s Hinv) as (s' & Hs' & _ & Hmore).
  exists s, s'. split; [done |]. rewrite pulls_add, Hs. split; [done |].
  destruct Hinv as (Hnes & Hsrc & Hdone & Hclosed).
  split_and!; try done. intros Hc. split; [by apply Hclosed |].
  apply Hdone. by apply Hclosed.
Qed.

Lemma pulls_three (n : nat) (raw : Uint8Array) (records : list NDArrayAndExtra) :
  parseFromUint8ArrayChunks [raw] = Some (inr records, []) ->
  pulls (3 + n) (streamFromReadableStream [raw]) = Some (finished records).
Proof.
  intros Hparse. destruct records as [|record records].
  - change (3 + n)%nat with (2 + S n)%nat. rewrite pulls_add.
    assert (pulls 2 (streamFromReadableStream [raw]) = Some (finished [])) as ->.
    { unfold streamFromReadableStream, pulls, pull, yieldArrays.
      cbn [state streamDone nes queue length Nat.eqb Nat.ltb Nat.leb andb negb
           source read_loop].
      unfold parse_into_nes.
      cbn [queue app nes streamDone source delivered state].
      rewrite Hparse. cbn. done. }
    by apply pulls_settled.
  - change (3 + n)%nat with (1 + (2 + n))%nat. rewrite pulls_add.
    assert (pulls 1 (streamFromReadableStream [raw])
            = Some (Stream [] [] false [] (record :: records) Readable)) as ->.
    { unfold streamFromReadableStream. cbn [pulls state].
      by rewrite (pull_fragment raw [] (record :: records) []). }
    apply pulls_end.
Qed.

(** X16: [stream] given a byte array, or an array buffer, is the stream over
    a source of that one chunk. Its first pull delivers the records that
    [decode] returns from the bytes, or puts the stream in the error that
    [decode] throws; and when the parser has left nothing of the bytes, the
    stream has delivered these records and is closed after three pulls. *)
Theorem stream_of_bytes (raw : Uint8Array) :
  stream_of (RawUint8Array raw) = inr (streamFromReadableStream [raw]) /\
  stream_of (RawArrayBuffer raw) = inr (streamFromReadableStream [raw]) /\
  (exists s, pull (streamFromReadableStream [raw]) = Some s /\
     match decode raw with
     | Some (inr records) => delivered s = records /\ state s = Readable
     | Some (inl e) => delivered s = [] /\ state s = Errored e
     | None => False
     end) /\
  (forall records n,
     parseFromUint8ArrayChunks [raw] = Some (inr records, []) ->
     pulls (3 + n) (streamFromReadableStream [raw])
       = Some (finished records)).
Proof.
  split; [done |]. split; [done |]. split.
  - unfold decode, streamFromReadableStream, pull, yieldArrays.
    cbn [state streamDone nes queue length Nat.eqb Nat.ltb Nat.leb andb negb
         source read_loop].
    unfold parse_into_nes. cbn [queue app nes streamDone source delivered state].
    destruct (parse_returns [raw]) as [[[e|records] q] ->].
    + eexists. split; [done |]. done.
    + cbn [fmap option_fmap option_map fst]. destruct records as [|r rs].
      * cbn. eexists. split; [done |]. done.
      * cbn [app length Nat.eqb]. eexists. split; [done |]. done.
  - intros records n. apply pulls_three.
Qed.

Section WholeBlobs.
Hypothesis little_host : host = LittleEndian.

(** X17: on a little-endian platform, when the body of a response delivers
    one whole blob of [encode] in each chunk, as the mock response of the
    test-suite does, the stream delivers the records of the first blob, then
    those of the second, and so on, one blob for each pull, and closes when
    the source has reported its end. *)
Theorem stream_whole_blobs (groups : list (list NDArrayAndExtra))
    (blobs : list Uint8Array) (littleEndian : option bool) :
  littleEndian = None \/ littleEndian = Some true ->
  Forall (fun g => g <> [] /\ Forall valid_item g) groups ->
  Forall2 (fun g blob => encode g littleEndian = inr blob) groups blobs ->
  exists s0,
    stream_of (RawResponse (Some blobs)) = inr s0 /\
    forall n,
      pulls (length groups + 2 + n) s0
        = Some (finished (map decoded (concat groups))).
Proof.
  intros Hle Hgroups Hblobs. eexists. split; [done |]. intros n.
  assert (Forall2 (fun fragment records =>
            parseFromUint8ArrayChunks [fragment] = Some (inr records, []) /\
            records <> []) blobs (map (map decoded) groups)) as Hparse.
  { induction Hblobs as [|g blob groups blobs Henc _ IH]; [constructor |].
    inversion Hgroups as [|? ? [Hg Hvalid] Hrest]; subst.
    cbn [map]. constructor; [|by apply IH].
    destruct (decode_encode_decoded little_host g littleEndian Hle Hg Hvalid)
      as (blob' & Henc' & _ & Hdec).
    rewrite Henc in Henc'. injection Henc' as <-.
    split; [done | by destruct g]. }
  rewrite (Forall2_length _ _ _ Hblobs), <- Nat.add_assoc.
  unfold streamFromReadableStream.
  rewrite (pulls_fragments _ _ Hparse). cbn [app]. do 2 f_equal.
  clear. induction groups as [|g gs IH]; [done |]. cbn [map concat].
  by rewrite map_app, IH.
Qed.
End WholeBlobs.

(** *** The parser does not see the chunks *)

Lemma agree_ret {A : Type} (RA : A -> A -> Prop) (a a' : A) :
  RA a a' -> agree RA (ret a) (ret a').
Proof. intros Ha s s' Hs Hn Hn'. by cbn. Qed.

Lemma agree_throw {A : Type} (RA : A -> A -> Prop) (e : exn) :
  agree RA (throw e) (throw e).
Proof. intros s s' Hs Hn Hn'. by cbn. Qed.

Lemma agree_lift {A : Type} (r : res A) : agree eq (lift r) (lift r).
Proof. intros s s' Hs Hn Hn'. unfold lift. by destruct r. Qed.

Lemma agree_tempChunks_push (c : Uint8Array) :
  agree eq (tempChunks_push c) (tempChunks_push c).
Proof.
  intros s s' (Hc & Ht & Hr) Hn Hn'. cbn. split; [done |].
  split; [|done]. unfold same_bytes. cbn. by rewrite !concat_app, Ht.
Qed.

Lemma agree_tempChunks_clear : agree eq tempChunks_clear tempChunks_clear.
Proof. intros s s' (Hc & Ht & Hr) Hn Hn'. cbn. by repeat split. Qed.

Lemma agree_result_push (ne : NDArrayAndExtra) :
  agree eq (result_push ne) (result_push ne).
Proof.
  intros s s' (Hc & Ht & Hr) Hn Hn'. cbn. split; [done |]. split; [|done].
  unfold same_bytes. cbn. by rewrite Hr.
Qed.

Lemma agree_get_chunks : agree same_queue get_chunks get_chunks.
Proof. intros s s' Hs Hn Hn'. cbn. unfold same_queue. by destruct Hs. Qed.

Lemma splitChunks_same (q q' : list Uint8Array) (L : Z) :
  concat q = concat q' ->
  match splitChunks q L, splitChunks q' L with
  | (inr a, q1), (inr a', q1') =>
      a = a' /\ concat q1 = concat q1' /\ normal q1 /\ normal q1'
  | (inl e, q1), (inl e', q1') => e = e' /\ q1 = q /\ q1' = q'
  | _, _ => False
  end.
Proof.
  intros Hq. assert (total q = total q') as Ht by (unfold total; by rewrite Hq).
  destruct (Z.lt_ge_cases L 0) as [Hneg|Hpos].
  { by rewrite !splitChunks_negative. }
  destruct (Z.lt_ge_cases (total q) L) as [Hshort|Hlong].
  { by rewrite !splitChunks_short by lia. }
  destruct (splitChunks_enough q L) as (q1 & H1 & Hq1); [lia.. |].
  destruct (splitChunks_enough q' L) as (q1' & H1' & Hq1'); [lia.. |].
  rewrite H1, H1'. split; [by rewrite Hq |]. split; [by rewrite Hq1, Hq1', Hq |].
  apply splitChunks_rest in H1 as (_ & -> & _).
  apply splitChunks_rest in H1' as (_ & -> & _).
  unfold normal. split.
  - pose proof (rest_after_front L q Hpos). by destruct (rest_after L q).
  - pose proof (rest_after_front L q' Hpos). by destruct (rest_after L q').
Qed.

Lemma agree_always_splitChunks_call (L : Z) :
  agree_always eq (splitChunks_call L) (splitChunks_call L).
Proof.
  intros s s' (Hc & Ht & Hr). unfold splitChunks_call.
  pose proof (splitChunks_same (chunks s) (chunks s') L Hc) as H.
  destruct (splitChunks (chunks s) L) as [[e|a] q1],
           (splitChunks (chunks s') L) as [[e'|a'] q1']; try done; cbn.
  - destruct H as (-> & -> & ->). by repeat split.
  - destruct H as (-> & Hq & Hn & Hn'). by repeat split.
Qed.

Lemma agree_splitChunks_call (L : Z) :
  agree eq (splitChunks_call L) (splitChunks_call L).
Proof. intros s s' Hs _ _. by apply agree_always_splitChunks_call. Qed.

Lemma agree_bind {A B : Type} (RA : A -> A -> Prop) (RB : B -> B -> Prop)
    (m m' : P A) (k k' : A -> P B) :
  agree RA m m' -> (forall a a', RA a a' -> agree RB (k a) (k' a')) ->
  agree RB (bind m k) (bind m' k').
Proof.
  intros Hm Hk s s' Hs Hn Hn'. unfold bind.
  specialize (Hm s s' Hs Hn Hn').
  destruct (m s) as [[e|a] s1], (m' s') as [[e'|a'] s1']; try done.
  destruct Hm as (Ha & Hs1 & Hn1 & Hn1'). by apply Hk.
Qed.

Lemma agree_always_bind {A B : Type} (RA : A -> A -> Prop)
    (RB : B -> B -> Prop) (m m' : P A) (k k' : A -> P B) :
  agree_always RA m m' -> (forall a a', RA a a' -> agree RB (k a) (k' a')) ->
  agree_always RB (bind m k) (bind m' k').
Proof.
  intros Hm Hk s s' Hs. unfold bind.
  specialize (Hm s s' Hs).
  destruct (m s) as [[e|a] s1], (m' s') as [[e'|a'] s1']; try done.
  destruct Hm as (Ha & Hs1 & Hn1 & Hn1'). by apply Hk.
Qed.

Lemma normal_empty (q q' : list Uint8Array) :
  same_queue q q' -> (length q =? 0)%nat = (length q' =? 0)%nat.
Proof.
  intros (Hc & Hn & Hn').
  destruct q as [|[|b c] q], q' as [|[|b' c'] q']; done.
Qed.

Lemma normal_front (q q' : list Uint8Array) :
  same_queue q q' ->
  (0 <? length q)%nat && front_is_zero q
    = (0 <? length q')%nat && front_is_zero q'.
Proof.
  intros (Hc & Hn & Hn').
  destruct q as [|[|b c] q], q' as [|[|b' c'] q']; try done.
  cbn in Hc. injection Hc as -> _. done.
Qed.

Ltac agree_steps :=
  repeat first
    [ apply agree_ret; reflexivity | apply agree_throw | apply agree_lift
    | apply agree_tempChunks_push | apply agree_tempChunks_clear
    | apply agree_result_push | apply agree_splitChunks_call
    | match goal with
      | |- agree _ (bind get_chunks _) (bind get_chunks _) =>
          apply (agree_bind same_queue);
          [ apply agree_get_chunks
          | let q := fresh "q" in
            let q' := fresh "q" in
            let H := fresh "Hq" in
            intros q q' H;
            try rewrite (normal_empty q q' H);
            try rewrite (normal_front q q' H) ]
      | |- agree _ (bind _ _) (bind _ _) =>
          apply (agree_bind eq); [| intros ? ? <-]
      | |- agree _ (if ?c then _ else _) _ => destruct c
      | |- agree _ (match ?x with _ => _ end) _ => destruct x
      end
    | progress cbv zeta ].

Lemma agree_read_extra (ndarray : NDArray) (littleEndian : bool) :
  agree eq (read_extra ndarray littleEndian) (read_extra ndarray littleEndian).
Proof. unfold read_extra. agree_steps. Qed.

Lemma agree_always_read_array : agree_always eq read_array read_array.
Proof.
  unfold read_array. apply (agree_always_bind eq);
    [apply agree_always_splitChunks_call |].
  intros chunk ? <-. agree_steps.
Qed.

Lemma agree_always_loop_body : agree_always eq loop_body loop_body.
Proof.
  unfold loop_body. apply (agree_always_bind eq);
    [apply agree_always_read_array |].
  intros array ? <-. apply agree_read_extra.
Qed.

(** The loop on two normal queues of the same bytes. *)
Lemma while_loop_same (fuel : nat) :
  forall s s', same_bytes s s' -> normal (chunks s) -> normal (chunks s') ->
  match while_loop fuel s, while_loop fuel s' with
  | Some (r, s1), Some (r', s1') => r = r' /\ same_bytes s1 s1'
  | None, None => True
  | _, _ => False
  end.
Proof.
  induction fuel as [|fuel IH]; intros s s' Hs Hn Hn'.
  - cbn [while_loop].
    assert ((0 <? length (chunks s))%nat = (0 <? length (chunks s'))%nat)
      as <-.
    { destruct Hs as (Hc & _). unfold normal in *.
      destruct (chunks s) as [|[|b c] q], (chunks s') as [|[|b' c'] q'];
        done. }
    by destruct (0 <? length (chunks s))%nat.
  - cbn [while_loop].
    assert ((0 <? length (chunks s))%nat = (0 <? length (chunks s'))%nat)
      as <-.
    { destruct Hs as (Hc & _). unfold normal in *.
      destruct (chunks s) as [|[|b c] q], (chunks s') as [|[|b' c'] q'];
        done. }
    destruct (0 <? length (chunks s))%nat; [|done].
    pose proof (agree_always_loop_body s s' Hs) as Hbody.
    destruct (loop_body s) as [[e|f] s1], (loop_body s') as [[e'|f'] s1'];
      try done.
    + by destruct Hbody as [-> ?].
    + destruct Hbody as (<- & Hs1 & Hn1 & Hn1'). destruct f; [|done].
      by apply IH.
Qed.

Lemma total_same (q q' : list Uint8Array) :
  concat q = concat q' -> total q = total q'.
Proof. unfold total. by intros ->. Qed.

(** The parser on two queues of the same bytes that are not empty. *)
Lemma parse_same (queue queue' : list Uint8Array) :
  queue <> [] -> queue' <> [] -> concat queue = concat queue' ->
  match parseFromUint8ArrayChunks queue, parseFromUint8ArrayChunks queue' with
  | Some (r, q), Some (r', q') => r = r' /\ concat q = concat q'
  | None, None => True
  | _, _ => False
  end.
Proof.
  intros Hne Hne' Hc. unfold parseFromUint8ArrayChunks.
  rewrite <- (total_same queue queue' Hc).
  destruct queue as [|c queue]; [done |].
  destruct queue' as [|c' queue']; [done |].
  cbn [length Nat.eqb].
  set (s := Parser (c :: queue) [] []).
  set (s' := Parser (c' :: queue') [] []).
  assert (same_bytes s s') as Hs by done.
  cbn [while_loop].
  change (0 <? length (chunks s))%nat with true.
  change (0 <? length (chunks s'))%nat with true.
  cbv iota.
  pose proof (agree_always_loop_body s s' Hs) as Hbody.
  destruct (loop_body s) as [[e|f] s1], (loop_body s') as [[e'|f'] s1'];
    try done.
  - destruct Hbody as (<- & Hc1 & Ht1 & Hr1).
    destruct e; (split; [by rewrite ?Hr1 |]); try done.
    by rewrite !concat_app, Hc1, Ht1.
  - destruct Hbody as (<- & (Hc1 & Ht1 & Hr1) & Hn1 & Hn1').
    destruct f; [|by rewrite Hr1].
    pose proof (while_loop_same (Z.to_nat (total (c :: queue))) s1 s1'
                  (conj Hc1 (conj Ht1 Hr1)) Hn1 Hn1') as Hloop.
    destruct (while_loop _ s1) as [[r2 s2]|],
             (while_loop _ s1') as [[r2' s2']|]; try done.
    destruct Hloop as (<- & Hc2 & Ht2 & Hr2).
    destruct r2 as [[]|]; (split; [by rewrite ?Hr2 |]); try done.
    by rewrite !concat_app, Hc2, Ht2.
Qed.

(** X18: what the parser returns does not depend on how the bytes of the
    queue are cut into chunks, empty chunks included: on a queue of chunks
    and on the queue of the one chunk of their bytes, it returns the same
    records, or throws the same error, and leaves the same bytes in the
    queue. On any queue it returns what [decode] returns from the bytes. *)
Theorem parser_ignores_chunking (queue : list Uint8Array) :
  exists r q q',
    parseFromUint8ArrayChunks queue = Some (r, q) /\
    parseFromUint8ArrayChunks [concat queue] = Some (r, q') /\
    concat q = concat q' /\
    decode (concat queue) = Some r.
Proof.
  destruct queue as [|c queue].
  { exists (inr []), [], [[]]. by repeat split. }
  assert (concat (c :: queue) = concat [concat (c :: queue)]) as Hc
    by (cbn [concat]; by rewrite app_nil_r).
  pose proof (parse_same (c :: queue) [concat (c :: queue)]
                ltac:(done) ltac:(done) Hc) as Hsame.
  destruct (parse_returns (c :: queue)) as [[r q] Hrun].
  rewrite Hrun in Hsame. unfold decode.
  destruct (parseFromUint8ArrayChunks [concat (c :: queue)])
    as [[r' q']|]; [|done].
  destruct Hsame as [<- Hq]. by exists r, q, q'.
Qed.

(** *** Records of half precision *)

Lemma length_groups (n w : nat) (bs : list Z) : length (groups n w bs) = n.
Proof. revert bs. induction n as [|n IH]; intros bs; cbn; [done | by rewrite IH]. Qed.

Section Widened.
Hypothesis little_host : host = LittleEndian.

(** X19: on a little-endian platform, [decode] of a blob of [encode]
    returns a record tagged float16 as a record tagged float32 whose data is
    a [Float32Array]: it has the same shape, one element for each two bytes
    of the data, as many elements as the shape requires, and the element of
    index i is the [castFloat16] of the 16-bit number of index i. Records of
    the other types come back with their tag and their bytes. *)
Theorem decode_widens_float16 (items : list NDArrayAndExtra)
    (littleEndian : option bool) :
  littleEndian = None \/ littleEndian = Some true ->
  items <> [] -> Forall valid_item items ->
  exists blob records,
    encode items littleEndian = inr blob /\
    decode blob = Some (inr records) /\
    Forall2 (fun item record =>
      let arr := fst item in
      let out := fst record in
      shape out = shape arr /\ snd record = decoded_extra (snd item) /\
      (dType arr = float16 ->
         dType out = float32 /\ kind (data out) = Float32 /\
         data_length (data out) = fold_left Z.mul (shape arr) 1 /\
         buffer (data out)
           = concat (map (fun r => uint_bytes LittleEndian 4
                                     (float32_bits (castFloat16 r)))
                         (map (uint_value LittleEndian)
                              (groups (length (buffer (data arr)) / 2) 2
                                      (buffer (data arr)))))) /\
      (dType arr <> float16 ->
         dType out = dType arr /\ buffer (data out) = buffer (data arr)))
      items records.
Proof.
  intros Hle Hne Hall.
  destruct (decode_encode_decoded little_host items littleEndian Hle Hne Hall)
    as (blob & Henc & _ & Hdec).
  exists blob, (map decoded items). split; [done |].
  split; [unfold decode; by rewrite Hdec |].
  clear Henc Hdec Hne. induction Hall as [|item items Hitem _ IH];
    [constructor |].
  cbn [map]. constructor; [|exact IH].
  destruct item as [arr extra]. destruct Hitem as ((_ & _ & _ & Hlen) & _ & _).
  cbn [fst snd] in *. unfold decoded, decoded_array. cbn [fst snd].
  split; [by destruct (dType arr) |]. split; [done |]. split.
  - intros Et. rewrite Et in *. cbn [dType data kind buffer shape dSize] in *.
    split; [done |]. split; [done |].
    unfold uint_elements. cbn [kind buffer BYTES_PER_ELEMENT].
    rewrite little_host. change (Z.to_nat 2) with 2%nat.
    split; [|done].
    unfold data_length, data_byteLength, byteLength in *. cbn [kind buffer].
    rewrite (length_concat_map _ 4) by (intros; apply length_uint_bytes).
    rewrite length_map, length_groups.
    rewrite Nat2Z.inj_mul, Nat2Z.inj_div, Hlen. cbn [BYTES_PER_ELEMENT].
    rewrite Z.div_mul by lia.
    by rewrite (Z.mul_comm (Z.of_nat 4)), Z.div_mul by lia.
  - intros Et. by destruct (dType arr).
Qed.
End Widened.

(** *** The older decoder, [decodeMatBlob] *)

Lemma slice_middle (a b c : Uint8Array) (from to : Z) :
  from = byteLength a -> to = from + byteLength b ->
  slice (a ++ b ++ c) from to = b.
Proof.
  intros -> ->. unfold slice, byteLength.
  rewrite Nat2Z.id, drop_app_length.
  replace (Z.to_nat (Z.of_nat (length a) + Z.of_nat (length b)
                     - Z.of_nat (length a))) with (length b) by lia.
  by rewrite take_app_length.
Qed.




(** X20: the older decoder returns no array of a typed array type: on a
    buffer that starts with one of the dtype codes 1, 2, 3, 5, 6, 7, 10 and
    11 it throws, on every platform. It calls the constructor of the typed
    array without [new], a [TypeError], unless the bytes of the shape are
    cut short at an odd length, a [RangeError]. *)
Theorem decodeMatBlob_typed_arrays (b0 b1 : Z) (rest : Uint8Array) :
  In b0 [1; 2; 3; 5; 6; 7; 10; 11] ->
  decodeMatBlob [b0] = Some (inl TypeError) /\
  (exists e, decodeMatBlob (b0 :: b1 :: rest) = Some (inl e) /\
             (e = TypeError \/ e = RangeError)) /\
  (0 <= b1 -> 2 * b1 <= byteLength rest ->
   decodeMatBlob (b0 :: b1 :: rest) = Some (inl TypeError)).
Proof.
  intros Hb0.
  assert (exists k dSize type,
    0 < b0 /\ (b0 =? 0) || (12 <=? b0) = false /\
    __DTYPE_FLAGS_DECODING b0 = Some (Constructor k, dSize, type))
    as (k & dSize & type & Hpos & Hrange & Htable).
  { cbn in Hb0.
    destruct Hb0 as [<-|[<-|[<-|[<-|[<-|[<-|[<-|[<-|[]]]]]]]]];
      cbn; eexists _, _, _; done. }
  assert (forall tail, exists out,
    decodeMatBlob_array (b0 :: b1 :: tail) = inl out /\
    (out = TypeError \/ out = RangeError) /\
    (0 <= b1 -> 2 * b1 <= byteLength tail -> out = TypeError)) as Harray.
  { intros tail. unfold decodeMatBlob_array. cbn [nth lookup list_lookup].
    destruct (Z.ltb_spec 0 b0) as [_|]; [|lia]. cbn [rbind].
    rewrite Hrange, Htable. cbn [rbind].
    destruct (Z.ltb_spec 0 b1) as [H1|H1].
    - destruct (endianness_eqb LittleEndian __SYS_ENDIAN).
      + unfold TypedArray_over.
        destruct (Z.eqb_spec (byteLength (slice (b0 :: b1 :: tail) 2
                    (2 + b1 * 2)) mod BYTES_PER_ELEMENT Uint16) 0)
          as [Heven|Hodd]; cbn [rbind].
        * eexists. split; [done |]. split; [by left | done].
        * eexists. split; [done |]. split; [by right |].
          intros _ Hfit. exfalso. apply Hodd.
          unfold slice, byteLength in *. rewrite length_take, length_drop.
          cbn [length BYTES_PER_ELEMENT].
          replace (Z.of_nat (Z.to_nat (2 + b1 * 2 - 2)
                     `min` (S (S (length tail)) - Z.to_nat 2)))
            with (b1 * 2) by lia.
          by rewrite Z.mod_mul.
      + assert (exists n, Z.to_nat b1 = S n) as [n ->]
          by (exists (Z.to_nat b1 - 1)%nat; lia).
        cbn. eexists. split; [done |]. split; [by left | done].
    - destruct (endianness_eqb LittleEndian __SYS_ENDIAN).
      + unfold TypedArray_over.
        destruct (Z.eqb_spec (byteLength (slice (b0 :: b1 :: tail) 2
                    (2 + - b1 * 4)) mod BYTES_PER_ELEMENT Uint32) 0)
          as [Heven|Hodd]; cbn [rbind].
        * eexists. split; [done |]. split; [by left | done].
        * eexists. split; [done |]. split; [by right |].
          intros Hb1 _. exfalso. apply Hodd.
          assert (b1 = 0) as -> by lia. done.
      + destruct (Z.to_nat (- b1)) as [|n] eqn:En; cbn.
        * eexists. split; [done |]. split; [by left | done].
        * eexists. split; [done |]. split; [by left | done]. }
  split; [|split].
  - unfold decodeMatBlob.
    cbn [length decodeMatBlob_loop Nat.ltb Nat.leb].
    unfold decodeMatBlob_turn, decodeMatBlob_array.
    cbn [nth lookup list_lookup].
    destruct (Z.ltb_spec 0 b0) as [_|]; [|lia]. cbn [rbind].
    by rewrite Hrange, Htable.
  - destruct (Harray rest) as (out & Hout & Hkind & _).
    exists out. split; [|done]. unfold decodeMatBlob.
    cbn [length decodeMatBlob_loop Nat.ltb Nat.leb].
    unfold decodeMatBlob_turn. by rewrite Hout.
  - intros H1 H2. destruct (Harray rest) as (out & Hout & _ & Hfit).
    rewrite (Hfit H1 H2) in Hout. unfold decodeMatBlob.
    cbn [length decodeMatBlob_loop Nat.ltb Nat.leb].
    unfold decodeMatBlob_turn. by rewrite Hout.
Qed.




Section OlderDecoder.
Hypothesis little_host : host = LittleEndian.




End OlderDecoder.

Lemma slice_clamped (a b : Uint8Array) (from to : Z) :
  from = byteLength a -> from + byteLength b <= to ->
  slice (a ++ b) from to = b.
Proof.
  intros -> Hto. unfold slice, byteLength in *.
  rewrite Nat2Z.id, drop_app_length. apply take_ge. lia.
Qed.

Section CutData.
Hypothesis little_host : host = LittleEndian.

(** The first half of a turn of the older decoder on a record of half
    precision whose data is cut: the slice of the data is clamped to the
    buffer, and what is there is converted. *)
Lemma decodeMatBlob_array_cut (arr : NDArray) (cut : Uint8Array) :
  valid_record arr -> small_shape arr -> dType arr = float16 ->
  byteLength cut <= byteLength (buffer (data arr)) ->
  let header := [default 0 (__DTYPE_FLAGS_ENCODING (dType arr)) mod 256;
                 Z.of_nat (length (shape arr)) mod 256] in
  let dims := buffer (TypedArray_from Uint16 (shape arr)) in
  decodeMatBlob_array (header ++ dims ++ cut)
    = do converted <~ parseFloat16ArrayBuffer cut None;
      inr ({| shape := shape arr; dType := float32; data := converted |},
           true, Some (byteLength (header ++ dims ++ buffer (data arr)))).
Proof.
  intros (Hdims & Hshape & Hbytes & Hlen) Hsmall Et Hcut header dims.
  subst header. rewrite Et in *. cbn [__DTYPE_FLAGS_ENCODING default
    from_option id dSize] in *.
  rewrite (Z.mod_small 9), (Z.mod_small (Z.of_nat _)) by lia.
  set (n := Z.of_nat (length (shape arr))) in *.
  unfold decodeMatBlob_array. cbn [app nth lookup list_lookup].
  cbn [Z.ltb Z.compare rbind Z.eqb Z.leb orb __DTYPE_FLAGS_DECODING].
  rewrite host_endian, little_host. cbn [endianness_eqb].
  assert (length dims = 2 * length (shape arr))%nat as Hdl.
  { subst dims. unfold TypedArray_from. cbn [buffer].
    apply length_concat_map. intros. apply length_uint_bytes. }
  assert (uint_elements (TypedArray_from Uint16 (shape arr)) = shape arr)
    as Eshape by (by apply uint_elements_from).
  change (9 :: n :: dims ++ cut) with ([9; n] ++ dims ++ cut).
  unfold data_byteLength, byteLength in *.
  destruct (Z.ltb_spec 0 n) as [Hpos|Hzero].
  - rewrite slice_middle by (unfold byteLength; cbn [length]; lia).
    assert (TypedArray_over Uint16 dims
              = inr (TypedArray_from Uint16 (shape arr))) as ->.
    { unfold TypedArray_over, byteLength. rewrite Hdl. cbn [BYTES_PER_ELEMENT].
      replace (Z.of_nat (2 * length (shape arr)) mod 2) with 0
        by (rewrite Nat2Z.inj_mul, Z.mul_comm, Z.mod_mul; lia).
      done. }
    cbn [rbind]. rewrite Eshape.
    rewrite (app_assoc [9; n] dims).
    rewrite slice_clamped
      by (unfold byteLength; rewrite ?length_app; cbn [length]; lia).
    destruct (parseFloat16ArrayBuffer cut None); [done |]. cbn [rbind].
    do 3 f_equal. cbn [length]. rewrite !length_app. subst n. lia.
  - assert (shape arr = []) as Es
      by (destruct (shape arr); [done | subst n; cbn [length] in Hzero; lia]).
    assert (n = 0) as -> by lia.
    subst dims. rewrite Es in *. cbn [TypedArray_from buffer map concat app
      length fold_left] in *.
    change (slice (9 :: 0 :: cut) 2 (2 + - 0 * 4)) with (@nil Z).
    change (TypedArray_over Uint32 [])
      with (inr (A:=exn) {| kind := Uint32; buffer := [] |}).
    cbn [rbind].
    change (uint_elements {| kind := Uint32; buffer := [] |}) with (@nil Z).
    cbn [fold_left].
    change (9 :: 0 :: cut) with ([9; 0] ++ cut).
    rewrite slice_clamped by (unfold byteLength; cbn [length]; lia).
    destruct (parseFloat16ArrayBuffer cut None); [done |]. cbn [rbind].
    do 3 f_equal. cbn [length]. rewrite ?length_app. lia.
Qed.

(** X22: the older decoder does not check that the data of a record is
    there. On a little-endian platform, on a buffer that ends within the
    data of a record of half precision, after an even number of its bytes,
    it returns the record with the shape it announces and the elements that
    are there, fewer than the shape requires; after an odd number of bytes
    it throws an [Error]. [decode] returns no record from such a buffer. *)
Theorem decodeMatBlob_cut_data (arr : NDArray) (j : nat) :
  valid_record arr -> small_shape arr -> dType arr = float16 ->
  (j < length (buffer (data arr)))%nat ->
  let header := [9; Z.of_nat (length (shape arr))] in
  let dims := buffer (TypedArray_from Uint16 (shape arr)) in
  let cut := header ++ dims ++ take j (buffer (data arr)) in
  decode cut = Some (inr []) /\
  (Nat.even j = false -> decodeMatBlob cut = Some (inl Error)) /\
  (Nat.even j = true ->
   exists mat,
     decodeMatBlob cut = Some (inr [(mat, Null)]) /\
     shape mat = shape arr /\ dType mat = float32 /\
     data_length (data mat) = Z.of_nat j / 2 /\
     data_length (data mat) < fold_left Z.mul (shape arr) 1).
Proof.
  intros Hrec Hsmall Et Hj header dims cut.
  pose proof Hrec as (Hdims & _ & _ & Hlen).
  assert (header = [default 0 (__DTYPE_FLAGS_ENCODING (dType arr)) mod 256;
                    Z.of_nat (length (shape arr)) mod 256]) as Eheader.
  { subst header. rewrite Et. cbn [__DTYPE_FLAGS_ENCODING default from_option
      id]. by rewrite (Z.mod_small (Z.of_nat _)) by lia. }
  assert (cut = take (length (header ++ dims) + j)
                  (record_bytes (arr, Null))) as Ecut.
  { subst cut. rewrite record_bytes_pieces, extra_bytes_null, app_nil_r.
    cbn [fst]. rewrite <- Eheader. fold dims.
    rewrite (app_assoc header dims (buffer (data arr))), take_app_add.
    by rewrite <- app_assoc. }
  assert (decodeMatBlob cut
          = Some (do converted <~ parseFloat16ArrayBuffer
                                    (take j (buffer (data arr))) None;
                  match decodeMatBlob_extra cut
                          {| shape := shape arr; dType := float32;
                             data := converted |} true
                          (Some (byteLength (header ++ dims
                                             ++ buffer (data arr)))) [] with
                  | inl e => inl e
                  | inr (_, _, result) => inr result
                  end)) as Hrun.
  { pose proof (decodeMatBlob_array_cut arr (take j (buffer (data arr)))
                  Hrec Hsmall Et) as Harr.
    cbv zeta in Harr. rewrite <- Eheader in Harr. fold dims cut in Harr.
    unfold decodeMatBlob.
    assert (exists fuel, length cut = S fuel) as [fuel ->]
      by (subst cut header; cbn [app length]; eauto).
    cbn [decodeMatBlob_loop].
    assert ((0 <? length cut)%nat = true) as ->
      by (subst cut header; done).
    unfold decodeMatBlob_turn. rewrite Harr
      by (unfold byteLength; rewrite length_take; lia).
    destruct (parseFloat16ArrayBuffer _ None) as [e|converted]; [done |].
    cbn [rbind]. unfold decodeMatBlob_extra.
    destruct (Z.leb_spec (byteLength cut)
                (byteLength (header ++ dims ++ buffer (data arr))))
      as [_|Hbad]; [done |].
    subst cut. unfold byteLength in Hbad.
    rewrite !length_app, length_take in Hbad. lia. }
  split; [|split].
  - pose proof (decode_after_separated little_host [] cut
                  IncompleteChunksError) as Hd.
    unfold separated in Hd. cbn [map concat app] in Hd.
    apply Hd; [done | by subst cut header |].
    intros t r.
    destruct (loop_body_truncated little_host (arr, Null)
                (length (header ++ dims) + j) t r) as (s' & Hbody & Hres).
    + split; [exact Hrec | split; [exact Hsmall | done]].
    + rewrite record_bytes_pieces, extra_bytes_null, app_nil_r. cbn [fst].
      rewrite <- Eheader. fold dims.
      rewrite (app_assoc header dims (buffer (data arr))).
      rewrite (length_app (header ++ dims)). lia.
    + cbn [fst]. rewrite record_bytes_pieces, extra_bytes_null, app_nil_r.
      cbn [fst]. rewrite <- Eheader. fold dims.
      rewrite (app_assoc header dims (buffer (data arr))).
      rewrite (length_app (header ++ dims)). lia.
    + rewrite <- Ecut in Hbody.
      rewrite queue_of_nonempty in Hbody by (by subst cut header).
      eauto.
  - intros Hodd. rewrite Hrun.
    unfold parseFloat16ArrayBuffer, byteLength. rewrite length_take.
    replace (j `min` length (buffer (data arr)))%nat with j by lia.
    assert (Z.of_nat j mod 2 = 1) as ->.
    { rewrite <- Nat.negb_odd in Hodd. apply negb_false_iff in Hodd.
      apply Nat.odd_spec in Hodd as [k ->].
      rewrite Nat2Z.inj_add, Nat2Z.inj_mul, Z.add_comm, Z.mul_comm.
      by rewrite Z.mod_add. }
    done.
  - intros Heven. rewrite Hrun.
    destruct (parseFloat16ArrayBuffer_outcomes (take j (buffer (data arr)))
                None) as (_ & Hok & _).
    assert (byteLength (take j (buffer (data arr))) = Z.of_nat j) as Hbl
      by (unfold byteLength; rewrite length_take; lia).
    assert (Z.of_nat j mod 2 = 0) as Hmod.
    { apply Nat.even_spec in Heven as [k ->].
      rewrite Nat2Z.inj_mul, Z.mul_comm. by rewrite Z.mod_mul. }
    destruct Hok as (data' & -> & Hkind & Hcount & _);
      [by rewrite Hbl | by left |].
    cbn [rbind]. unfold decodeMatBlob_extra.
    destruct (Z.leb_spec (byteLength cut)
                (byteLength (header ++ dims ++ buffer (data arr))))
      as [_|Hbad].
    2: { subst cut. unfold byteLength in Hbad.
         rewrite !length_app, length_take in Hbad. lia. }
    eexists. split; [done |]. cbn [shape dType data].
    split; [done |]. split; [done |]. rewrite Hcount, Hbl.
    split; [done |].
    unfold data_byteLength, byteLength in Hlen. rewrite Et in Hlen.
    cbn [dSize] in Hlen.
    assert (Z.of_nat j < fold_left Z.mul (shape arr) 1 * 2) by lia.
    Z.div_mod_to_equations. lia.
Qed.
End CutData.

(** *** The older decoder ends *)

Lemma le_value_nonneg (bs : list Z) : Forall is_byte bs -> 0 <= le_value bs.
Proof.
  induction 1 as [|b bs Hb _ IH]; cbn [le_value]; [lia |].
  unfold is_byte in Hb. lia.
Qed.

Lemma uint_value_nonneg (e : endianness) (bs : list Z) :
  Forall is_byte bs -> 0 <= uint_value e bs.
Proof.
  intros H. destruct e; cbn [uint_value]; apply le_value_nonneg; [done |].
  apply Forall_forall. intros x Hx. rewrite Forall_forall in H. apply H.
  apply list_elem_of_In. apply list_elem_of_In in Hx. by apply in_rev.
Qed.

Lemma slice_bytes (a : Uint8Array) (from to : Z) :
  Forall is_byte a -> Forall is_byte (slice a from to).
Proof. intros H. unfold slice. by apply Forall_take, Forall_drop. Qed.

Lemma uint_elements_nonneg (a : TypedArray) :
  Forall is_byte (buffer a) -> Forall (fun d => 0 <= d) (uint_elements a).
Proof.
  intros H. unfold uint_elements.
  generalize (length (buffer a) / Z.to_nat (BYTES_PER_ELEMENT (kind a)))%nat.
  generalize (Z.to_nat (BYTES_PER_ELEMENT (kind a))). intros w n.
  revert H. generalize (buffer a). induction n as [|n IH]; intros bs Hbs;
    cbn [groups map]; constructor.
  - apply uint_value_nonneg. by apply Forall_take.
  - apply IH. by apply Forall_drop.
Qed.

Lemma product_nonneg (xs : list Z) (acc : Z) :
  0 <= acc -> Forall (fun d => 0 <= d) xs -> 0 <= fold_left Z.mul xs acc.
Proof.
  revert acc. induction xs as [|x xs IH]; intros acc Hacc Hxs; cbn; [done |].
  inversion Hxs; subst. apply IH; [nia | done].
Qed.

Lemma detached_loop_returns {A : Type} (f : Z -> A) (n i : nat) (width : Z)
    (le : option bool) (arr out : list A) :
  detached_loop f n i width le arr = inr out -> n = 0%nat /\ out = arr.
Proof. destruct n; [by intros [= <-] | done]. Qed.

(** The offset behind the data is not below 2. *)
Lemma decodeMatBlob_array_offset (buf : Uint8Array) (mat : NDArray)
    (le : bool) (e0 : Z) :
  Forall is_byte buf ->
  decodeMatBlob_array buf = inr (mat, le, Some e0) -> 2 <= e0.
Proof.
  intros Hbytes. unfold decodeMatBlob_array.
  destruct (if 0 <? nth 0 buf 0 then _ else _)
    as [e|[[endian littleEndian] dType]]; [done |].
  cbn [rbind]. destruct ((dType =? 0) || (12 <=? dType)); [done |].
  destruct (__DTYPE_FLAGS_DECODING dType) as [[[ArrayType dSize] type]|] eqn:Et;
    [|done].
  cbn [rbind].
  assert (0 < dSize) as HdSize.
  { revert Et. clear. unfold __DTYPE_FLAGS_DECODING.
    intros Et. repeat case_match; try done; injection Et as _ <- _; lia. }
  destruct (buf !! 1%nat) as [i1|]; [|by destruct (match ArrayType with
                                                      | Constructor _ => _
                                                      | ParseFloat16 => _
                                                      end)].
  match goal with
  | |- rbind ?shaped _ = _ -> _ =>
      assert (forall shape d0, shaped = inr (shape, d0) ->
                2 <= d0 /\ Forall (fun d => 0 <= d) shape) as Hshaped;
        [| destruct shaped as [e|[shape d0]]; [done |]]
  end.
  { intros shape d0. destruct (Z.ltb_spec 0 i1).
    - destruct (endianness_eqb endian __SYS_ENDIAN).
      + unfold TypedArray_over.
        destruct (_ =? 0); [|done]. cbn [rbind]. intros [= <- <-].
        split; [lia |]. apply uint_elements_nonneg. cbn [buffer].
        by apply slice_bytes.
      + destruct (detached_loop _ _ _ _ _ _) as [e|out] eqn:Ed; [done |].
        apply detached_loop_returns in Ed as [_ ->].
        cbn [rbind]. intros [= <- <-]. split; [lia |].
        apply Forall_forall. intros x Hx.
        apply elem_of_replicate in Hx as [-> _]. lia.
    - destruct (endianness_eqb endian __SYS_ENDIAN).
      + unfold TypedArray_over.
        destruct (_ =? 0); [|done]. cbn [rbind]. intros [= <- <-].
        split; [lia |]. apply uint_elements_nonneg. cbn [buffer].
        by apply slice_bytes.
      + destruct (detached_loop _ _ _ _ _ _) as [e|out] eqn:Ed; [done |].
        apply detached_loop_returns in Ed as [_ ->].
        cbn [rbind]. intros [= <- <-]. split; [lia |].
        apply Forall_forall. intros x Hx.
        apply elem_of_replicate in Hx as [-> _]. lia. }
  destruct (Hshaped _ _ eq_refl) as [Hd0 Hshape]. cbn [rbind].
  destruct (match ArrayType with
            | Constructor _ => _
            | ParseFloat16 => _
            end) as [e|arr]; [done |].
  cbn [rbind]. intros [= _ _ <-].
  pose proof (product_nonneg shape 1 ltac:(lia) Hshape). nia.
Qed.

(** A turn that goes on leaves a shorter buffer of bytes. *)
Lemma decodeMatBlob_turn_shorter (buffer buffer' : Uint8Array)
    (result result' : list NDArrayAndExtra) :
  Forall is_byte buffer ->
  decodeMatBlob_turn buffer result = inr (Continue, buffer', result') ->
  (length buffer' < length buffer)%nat /\ Forall is_byte buffer'.
Proof.
  intros Hbytes. unfold decodeMatBlob_turn.
  destruct (decodeMatBlob_array buffer) as [e|[[mat le] [e0|]]] eqn:Ea;
    [done | | done].
  apply decodeMatBlob_array_offset in Ea; [|done].
  cbn [rbind]. unfold decodeMatBlob_extra, byteLength, slice_from.
  destruct (Z.leb_spec (Z.of_nat (length buffer)) e0); [done |].
  destruct (_ =? 0).
  { intros [= <- _]. rewrite length_drop. split; [lia | by apply Forall_drop]. }
  destruct (Z.ltb_spec (Z.of_nat (length (slice buffer (e0 + 1) (e0 + 1 + 4))))
              4); [done |].
  cbn [rbind].
  pose proof (uint_value_nonneg (endianness_of le)
                (slice buffer (e0 + 1) (e0 + 1 + 4))
                (slice_bytes _ _ _ Hbytes)) as Hlen.
  match goal with
  | |- rbind ?m _ = _ -> _ => destruct m as [e|extra]; [done |]
  end.
  cbn [rbind].
  destruct (Z.ltb_spec (e0 + 1 + 4 + uint_value (endianness_of le)
                          (slice buffer (e0 + 1) (e0 + 1 + 4)))
              (Z.of_nat (length buffer))); [|done].
  cbn [andb]. destruct (_ =? 0); [|done].
  intros [= <- _]. rewrite length_drop. split; [lia | by apply Forall_drop].
Qed.

Lemma decodeMatBlob_loop_returns (fuel : nat) :
  forall (buffer : Uint8Array) (result : list NDArrayAndExtra),
  Forall is_byte buffer -> (length buffer <= fuel)%nat ->
  exists out, decodeMatBlob_loop fuel buffer result = Some out.
Proof.
  induction fuel as [|fuel IH]; intros buffer result Hbytes Hfuel.
  - destruct buffer; [by eexists | cbn in Hfuel; lia].
  - cbn [decodeMatBlob_loop]. destruct (0 <? length buffer)%nat;
      [|by eexists].
    destruct (decodeMatBlob_turn buffer result) as [e|[[[] b'] r']] eqn:Et;
      [by eexists | | by eexists].
    apply decodeMatBlob_turn_shorter in Et as [Hshort Hb']; [|done].
    apply IH; [done | lia].
Qed.

(** X23: the older decoder judges the first byte of a record at once: a
    byte of 0, or of 12 or more, makes it throw an [Error], and a byte of 4
    or 8 a [TypeError], also on a buffer of that one byte, which [decode]
    takes for a header that is not there yet. And it returns or throws on
    every buffer of bytes: a turn of its loop that goes on has dropped three
    bytes at least. *)
Theorem decodeMatBlob_header (b0 : Z) (rest : Uint8Array) :
  (b0 = 0 \/ 12 <= b0 -> decodeMatBlob (b0 :: rest) = Some (inl Error)) /\
  (b0 = 4 \/ b0 = 8 -> decodeMatBlob (b0 :: rest) = Some (inl TypeError)) /\
  decode [b0] = Some (inr []) /\
  (forall buffer, Forall is_byte buffer ->
                  exists out, decodeMatBlob buffer = Some out).
Proof.
  split; [|split; [|split]].
  - intros Hb0. unfold decodeMatBlob.
    cbn [length decodeMatBlob_loop Nat.ltb Nat.leb].
    unfold decodeMatBlob_turn, decodeMatBlob_array. cbn [nth].
    destruct Hb0 as [-> | Hbig]; [done |].
    destruct (Z.ltb_spec 0 b0) as [_|]; [|lia]. cbn [rbind].
    destruct (Z.eqb_spec b0 0) as [|_]; [lia |].
    by destruct (Z.leb_spec 12 b0) as [_|]; [|lia].
  - intros Hb0. unfold decodeMatBlob.
    cbn [length decodeMatBlob_loop Nat.ltb Nat.leb].
    unfold decodeMatBlob_turn, decodeMatBlob_array. cbn [nth].
    by destruct Hb0 as [-> | ->].
  - done.
  - intros buffer Hbytes. by apply decodeMatBlob_loop_returns.
Qed.
End Codec.

(** ** The claims on a little-endian platform, at concrete inputs *)

Ltac check_valid :=
  unfold valid_item, valid_record, small_shape, valid_extra, plain_data,
    is_byte, data_byteLength, byteLength;
  cbn;
  repeat first [ split | constructor ];
  try lia; try done.

(** C3 at a queue of two chunks: three bytes are asked from four, and five
    from three. *)
Lemma splitChunks_take_witness :
  (splitChunks [[1; 2]; [3]] 5 = (inl IncompleteChunksError, [[1; 2]; [3]]) /\
   forall n, splitChunks_retry n [[1; 2]; [3]] 5
               = (replicate n (inl IncompleteChunksError), [[1; 2]; [3]])) /\
  (exists rest,
     splitChunks [[1; 2]; [3; 4]] 3 = (inr [1; 2; 3], rest) /\
     concat rest = [4]).
Proof.
  split.
  - apply (splitChunks_take [[1; 2]; [3]] 5); unfold total; simpl; lia.
  - apply (splitChunks_take [[1; 2]; [3; 4]] 3); unfold total; simpl; lia.
Defined.

(** C1, as it is stated, fails. With the big-endian setting, the header byte
    of the blob is 256 - 1 and [decode] rejects the blob; and the record with
    the tag float16 comes back with the tag float32 and four bytes for each
    element. *)
Lemma roundtrip_counterexample :
  (valid_record one_byte /\
   encode LittleEndian (list Z) text_stringify
     [(one_byte, Null (list Z))] (Some false) = inr [255; 1; 0; 0; 0] /\
   decode LittleEndian (list Z) text_parse [255; 1; 0; 0; 0]
     = Some (inl Error)) /\
  (valid_record one_half /\
   encode LittleEndian (list Z) text_stringify
     [(one_half, Null (list Z))] (Some true) = inr [9; 1; 1; 0; 0x00; 0x3c] /\
   decode LittleEndian (list Z) text_parse [9; 1; 1; 0; 0x00; 0x3c]
     = Some (inr [({| shape := [1]; dType := float32;
                      data := {| kind := Float32;
                                 buffer := [0x00; 0x00; 0x80; 0x3f] |} |},
                   Null (list Z))])).
Proof. split; (split; [check_valid |]); split; reflexivity. Qed.

(** C1, amended, at two records: the array of the test-suite with the JSON
    payload, and a byte with raw bytes. *)
Lemma decode_encode_little_witness :
  exists blob,
    encode LittleEndian (list Z) text_stringify
      [(mat, Object (list Z) min_max_text);
       (one_byte, ArrayBuffer (list Z) [1; 2; 3])] (Some true) = inr blob /\
    decode LittleEndian (list Z) text_parse blob
      = Some (inr [(mat, Object (list Z) min_max_text);
                   (one_byte, ArrayBuffer (list Z) [1; 2; 3])]).
Proof.
  apply (decode_encode_little LittleEndian (list Z) text_parse text_stringify
           eq_refl
           [(mat, Object (list Z) min_max_text);
            (one_byte, ArrayBuffer (list Z) [1; 2; 3])] (Some true)).
  - by right.
  - done.
  - check_valid.
  - check_valid.
Defined.



(** C4, as it is stated, fails: a buffer that ends one byte into the header
    of its second record is decoded to its first record, and a buffer whose
    shape announces five bytes of data and that holds one is decoded to no
    record; neither call fails. *)
Lemma truncated_counterexample :
  decode LittleEndian (list Z) text_parse [1; 1; 1; 0; 7; 0; 1]
    = Some (inr [(one_byte, Null (list Z))]) /\
  decode LittleEndian (list Z) text_parse [1; 1; 5; 0; 7] = Some (inr []).
Proof. split; reflexivity. Qed.

(** C4, amended, at a buffer that ends within the extra length of its second
    record. *)
Lemma decode_truncated_witness :
  decode LittleEndian (list Z) text_parse
    ([1; 1; 1; 0; 7; 0] ++ [1; 1; 1; 0; 7; 1; 3; 0])
    = Some (inr [(one_byte, Null (list Z))]).
Proof.
  apply (decode_truncated LittleEndian (list Z) text_parse text_stringify
           [(one_byte, Null (list Z))]
           (one_byte, ArrayBuffer (list Z) [1; 2; 3]) 8 eq_refl).
  - check_valid.
  - check_valid.
  - vm_compute. lia.
  - vm_compute. lia.
Defined.

(** C6, as it is stated, fails: behind the extra payload of the record, the
    byte 5 is present and is not zero, and [decode] returns the record. *)
Lemma separator_counterexample :
  decode LittleEndian (list Z) text_parse
    ([1; 1; 1; 0; 7] ++ [1; 1; 0; 0; 0; 9] ++ [5; 6; 7])
    = Some (inr [(one_byte, ArrayBuffer (list Z) [9])]).
Proof. reflexivity. Qed.

(** C6, amended, at two records and the byte 5 behind the second. *)
Lemma separator_or_stop_witness :
  decode LittleEndian (list Z) text_parse
    ([1; 1; 1; 0; 7; 0] ++ [1; 1; 1; 0; 7; 1; 1; 0; 0; 0; 9])
    = Some (inr [(one_byte, Null (list Z));
                 (one_byte, ArrayBuffer (list Z) [9])]) /\
  decode LittleEndian (list Z) text_parse
    ([1; 1; 1; 0; 7; 0] ++ [1; 1; 1; 0; 7; 1; 1; 0; 0; 0; 9] ++ [5; 6; 7])
    = Some (inr [(one_byte, Null (list Z));
                 (one_byte, ArrayBuffer (list Z) [9])]).
Proof.
  destruct (separator_or_stop LittleEndian (list Z) text_parse text_stringify
              [(one_byte, Null (list Z))]
              (one_byte, ArrayBuffer (list Z) [9]) 5 [6; 7] eq_refl)
    as [Hgo Hstop].
  - check_valid.
  - check_valid.
  - split; [exact Hgo |]. apply Hstop; [reflexivity | lia].
Defined.

(** C8 at the platform of the examples. *)
Lemma literal_scenario_witness :
  encode LittleEndian (list Z) text_stringify [(mat, Null (list Z))]
    (Some true)
    = inr ([0x0A; 0x02] ++ [0x02; 0x00; 0x03; 0x00] ++ mat_data) /\
  length ([0x0A; 0x02] ++ [0x02; 0x00; 0x03; 0x00] ++ mat_data) = 30%nat /\
  encode LittleEndian (list Z) text_stringify
    [(mat, Object (list Z) min_max_text)] (Some true)
    = inr (([0x0A; 0x02] ++ [0x02; 0x00; 0x03; 0x00] ++ mat_data)
           ++ [0x02] ++ [0x15; 0x00; 0x00; 0x00] ++ min_max_text) /\
  length min_max_text = 21%nat.
Proof.
  apply (literal_scenario LittleEndian (list Z) text_stringify min_max_text
           (Some true) eq_refl); [by right | reflexivity].
Defined.


(** C5, at the blob of the float32 number 1.0 under the shape [[1]] written
    in big-endian: its first byte, 0xF6, is -10 as a signed byte; the code
    reads 246, which is no dtype code, and throws. The same record written
    in little-endian is decoded. *)
Theorem signed_header_is_read_unsigned :
  decode LittleEndian (list Z) text_parse
    [0xF6; 0x01; 0x00; 0x01; 0x3f; 0x80; 0x00; 0x00] = Some (inl Error) /\
  decode LittleEndian (list Z) text_parse
    [0x0A; 0x01; 0x01; 0x00; 0x00; 0x00; 0x80; 0x3f]
    = Some (inr [({| shape := [1]; dType := float32;
                     data := {| kind := Float32;
                                buffer := [0x00; 0x00; 0x80; 0x3f] |} |},
                  Null (list Z))]).
Proof. split; reflexivity. Qed.

(** C7, at a source that delivers the single byte 1 and ends: the first pull
    reads the byte and the end of the source, the second closes the stream,
    with the byte still in the queue and no error. *)
Theorem exhausted_source_closes_the_stream (n : nat) :
  pulls LittleEndian (list Z) text_parse (2 + n)
    (streamFromReadableStream (list Z) [[1]])
    = Some {| queue := [[1]]; nes := []; streamDone := true; source := [];
              delivered := []; state := Closed |}.
Proof.
  rewrite pulls_add.
  assert (pulls LittleEndian (list Z) text_parse 2
            (streamFromReadableStream (list Z) [[1]])
          = Some {| queue := [[1]]; nes := []; streamDone := true;
                    source := []; delivered := []; state := Closed |}) as ->
    by (vm_compute; reflexivity).
  apply pulls_settled. discriminate.
Qed.

(** ** The further properties, at concrete inputs *)

(** X1 at a queue with an empty chunk behind the bytes taken. *)
Lemma splitChunks_front_witness :
  (([[3]] : list (list Z)) = [] <-> total [[1; 2]; []; [3]] = 2) /\
  (forall c q, ([[3]] : list (list Z)) = c :: q -> c <> []).
Proof. apply (splitChunks_front [[1; 2]; []; [3]] 2 [1; 2] [[3]]). reflexivity. Defined.

(** X2 at a queue of three chunks: one byte and then three, or four at
    once. *)
Lemma splitChunks_twice_witness :
  exists r1 q1 r2 q2,
    splitChunks [[1; 2]; [3]; [4; 5]] 1 = (inr r1, q1) /\
    splitChunks q1 3 = (inr r2, q2) /\
    splitChunks [[1; 2]; [3]; [4; 5]] (1 + 3) = (inr (r1 ++ r2), q2).
Proof.
  apply (splitChunks_twice [[1; 2]; [3]; [4; 5]] 1 3);
    unfold total; simpl; lia.
Defined.

(** X4 behind one record: the headers 12 and 8, and the lone byte 12. *)
Lemma invalid_header_throws_witness :
  decode LittleEndian (list Z) text_parse ([1; 1; 1; 0; 7; 0] ++ [12; 1; 2])
    = Some (inl Error) /\
  decode LittleEndian (list Z) text_parse ([1; 1; 1; 0; 7; 0] ++ [8; 1; 2])
    = Some (inl TypeError) /\
  decode LittleEndian (list Z) text_parse ([1; 1; 1; 0; 7; 0] ++ [12])
    = Some (inr [(one_byte, Null (list Z))]).
Proof.
  assert (Forall (valid_item (list Z) text_parse text_stringify)
            [(one_byte, Null (list Z))]) as Hvalid by check_valid.
  split; [|split].
  - apply (invalid_header_throws LittleEndian (list Z) text_parse
             text_stringify eq_refl [(one_byte, Null (list Z))] 12 1 [2]
             Hvalid). lia.
  - apply (invalid_header_throws LittleEndian (list Z) text_parse
             text_stringify eq_refl [(one_byte, Null (list Z))] 8 1 [2]
             Hvalid). lia.
  - apply (invalid_header_throws LittleEndian (list Z) text_parse
             text_stringify eq_refl [(one_byte, Null (list Z))] 12 1 [2]
             Hvalid).
Defined.

(** X5 behind one record: the flag 3 with a payload of one byte, and the
    flag 2 where [JSON.parse] refuses every text. *)
Lemma invalid_extra_throws_witness :
  decode LittleEndian (list Z) text_parse
    ([1; 1; 1; 0; 7; 0] ++ [1; 1; 1; 0; 7] ++ [3] ++ [1; 0; 0; 0] ++ [9] ++ [])
    = Some (inl Error) /\
  decode LittleEndian (list Z) (fun _ => None)
    ([1; 1; 1; 0; 7; 0] ++ [1; 1; 1; 0; 7] ++ [2] ++ [1; 0; 0; 0] ++ [9] ++ [])
    = Some (inl SyntaxError).
Proof.
  split.
  - apply (invalid_extra_throws LittleEndian (list Z) text_parse
             text_stringify eq_refl [(one_byte, Null (list Z))] one_byte 3
             [9] []); [check_valid | check_valid | check_valid | done | lia].
  - apply (invalid_extra_throws LittleEndian (list Z) (fun _ => None)
             text_stringify eq_refl [(one_byte, Null (list Z))] one_byte 2
             [9] []); [check_valid | check_valid | check_valid | done
                      | done | done].
Defined.

Ltac check_limits :=
  unfold within_limits; cbn;
  repeat first [ split | constructor ];
  try lia; try done.

(** X6 at a record with a wide shape and a record with raw bytes, on a
    little-endian platform. *)
Lemma encode_layout_witness :
  encode LittleEndian (list Z) text_stringify
    [(wide, Null (list Z)); (one_byte, ArrayBuffer (list Z) [9])] None
  = inr ([1; 254] ++ [0; 0; 1; 0; 0; 0; 0; 0]
         ++ [0] ++ [1; 1] ++ [1; 0] ++ [7] ++ [1] ++ [1; 0; 0; 0] ++ [9]).
Proof.
  apply (encode_layout LittleEndian (list Z) text_stringify
           [(wide, Null (list Z)); (one_byte, ArrayBuffer (list Z) [9])] None);
    [by left | done | check_limits].
Defined.

(** X8 at a record of 129 dimensions behind a record that is accepted, and
    at a record with a dimension of 2^32. *)
Lemma encode_refuses_witness :
  encode LittleEndian (list Z) text_stringify
    [(one_byte, Null (list Z)); (deep 129, Null (list Z))] (Some true)
    = inl Error /\
  encode BigEndian (list Z) text_stringify
    [({| shape := [4294967296]; dType := uint8;
         data := {| kind := Uint8; buffer := [] |} |}, Null (list Z))] None
    = inl Error.
Proof.
  split.
  - apply (encode_refuses LittleEndian (list Z) text_stringify _
             (deep 129) (Null (list Z))); [right; by left |].
    left. unfold deep. cbn [shape]. rewrite length_replicate. lia.
  - apply (encode_refuses BigEndian (list Z) text_stringify _
             {| shape := [4294967296]; dType := uint8;
                data := {| kind := Uint8; buffer := [] |} |} (Null (list Z)));
      [by left |].
    right. exists 4294967296. split; [by left | lia].
Defined.

(** X9 at the two records of the test-suite. *)
Lemma encode_app_witness :
  exists blob1 blob2,
    encode LittleEndian (list Z) text_stringify
      [(mat, Null (list Z))] None = inr blob1 /\
    encode LittleEndian (list Z) text_stringify
      [(mat, Object (list Z) min_max_text)] None = inr blob2 /\
    encode LittleEndian (list Z) text_stringify
      ([(mat, Null (list Z))] ++ [(mat, Object (list Z) min_max_text)]) None
      = inr (blob1 ++ 0 :: blob2).
Proof.
  apply (encode_app LittleEndian (list Z) text_stringify
           [(mat, Null (list Z))] [(mat, Object (list Z) min_max_text)] None);
    [by left | done | done | check_limits | check_limits].
Defined.

(** X10 at the two records of the test-suite. *)
Lemma decode_app_witness :
  exists blob1 blob2 records1 records2,
    encode LittleEndian (list Z) text_stringify
      [(mat, Null (list Z))] None = inr blob1 /\
    encode LittleEndian (list Z) text_stringify
      [(mat, Object (list Z) min_max_text)] None = inr blob2 /\
    decode LittleEndian (list Z) text_parse blob1 = Some (inr records1) /\
    decode LittleEndian (list Z) text_parse blob2 = Some (inr records2) /\
    decode LittleEndian (list Z) text_parse (blob1 ++ 0 :: blob2)
      = Some (inr (records1 ++ records2)).
Proof.
  apply (decode_app LittleEndian (list Z) text_parse text_stringify eq_refl
           [(mat, Null (list Z))] [(mat, Object (list Z) min_max_text)] None);
    [by left | done | done | check_valid | check_valid].
Defined.

(** X11 at a record with raw bytes given in a [Uint8Array]. *)
Lemma encode_decode_encode_witness :
  exists blob records,
    encode LittleEndian (list Z) text_stringify
      [(one_byte, Uint8ArrayObject (list Z) [1; 2; 3])] (Some true)
      = inr blob /\
    decode LittleEndian (list Z) text_parse blob = Some (inr records) /\
    encode LittleEndian (list Z) text_stringify records (Some true)
      = inr blob.
Proof.
  apply (encode_decode_encode LittleEndian (list Z) text_parse text_stringify
           eq_refl [(one_byte, Uint8ArrayObject (list Z) [1; 2; 3])]
           (Some true));
    [by right | done | check_valid | check_valid].
Defined.

(** X12 at one record, written in big-endian on a little-endian platform
    and on a big-endian one. *)
Lemma big_endian_blob_refused_witness :
  decode LittleEndian (list Z) text_parse [255; 1; 0; 0; 0]
    = Some (inl Error) /\
  decode BigEndian (list Z) text_parse [255; 1; 0; 1; 7] = Some (inl Error).
Proof.
  split.
  - apply (big_endian_blob_refused LittleEndian (list Z) text_parse
             text_stringify [(one_byte, Null (list Z))] (Some false));
      [by left | reflexivity].
  - apply (big_endian_blob_refused BigEndian (list Z) text_parse
             text_stringify [(one_byte, Null (list Z))] None);
      [by right | reflexivity].
Defined.

(** X17 at the two chunks of the test-suite. *)
Lemma stream_whole_blobs_witness :
  exists s0,
    stream_of (list Z)
      (RawResponse
         (Some [[0x0A; 0x02; 0x02; 0x00; 0x03; 0x00] ++ mat_data;
                [0x0A; 0x02; 0x02; 0x00; 0x03; 0x00] ++ mat_data
                  ++ [0x02; 0x15; 0x00; 0x00; 0x00] ++ min_max_text]))
      = inr s0 /\
    forall n,
      pulls LittleEndian (list Z) text_parse (2 + 2 + n) s0
        = Some (finished (list Z)
                  [(mat, Null (list Z)); (mat, Object (list Z) min_max_text)]).
Proof.
  apply (stream_whole_blobs LittleEndian (list Z) text_parse text_stringify
           eq_refl
           [[(mat, Null (list Z))]; [(mat, Object (list Z) min_max_text)]]
           _ (Some true));
    [by right | check_valid | repeat constructor].
Defined.

(** X19 at the half-precision number 1.0. *)
Lemma decode_widens_float16_witness :
  exists blob records,
    encode LittleEndian (list Z) text_stringify
      [(one_half, Null (list Z))] None = inr blob /\
    decode LittleEndian (list Z) text_parse blob = Some (inr records) /\
    Forall2 (fun item record =>
      let arr := fst item in
      let out := fst record in
      shape out = shape arr /\
      snd record = decoded_extra (list Z) (snd item) /\
      (dType arr = float16 ->
         dType out = float32 /\ kind (data out) = Float32 /\
         data_length (data out) = fold_left Z.mul (shape arr) 1 /\
         buffer (data out)
           = concat (map (fun r => uint_bytes LittleEndian 4
                                     (float32_bits (castFloat16 r)))
                         (map (uint_value LittleEndian)
                              (groups (length (buffer (data arr)) / 2) 2
                                      (buffer (data arr)))))) /\
      (dType arr <> float16 ->
         dType out = dType arr /\ buffer (data out) = buffer (data arr)))
      [(one_half, Null (list Z))] records.
Proof.
  apply (decode_widens_float16 LittleEndian (list Z) text_parse text_stringify
           eq_refl [(one_half, Null (list Z))] None);
    [by left | done | check_valid].
Defined.

(** X20 at the blob of the test-suite, a float32 array: the older decoder
    throws. *)
Lemma decodeMatBlob_typed_arrays_witness :
  decodeMatBlob LittleEndian (list Z) text_parse
    (0x0A :: 0x02 :: [0x02; 0x00; 0x03; 0x00] ++ mat_data)
    = Some (inl TypeError).
Proof.
  apply (decodeMatBlob_typed_arrays LittleEndian (list Z) text_parse
           0x0A 0x02 ([0x02; 0x00; 0x03; 0x00] ++ mat_data));
    [cbn; tauto | lia | unfold byteLength; cbn; lia].
Defined.


(** X22 at the half-precision number 1.0, cut before its two bytes and
    between them. *)
Lemma decodeMatBlob_cut_data_witness :
  decode LittleEndian (list Z) text_parse [9; 1; 1; 0] = Some (inr []) /\
  decodeMatBlob LittleEndian (list Z) text_parse [9; 1; 1; 0; 0]
    = Some (inl Error) /\
  exists mat,
    decodeMatBlob LittleEndian (list Z) text_parse [9; 1; 1; 0]
      = Some (inr [(mat, Null (list Z))]) /\
    shape mat = [1] /\ dType mat = float32 /\
    data_length (data mat) = 0 / 2 /\ data_length (data mat) < 1.
Proof.
  assert (valid_record one_half) as Hrec by check_valid.
  assert (small_shape one_half) as Hsmall by check_valid.
  split; [|split].
  - apply (decodeMatBlob_cut_data LittleEndian (list Z) text_parse
             text_stringify eq_refl one_half 0 Hrec Hsmall eq_refl).
    cbn. lia.
  - apply (decodeMatBlob_cut_data LittleEndian (list Z) text_parse
             text_stringify eq_refl one_half 1 Hrec Hsmall eq_refl);
      [cbn; lia | done].
  - apply (decodeMatBlob_cut_data LittleEndian (list Z) text_parse
             text_stringify eq_refl one_half 0 Hrec Hsmall eq_refl);
      [cbn; lia | done].
Defined.
